(** * ImageProcessing: a shallow embedding of the grayscale image toolkit

    The development follows the C++ sources: [Point], [Image] (pixel buffer,
    arithmetic, region extraction, PGM input and output), the [Drawing]
    rasterisers and the [ImageProcessing] filters.

    Conventions of the embedding.
    - [unsigned int] values are integers in [0, 2^32); unsigned arithmetic
      wraps ([to_unsigned]).  [int] values are integers in [-2^31, 2^31);
      signed overflow has no defined behaviour in C++ and yields [Undefined].
    - A pixel buffer is a list of rows.  A freshly allocated buffer holds
      indeterminate bytes ([Indet]); copying such a byte is allowed, using it
      in arithmetic or writing it to a file is not.
    - Every operation runs in the [outcome] monad: [Done] is a defined result,
      [Undefined] an execution without defined behaviour (out-of-bounds access,
      signed overflow, ...), [OutOfFuel] an unfinished [while] loop.
    - [double] is IEEE binary64, taken from the kernel's primitive floats.
    - Objects are values: a member function takes [this] and returns the new
      state of the object it modifies.  Two image arguments of one call are
      two distinct objects.  Allocation never fails, and an image returned by
      value holds the dimensions and bytes of the local it is made from. *)

From Stdlib Require Import ZArith Lia List Bool.
From Stdlib Require Import Floats.PrimFloat Floats.SpecFloat Floats.FloatOps.
From Stdlib Require Import Numbers.Cyclic.Int63.Uint63.
From stdpp Require Import base tactics option list.

Local Open Scope Z_scope.

(** ** Outcomes of an execution *)

Inductive outcome (A : Type) : Type :=
  | Done (a : A)
  | Undefined
  | OutOfFuel.
Arguments Done {A} a.
Arguments Undefined {A}.
Arguments OutOfFuel {A}.

#[global] Instance outcome_ret : MRet outcome := @Done.
#[global] Instance outcome_bind : MBind outcome := fun A B f m =>
  match m with
  | Done a => f a
  | Undefined => Undefined
  | OutOfFuel => OutOfFuel
  end.

(** [for (i = lo; ...; ++i) body], run for [n] iterations from [i]. *)
Fixpoint for_loop {St : Type} (n : nat) (i : Z) (body : Z -> St -> outcome St)
    (s : St) : outcome St :=
  match n with
  | O => Done s
  | S n' => s' ← body i s; for_loop n' (i + 1) body s'
  end.

(** [for (i = 0; i < hi; ++i) body]. *)
Definition for_upto {St : Type} (hi : Z) (body : Z -> St -> outcome St)
    (s : St) : outcome St :=
  for_loop (Z.to_nat hi) 0 body s.

(** ** Machine integers *)

Definition UINT_MAX : Z := 4294967295.
Definition INT_MAX : Z := 2147483647.
Definition INT_MIN : Z := -2147483648.

Definition uint_range (z : Z) : Prop := 0 <= z <= UINT_MAX.
Definition int_range (z : Z) : Prop := INT_MIN <= z <= INT_MAX.
Definition uchar_range (z : Z) : Prop := 0 <= z <= 255.

(** Conversion to [unsigned int], and unsigned arithmetic: modulo 2^32. *)
Definition to_unsigned (z : Z) : Z := z mod 4294967296.

(** Conversion of an [unsigned int] to [int] (two's complement). *)
Definition to_int (z : Z) : Z :=
  let u := z mod 4294967296 in
  if u <? 2147483648 then u else u - 4294967296.

(** Conversion to [unsigned char]. *)
Definition to_uchar (z : Z) : Z := z mod 256.

(** The result of a signed operation: defined only when representable. *)
Definition int_ (z : Z) : outcome Z :=
  if (INT_MIN <=? z) && (z <=? INT_MAX) then Done z else Undefined.

Definition iadd (a b : Z) : outcome Z := int_ (a + b).
Definition isub (a b : Z) : outcome Z := int_ (a - b).
Definition imul (a b : Z) : outcome Z := int_ (a * b).
Definition ineg (a : Z) : outcome Z := int_ (- a).
Definition iabs (a : Z) : outcome Z := int_ (Z.abs a).

(** ** Point *)

Record Point : Type := mkPoint { getX : Z; getY : Z }.

(** [Point::Point()] *)
Definition Point_default : Point := mkPoint 0 0.

(** [Point::operator+] and [Point::operator-]: [int] arithmetic on the
    coordinates. *)
Definition Point_plus (p other : Point) : outcome Point :=
  x ← iadd (getX p) (getX other);
  y ← iadd (getY p) (getY other);
  Done (mkPoint x y).
Definition Point_minus (p other : Point) : outcome Point :=
  x ← isub (getX p) (getX other);
  y ← isub (getY p) (getY other);
  Done (mkPoint x y).

(** ** Rectangle *)

Record Rectangle : Type :=
  mkRectangle { topLeft : Point; bottomRight : Point }.

(** [Rectangle::Rectangle()] *)
Definition Rectangle_default : Rectangle :=
  mkRectangle Point_default Point_default.

(** [Rectangle::Rectangle(int x, int y, unsigned int width, unsigned int
    height)]: [x + width] is an unsigned sum converted to [int]. *)
Definition Rectangle_xywh (x y width height : Z) : Rectangle :=
  mkRectangle (mkPoint x y)
              (mkPoint (to_int (x + width)) (to_int (y + height))).

(** [Rectangle::getX] and [getY] *)
Definition Rectangle_getX (r : Rectangle) : Z := getX (topLeft r).
Definition Rectangle_getY (r : Rectangle) : Z := getY (topLeft r).

(** [Rectangle::getWidth] and [getHeight]: an [int] difference returned as
    [unsigned int]. *)
Definition Rectangle_getWidth (r : Rectangle) : outcome Z :=
  d ← isub (getX (bottomRight r)) (getX (topLeft r));
  Done (to_unsigned d).
Definition Rectangle_getHeight (r : Rectangle) : outcome Z :=
  d ← isub (getY (bottomRight r)) (getY (topLeft r));
  Done (to_unsigned d).

(** [Rectangle::setX] and [setY]: [int width = getWidth();], then both
    corners are moved. *)
Definition Rectangle_setX (r : Rectangle) (x : Z) : outcome Rectangle :=
  w ← Rectangle_getWidth r;
  let width := to_int w in
  bx ← iadd x width;
  Done (mkRectangle (mkPoint x (getY (topLeft r)))
                    (mkPoint bx (getY (bottomRight r)))).
Definition Rectangle_setY (r : Rectangle) (y : Z) : outcome Rectangle :=
  h ← Rectangle_getHeight r;
  let height := to_int h in
  by_ ← iadd y height;
  Done (mkRectangle (mkPoint (getX (topLeft r)) y)
                    (mkPoint (getX (bottomRight r)) by_)).

(** [Rectangle::setWidth] and [setHeight]: an unsigned sum converted to
    [int]. *)
Definition Rectangle_setWidth (r : Rectangle) (width : Z) : Rectangle :=
  mkRectangle (topLeft r)
    (mkPoint (to_int (getX (topLeft r) + width))
             (getY (bottomRight r))).
Definition Rectangle_setHeight (r : Rectangle) (height : Z) : Rectangle :=
  mkRectangle (topLeft r)
    (mkPoint (getX (bottomRight r))
             (to_int (getY (topLeft r) + height))).

(** [Rectangle::operator+(const Point&)] and [operator-(const Point&)] *)
Definition Rectangle_plus (r : Rectangle) (pt : Point) : outcome Rectangle :=
  tl ← Point_plus (topLeft r) pt;
  br ← Point_plus (bottomRight r) pt;
  Done (mkRectangle tl br).
Definition Rectangle_minus (r : Rectangle) (pt : Point) : outcome Rectangle :=
  tl ← Point_minus (topLeft r) pt;
  br ← Point_minus (bottomRight r) pt;
  Done (mkRectangle tl br).

(** [getX() + getWidth()] and [getY() + getHeight()]: unsigned sums. *)
Definition Rectangle_right (r : Rectangle) : outcome Z :=
  w ← Rectangle_getWidth r; Done (to_unsigned (Rectangle_getX r + w)).
Definition Rectangle_bottom (r : Rectangle) : outcome Z :=
  h ← Rectangle_getHeight r; Done (to_unsigned (Rectangle_getY r + h)).

(** [Rectangle::operator&]: [std::max] on [int]s for the top-left corner,
    [std::min] on [unsigned int]s, converted to [int], for the bottom-right
    corner. *)
Definition Rectangle_and (r other : Rectangle) : outcome Rectangle :=
  let x1 := Z.max (Rectangle_getX r) (Rectangle_getX other) in
  let y1 := Z.max (Rectangle_getY r) (Rectangle_getY other) in
  a ← Rectangle_right r; b ← Rectangle_right other;
  let x2 := to_int (Z.min a b) in
  a ← Rectangle_bottom r; b ← Rectangle_bottom other;
  let y2 := to_int (Z.min a b) in
  if (x2 <=? x1) || (y2 <=? y1) then Done Rectangle_default
  else Done (mkRectangle (mkPoint x1 y1) (mkPoint x2 y2)).

(** [Rectangle::operator|] *)
Definition Rectangle_or (r other : Rectangle) : outcome Rectangle :=
  let x1 := Z.min (Rectangle_getX r) (Rectangle_getX other) in
  let y1 := Z.min (Rectangle_getY r) (Rectangle_getY other) in
  a ← Rectangle_right r; b ← Rectangle_right other;
  let x2 := to_int (Z.max a b) in
  a ← Rectangle_bottom r; b ← Rectangle_bottom other;
  let y2 := to_int (Z.max a b) in
  Done (mkRectangle (mkPoint x1 y1) (mkPoint x2 y2)).

(** ** Image *)

(** One byte of a pixel buffer. *)
Inductive cell : Type :=
  | Indet
  | Px (v : Z).

Record Image : Type := mkImage {
  m_data : option (list (list cell));
  m_width : Z;
  m_height : Z;
  m_isGrayscale : bool
}.

Definition width (img : Image) : Z := m_width img.
Definition height (img : Image) : Z := m_height img.

Definition set_data (img : Image) (d : option (list (list cell))) : Image :=
  {| m_data := d; m_width := m_width img; m_height := m_height img;
     m_isGrayscale := m_isGrayscale img |}.

(** [Image::Image()] *)
Definition Image_default : Image :=
  {| m_data := None; m_width := 0; m_height := 0; m_isGrayscale := true |}.

(** [Image::allocateMemory]: [m_height] rows of [m_width] bytes each, none of
    them initialised. *)
Definition allocateMemory (img : Image) : Image :=
  set_data img
    (Some (replicate (Z.to_nat (m_height img))
                     (replicate (Z.to_nat (m_width img)) Indet))).

(** [Image::deallocateMemory]: deletes rows [0 .. m_height-1] of the row
    table, then the table.  Deleting a row the table does not have is an
    out-of-bounds read of the table. *)
Definition deallocateMemory (img : Image) : outcome Image :=
  match m_data img with
  | None => Done img
  | Some rows =>
      if (Z.to_nat (m_height img) <=? length rows)%nat
      then Done (set_data img None)
      else Undefined
  end.

(** [Image::Image(unsigned int w, unsigned int h)] *)
Definition Image_wh (w h : Z) : Image :=
  allocateMemory
    {| m_data := None; m_width := w; m_height := h; m_isGrayscale := true |}.

(** The byte [m_data[y][x]], copied as a byte. *)
Definition load_cell (img : Image) (y x : Z) : outcome cell :=
  match m_data img with
  | None => Undefined
  | Some rows =>
      if (y <? 0) || (x <? 0) then Undefined else
      match rows !! Z.to_nat y with
      | None => Undefined
      | Some r =>
          match r !! Z.to_nat x with
          | None => Undefined
          | Some c => Done c
          end
      end
  end.

(** The value of [m_data[y][x]], used as a number. *)
Definition load_px (img : Image) (y x : Z) : outcome Z :=
  c ← load_cell img y x;
  match c with
  | Px v => Done v
  | Indet => Undefined
  end.

(** [m_data[y][x] = c] *)
Definition store_cell (img : Image) (y x : Z) (c : cell) : outcome Image :=
  match m_data img with
  | None => Undefined
  | Some rows =>
      if (y <? 0) || (x <? 0) then Undefined else
      match rows !! Z.to_nat y with
      | None => Undefined
      | Some r =>
          if (Z.to_nat x <? length r)%nat
          then Done (set_data img
                       (Some (<[Z.to_nat y := <[Z.to_nat x := c]> r]> rows)))
          else Undefined
      end
  end.

(** [Image::at(unsigned int x, unsigned int y)] returns a reference to
    [m_data[y][x]]; [at_get] reads through it, [at_set] writes through it. *)
Definition at_get (img : Image) (x y : Z) : outcome Z := load_px img y x.
Definition at_set (img : Image) (x y : Z) (v : Z) : outcome Image :=
  store_cell img y x (Px v).

(** The loop nest shared by the pixelwise operations:
    [for (y = 0; y < h; ++y) for (x = 0; x < w; ++x) img.m_data[y][x] = rhs]. *)
Definition pixel_loop (h w : Z) (rhs : Z -> Z -> outcome cell) (img : Image)
    : outcome Image :=
  for_upto h (fun y img =>
    for_upto w (fun x img => c ← rhs y x; store_cell img y x c) img) img.

(** [Image::copyFrom] *)
Definition copyFrom (this other : Image) : outcome Image :=
  let this1 :=
    allocateMemory {| m_data := m_data this; m_width := m_width other;
                      m_height := m_height other;
                      m_isGrayscale := m_isGrayscale other |} in
  pixel_loop (m_height this1) (m_width this1)
    (fun i j => load_cell other i j) this1.

(** [Image::operator=], for [this] and [other] two distinct objects. *)
Definition operator_assign (this other : Image) : outcome Image :=
  this1 ← deallocateMemory this;
  copyFrom this1 other.

(** [Image::operator+(const Image&)] *)
Definition operator_plus (this i : Image) : outcome Image :=
  if negb (m_width this =? m_width i) || negb (m_height this =? m_height i)
  then Done Image_default
  else
    pixel_loop (m_height this) (m_width this)
      (fun y x =>
         a ← load_px this y x;
         b ← load_px i y x;
         Done (Px (to_uchar (Z.min 255 (a + b)))))
      (Image_wh (m_width this) (m_height this)).

(** [Image::operator-(const Image&)] *)
Definition operator_minus (this i : Image) : outcome Image :=
  if negb (m_width this =? m_width i) || negb (m_height this =? m_height i)
  then Done Image_default
  else
    pixel_loop (m_height this) (m_width this)
      (fun y x =>
         a ← load_px this y x;
         b ← load_px i y x;
         Done (Px (to_uchar (Z.max 0 (a - b)))))
      (Image_wh (m_width this) (m_height this)).

(** [Image::operator+(unsigned char)] *)
Definition operator_plus_scalar (this : Image) (value : Z) : outcome Image :=
  pixel_loop (m_height this) (m_width this)
    (fun y x =>
       a ← load_px this y x;
       Done (Px (to_uchar (Z.min 255 (a + value)))))
    (Image_wh (m_width this) (m_height this)).

(** [Image::operator-(unsigned char)] *)
Definition operator_minus_scalar (this : Image) (value : Z) : outcome Image :=
  pixel_loop (m_height this) (m_width this)
    (fun y x =>
       a ← load_px this y x;
       Done (Px (to_uchar (Z.max 0 (a - value)))))
    (Image_wh (m_width this) (m_height this)).

(** [Image::getROI(Image&, unsigned, unsigned, unsigned, unsigned)], for
    [roiImg] an object distinct from [this].  The sums are unsigned. *)
Definition getROI (this roiImg : Image) (x y width height : Z)
    : outcome (bool * Image) :=
  if (to_unsigned (x + width) >? m_width this)
     || (to_unsigned (y + height) >? m_height this)
  then Done (false, roiImg)
  else
    roi1 ← operator_assign roiImg (Image_wh width height);
    roi2 ← pixel_loop height width
             (fun i j =>
                load_cell this (to_unsigned (y + i)) (to_unsigned (x + j)))
             roi1;
    Done (true, roi2).

(** [Image::isEmpty] *)
Definition isEmpty (img : Image) : bool :=
  match m_data img with None => true | Some _ => false end
  || (m_width img =? 0) || (m_height img =? 0).

(** [Image::release] *)
Definition release (img : Image) : outcome Image :=
  img1 ← deallocateMemory img;
  Done {| m_data := m_data img1; m_width := 0; m_height := 0;
          m_isGrayscale := m_isGrayscale img1 |}.

(** [Image::zeros] and [Image::ones] *)
Definition zeros (width height : Z) : outcome Image :=
  pixel_loop height width (fun _ _ => Done (Px 0)) (Image_wh width height).
Definition ones (width height : Z) : outcome Image :=
  pixel_loop height width (fun _ _ => Done (Px 255)) (Image_wh width height).

(** [Image::Image(const Image&)] *)
Definition Image_copy (other : Image) : outcome Image :=
  copyFrom Image_default other.

(** [Image::getROI(Image&, Rectangle)]: the corner and the extent of the
    rectangle are passed on as [unsigned int]s. *)
Definition getROI_rect (this roiImg : Image) (roiRect : Rectangle)
    : outcome (bool * Image) :=
  w ← Rectangle_getWidth roiRect;
  h ← Rectangle_getHeight roiRect;
  getROI this roiImg
    (to_unsigned (getX (topLeft roiRect)))
    (to_unsigned (getY (topLeft roiRect))) w h.

(** ** Drawing *)

Module Drawing.

(** One of the eight guarded plots of [drawCircle]:
    [if (ex >= 0 && ex < img.width() && ey >= 0 && ey < img.height())
       img.at(ey, ex) = value;]
    where [ex] stands for [center.getX() ± ...] and [ey] for
    [center.getY() ± ...].  The conjunction is evaluated left to right and
    stops at the first false operand.  The call passes [ey] as the first
    argument of [Image::at(x, y)] and [ex] as the second. *)
Definition plot (img : Image) (ex ey : outcome Z) (value : Z) : outcome Image :=
  px ← ex;
  if (0 <=? px) && (px <? width img) then
    py ← ey;
    if (0 <=? py) && (py <? height img)
    then at_set img (to_unsigned py) (to_unsigned px) value
    else Done img
  else Done img.

(** The body of [while (x <= y)] in [drawCircle]; [fuel] bounds the number of
    iterations still allowed. *)
Fixpoint circle_loop (fuel : nat) (img : Image) (center : Point) (value : Z)
    (x y d : Z) : outcome Image :=
  if x <=? y then
    match fuel with
    | O => OutOfFuel
    | S fuel' =>
        let cx := getX center in
        let cy := getY center in
        img ← plot img (iadd cx x) (iadd cy y) value;
        img ← plot img (iadd cx y) (iadd cy x) value;
        img ← plot img (isub cx x) (iadd cy y) value;
        img ← plot img (isub cx y) (iadd cy x) value;
        img ← plot img (iadd cx x) (isub cy y) value;
        img ← plot img (iadd cx y) (isub cy x) value;
        img ← plot img (isub cx x) (isub cy y) value;
        img ← plot img (isub cx y) (isub cy x) value;
        '(d, y) ←
          (if d <? 0 then
             t ← imul 4 x; t ← iadd t 6; d ← iadd d t;
             Done (d, y)
           else
             t ← isub x y; t ← imul 4 t; t ← iadd t 10; d ← iadd d t;
             y ← isub y 1;
             Done (d, y));
        x ← iadd x 1;
        circle_loop fuel' img center value x y d
    end
  else Done img.

(** [Drawing::drawCircle].  The loop runs at most [radius + 1] times: [x]
    starts at 0 and grows by one, [y] starts at [radius] and never grows. *)
Definition drawCircle (img : Image) (center : Point) (radius : Z) (value : Z)
    : outcome Image :=
  t ← imul 2 radius;
  d ← isub 3 t;
  circle_loop (Z.to_nat (radius + 1)) img center value 0 radius d.

(** One iteration of [while (true)] in [drawLine]: the image after the guarded
    plot, and the next values of [x1], [y1] and [err], or [None] when the
    iteration leaves the loop by [break]. *)
Definition line_body (img : Image) (value : Z)
    (x1 y1 x2 y2 dx dy sx sy err : Z)
    : outcome (Image * option (Z * Z * Z)) :=
  img ← (if (0 <=? x1) && (x1 <? width img)
            && (0 <=? y1) && (y1 <? height img)
         then at_set img (to_unsigned x1) (to_unsigned y1) value
         else Done img);
  if (x1 =? x2) && (y1 =? y2) then Done (img, None)
  else
    e2 ← imul 2 err;
    ndy ← ineg dy;
    '(err, x1) ←
      (if e2 >? ndy then
         err ← isub err dy; x1 ← iadd x1 sx; Done (err, x1)
       else Done (err, x1));
    '(err, y1) ←
      (if e2 <? dx then
         err ← iadd err dx; y1 ← iadd y1 sy; Done (err, y1)
       else Done (err, y1));
    Done (img, Some (x1, y1, err)).

(** [while (true)] in [drawLine], with [fuel] iterations allowed. *)
Fixpoint line_loop (fuel : nat) (img : Image) (value : Z)
    (x1 y1 x2 y2 dx dy sx sy err : Z) : outcome Image :=
  match fuel with
  | O => OutOfFuel
  | S fuel' =>
      '(img, next) ← line_body img value x1 y1 x2 y2 dx dy sx sy err;
      match next with
      | None => Done img
      | Some (x1, y1, err) =>
          line_loop fuel' img value x1 y1 x2 y2 dx dy sx sy err
      end
  end.

(** [Drawing::drawLine], with [fuel] iterations of the loop allowed. *)
Definition drawLine (fuel : nat) (img : Image) (p1 p2 : Point) (value : Z)
    : outcome Image :=
  let x1 := getX p1 in
  let y1 := getY p1 in
  let x2 := getX p2 in
  let y2 := getY p2 in
  t ← isub x2 x1; dx ← iabs t;
  t ← isub y2 y1; dy ← iabs t;
  let sx := if x1 <? x2 then 1 else -1 in
  let sy := if y1 <? y2 then 1 else -1 in
  err ← isub dx dy;
  line_loop fuel img value x1 y1 x2 y2 dx dy sx sy err.

(** [Drawing::drawRectangle(Image&, Point, Point, unsigned char)]: four
    lines, each with [fuel] iterations allowed. *)
Definition drawRectangle (fuel : nat) (img : Image) (tl br : Point)
    (value : Z) : outcome Image :=
  let tr := mkPoint (getX br) (getY tl) in
  let bl := mkPoint (getX tl) (getY br) in
  img ← drawLine fuel img tl tr value;
  img ← drawLine fuel img tr br value;
  img ← drawLine fuel img br bl value;
  drawLine fuel img bl tl value.

(** [Drawing::drawRectangle(Image&, Rectangle, unsigned char)] *)
Definition drawRectangle_rect (fuel : nat) (img : Image) (r : Rectangle)
    (value : Z) : outcome Image :=
  drawRectangle fuel img (topLeft r) (bottomRight r) value.

End Drawing.

(** ** Filters *)

(** [double] arithmetic. *)
Definition double : Set := float.

(** Conversion of an [int] (or a promoted [unsigned char]) to [double]; exact
    for every 32-bit value. *)
Definition double_of_int (z : Z) : double :=
  if z <? 0 then PrimFloat.opp (PrimFloat.of_uint63 (Uint63.of_Z (- z)))
  else PrimFloat.of_uint63 (Uint63.of_Z z).

(** [static_cast<int>(f)]: truncation toward zero; not defined for a NaN, an
    infinity or a value whose truncation is not an [int]. *)
Definition double_to_int (f : double) : outcome Z :=
  match Prim2SF f with
  | S754_zero _ => Done 0
  | S754_finite s m e =>
      let mag := if 0 <=? e then Z.pos m * 2 ^ e else Z.pos m / 2 ^ (- e) in
      int_ (if s then - mag else mag)
  | S754_infinity _ => Undefined
  | S754_nan => Undefined
  end.

(** [Image::operator*(double)] *)
Definition operator_times (this : Image) (scalar : double) : outcome Image :=
  pixel_loop (m_height this) (m_width this)
    (fun y x =>
       a ← load_px this y x;
       v ← double_to_int (PrimFloat.mul (double_of_int a) scalar);
       Done (Px (to_uchar (Z.min 255 v))))
    (Image_wh (m_width this) (m_height this)).

Module BrightnessContrastAdjustment.

(** The right-hand side of the assignment to [dstPixel]. *)
Definition pixel (alpha : double) (beta : Z) (src : Image) (y x : Z)
    : outcome cell :=
  srcPixel ← at_get src x y;
  v ← double_to_int
        (PrimFloat.add (PrimFloat.mul (double_of_int srcPixel) alpha)
                       (double_of_int beta));
  Done (Px (to_uchar (Z.min 255 (Z.max 0 v)))).

(** [BrightnessContrastAdjustment::process], [dst] distinct from [src]. *)
Definition process (alpha : double) (beta : Z) (src dst : Image)
    : outcome Image :=
  dst ← operator_assign dst (Image_wh (width src) (height src));
  pixel_loop (height src) (width src) (pixel alpha beta src) dst.

End BrightnessContrastAdjustment.

Module GammaCorrection.
Section WithPow.

(** [pow] of the C library. *)
Variable pow : double -> double -> double.

Definition pixel (gamma : double) (src : Image) (y x : Z) : outcome cell :=
  srcPixel ← at_get src x y;
  v ← double_to_int
        (PrimFloat.mul (double_of_int 255)
           (pow (PrimFloat.div (double_of_int srcPixel) 255%float) gamma));
  Done (Px (to_uchar (Z.min 255 v))).

(** [GammaCorrection::process], [dst] distinct from [src]. *)
Definition process (gamma : double) (src dst : Image) : outcome Image :=
  dst ← operator_assign dst (Image_wh (width src) (height src));
  pixel_loop (height src) (width src) (pixel gamma src) dst.

End WithPow.
End GammaCorrection.

Module Convolution.

(** [kernel[ky][kx]] *)
Definition kernel_at (kernel : list (list double)) (ky kx : Z)
    : outcome double :=
  if (ky <? 0) || (kx <? 0) then Undefined else
  match kernel !! Z.to_nat ky with
  | None => Undefined
  | Some r =>
      match r !! Z.to_nat kx with
      | None => Undefined
      | Some k => Done k
      end
  end.

(** The weighted sum over the kernel footprint at destination pixel [(x, y)]:
    the two inner loops of [process].  [srcX] and [srcY] are [int]s initialised
    from unsigned expressions.  Each product is rounded before it is added. *)
Definition weighted_sum (kernel : list (list double))
    (kernelWidth kernelHeight : Z) (src : Image) (y x : Z) : outcome double :=
  let kernelRadiusX := Z.quot kernelWidth 2 in
  let kernelRadiusY := Z.quot kernelHeight 2 in
  for_upto kernelHeight (fun ky sum =>
    for_upto kernelWidth (fun kx sum =>
      let srcX := to_int (x + kx - kernelRadiusX) in
      let srcY := to_int (y + ky - kernelRadiusY) in
      if (0 <=? srcX) && (srcX <? width src)
         && (0 <=? srcY) && (srcY <? height src)
      then
        srcPixel ← at_get src (to_unsigned srcX) (to_unsigned srcY);
        k ← kernel_at kernel ky kx;
        Done (PrimFloat.add sum (PrimFloat.mul (double_of_int srcPixel) k))
      else Done sum) sum) 0%float.

Definition pixel (kernel : list (list double)) (kernelWidth kernelHeight : Z)
    (scalingFunction : double -> double) (src : Image) (y x : Z)
    : outcome cell :=
  sum ← weighted_sum kernel kernelWidth kernelHeight src y x;
  v ← double_to_int (scalingFunction sum);
  Done (Px (to_uchar (Z.min 255 (Z.max 0 v)))).

(** [Convolution::process], [dst] distinct from [src]. *)
Definition process (kernel : list (list double)) (kernelWidth kernelHeight : Z)
    (scalingFunction : double -> double) (src dst : Image) : outcome Image :=
  dst ← operator_assign dst (Image_wh (width src) (height src));
  pixel_loop (height src) (width src)
    (pixel kernel kernelWidth kernelHeight scalingFunction src) dst.

(** The identity kernel of the menu, and the identity scaling function. *)
Definition identity_kernel : list (list double) :=
  [ [0; 0; 0]; [0; 1; 0]; [0; 0; 0] ]%float.
Definition identity_scaling : double -> double := fun x => x.

End Convolution.

(** The filter interface [ImageProcessing] and its three implementations. *)
Inductive ImageProcessing : Type :=
  | BrightnessContrast (alpha : double) (beta : Z)
  | Gamma (gamma : double)
  | Convolve (kernel : list (list double)) (kernelWidth kernelHeight : Z)
             (scalingFunction : double -> double).

(** The virtual call [filter.process(src, dst)]. *)
Definition process (pow : double -> double -> double) (f : ImageProcessing)
    (src dst : Image) : outcome Image :=
  match f with
  | BrightnessContrast alpha beta =>
      BrightnessContrastAdjustment.process alpha beta src dst
  | Gamma gamma => GammaCorrection.process pow gamma src dst
  | Convolve k kw kh sf => Convolution.process k kw kh sf src dst
  end.

(** The right-hand side computed for destination pixel [(x, y)]. *)
Definition filter_pixel (pow : double -> double -> double)
    (f : ImageProcessing) (src : Image) (y x : Z) : outcome cell :=
  match f with
  | BrightnessContrast alpha beta =>
      BrightnessContrastAdjustment.pixel alpha beta src y x
  | Gamma gamma => GammaCorrection.pixel pow gamma src y x
  | Convolve k kw kh sf => Convolution.pixel k kw kh sf src y x
  end.

(** A caller's two image objects, [src] and a distinct [dst]. *)
Record store : Type := mkStore { s_src : Image; s_dst : Image }.

(** [filter.process(src, dst)] as a transformer of the caller's objects; [src]
    is passed by reference to const. *)
Definition run_process (pow : double -> double -> double)
    (f : ImageProcessing) (st : store) : outcome store :=
  dst' ← process pow f (s_src st) (s_dst st);
  Done {| s_src := s_src st; s_dst := dst' |}.

(** The kernels of the convolution menu ([handleConvolution]), by menu choice;
    all are 3 by 3 and used with the identity scaling function. *)
Definition menu_kernel (kernelChoice : Z) : option (list (list double)) :=
  let q (a b : Z) := PrimFloat.div (double_of_int a) (double_of_int b) in
  match kernelChoice with
  | 1 => Some [ [0; 0; 0]; [0; 1; 0]; [0; 0; 0] ]%float
  | 2 => Some [ [q 1 9; q 1 9; q 1 9]; [q 1 9; q 1 9; q 1 9];
                [q 1 9; q 1 9; q 1 9] ]
  | 3 => Some [ [q 1 16; q 2 16; q 1 16]; [q 2 16; q 4 16; q 2 16];
                [q 1 16; q 2 16; q 1 16] ]
  | 4 => Some [ [-1; -2; -1]; [0; 0; 0]; [1; 2; 1] ]%float
  | 5 => Some [ [-1; 0; 1]; [-2; 0; 2]; [-1; 0; 1] ]%float
  | _ => None
  end.

(** ** Binary PGM files *)

(** A file is the list of its bytes. *)

(** [std::isspace] in the classic locale. *)
Definition isspace (c : Z) : bool := ((9 <=? c) && (c <=? 13)) || (c =? 32).
Definition isdigit (c : Z) : bool := (48 <=? c) && (c <=? 57).

(** An input stream: the bytes not yet read and the two state bits that decide
    whether an extraction is attempted. *)
Record istream : Type := mkIstream {
  rest : list Z;
  eofbit : bool;
  failbit : bool
}.

Definition good (s : istream) : bool := negb (eofbit s) && negb (failbit s).

Definition set_fail (s : istream) : istream :=
  {| rest := rest s; eofbit := eofbit s; failbit := true |}.
Definition set_eof_fail (s : istream) : istream :=
  {| rest := rest s; eofbit := true; failbit := true |}.

Fixpoint skip_ws (l : list Z) : list Z :=
  match l with
  | c :: l' => if isspace c then skip_ws l' else l
  | [] => []
  end.

(** The sentry of a formatted extraction: fails on a stream that is not good,
    skips white space, fails at the end of the file. *)
Definition sentry (s : istream) : bool * istream :=
  if negb (good s) then (false, set_fail s)
  else
    match skip_ws (rest s) with
    | [] => (false, {| rest := []; eofbit := true; failbit := true |})
    | l => (true, {| rest := l; eofbit := false; failbit := false |})
    end.

(** The characters up to the next white space. *)
Fixpoint scan_word (l : list Z) : list Z * list Z :=
  match l with
  | c :: l' =>
      if isspace c then ([], l)
      else let '(w, r) := scan_word l' in (c :: w, r)
  | [] => ([], [])
  end.

(** [file >> str] for a [std::string]; [str] keeps its value when the sentry
    fails. *)
Definition extract_string (s : istream) (str : list Z) : list Z * istream :=
  let '(ok, s1) := sentry s in
  if ok then
    let '(w, r) := scan_word (rest s1) in
    (w, {| rest := r; eofbit := match r with [] => true | _ => false end;
           failbit := false |})
  else (str, s1).

(** The decimal digits at the head of [l], accumulated into [acc]. *)
Fixpoint scan_digits (l : list Z) (acc : Z) (any : bool) : Z * bool * list Z :=
  match l with
  | c :: l' =>
      if isdigit c then scan_digits l' (10 * acc + (c - 48)) true
      else (acc, any, l)
  | [] => (acc, any, [])
  end.

(** An optional sign followed by decimal digits: the sign, the magnitude,
    whether a digit was read, and the unread bytes. *)
Definition scan_number (l : list Z) : bool * Z * bool * list Z :=
  match l with
  | 43 :: l' => let '(m, any, r) := scan_digits l' 0 false in (false, m, any, r)
  | 45 :: l' => let '(m, any, r) := scan_digits l' 0 false in (true, m, any, r)
  | _ => let '(m, any, r) := scan_digits l 0 false in (false, m, any, r)
  end.

Definition after_number (r : list Z) (fail : bool) : istream :=
  {| rest := r; eofbit := match r with [] => true | _ => false end;
     failbit := fail |}.

(** [file >> v] for an [unsigned int]: [v] keeps its value when the sentry
    fails, becomes 0 when no digit is found and [UINT_MAX] on overflow. *)
Definition extract_unsigned (s : istream) (v : Z) : Z * istream :=
  let '(ok, s1) := sentry s in
  if ok then
    let '(neg, m, any, r) := scan_number (rest s1) in
    if negb any then (0, after_number r true)
    else if m >? UINT_MAX then (UINT_MAX, after_number r true)
    else (to_unsigned (if neg then - m else m), after_number r false)
  else (v, s1).

(** [file >> v] for an [int]. *)
Definition extract_int (s : istream) (v : Z) : Z * istream :=
  let '(ok, s1) := sentry s in
  if ok then
    let '(neg, m, any, r) := scan_number (rest s1) in
    let z := if neg then - m else m in
    if negb any then (0, after_number r true)
    else if z >? INT_MAX then (INT_MAX, after_number r true)
    else if z <? INT_MIN then (INT_MIN, after_number r true)
    else (z, after_number r false)
  else (v, s1).

(** [file.get()]: consumes one byte. *)
Definition get (s : istream) : istream :=
  if negb (good s) then set_fail s
  else
    match rest s with
    | [] => set_eof_fail s
    | _ :: l => {| rest := l; eofbit := false; failbit := false |}
    end.

(** [unsigned char gray; file.read(&gray, 1);]: the byte read, or an
    indeterminate byte when nothing could be read. *)
Definition read_gray (s : istream) : cell * istream :=
  if negb (good s) then (Indet, set_fail s)
  else
    match rest s with
    | [] => (Indet, set_eof_fail s)
    | c :: l => (Px c, {| rest := l; eofbit := false; failbit := false |})
    end.

(** The decimal digits of [n], least significant first. *)
Fixpoint digits_rev (fuel : nat) (n : Z) : list Z :=
  match fuel with
  | O => []
  | S fuel' =>
      (48 + n mod 10) ::
      (if n / 10 =? 0 then [] else digits_rev fuel' (n / 10))
  end.

(** [file << n] for an [unsigned int]: decimal, no padding.  The fuel exceeds
    the number of decimal digits of [n]. *)
Definition print_unsigned (n : Z) : list Z :=
  rev (digits_rev (S (Z.to_nat (Z.log2 n))) n).

Definition magic_P5 : list Z := [80; 53].

(** [Image::load].  [file] is the content of the file at [imagePath], [None]
    when it cannot be opened.  The dimensions are overwritten before the old
    buffer is released. *)
Definition load (file : option (list Z)) (this : Image)
    : outcome (bool * Image) :=
  match file with
  | None => Done (false, this)
  | Some bytes =>
      let s := {| rest := bytes; eofbit := false; failbit := false |} in
      let '(magic, s) := extract_string s [] in
      if negb (bool_decide (magic = magic_P5)) then Done (false, this)
      else
        let '(w, s) := extract_unsigned s (m_width this) in
        let '(h, s) := extract_unsigned s (m_height this) in
        let '(maxVal, s) := extract_int s 0 in
        let s := get s in
        let this := {| m_data := m_data this; m_width := w; m_height := h;
                       m_isGrayscale := true |} in
        this ← deallocateMemory this;
        let this := allocateMemory this in
        '(this, s) ←
          for_upto (m_height this) (fun i st =>
            for_upto (m_width this) (fun j '(img, s) =>
              let '(gray, s) := read_gray s in
              img ← store_cell img i j gray;
              Done (img, s)) st) (this, s);
        Done (true, this)
  end.

(** [Image::save].  [writable] tells whether the file at [imagePath] can be
    opened for writing; the result is the flag returned and the bytes
    written. *)
Definition save (writable : bool) (this : Image) : outcome (bool * list Z) :=
  if negb writable then Done (false, [])
  else
    let header :=
      magic_P5 ++ [10] ++ print_unsigned (m_width this) ++ [32]
        ++ print_unsigned (m_height this) ++ [10; 50; 53; 53; 10] in
    out ←
      for_upto (m_height this) (fun i out =>
        for_upto (m_width this) (fun j out =>
          v ← load_px this i j;
          Done (out ++ [v])) out) header;
    Done (true, out).

(** ** Well-formed images *)

(** [rows] is a table of [h] rows of [w] bytes. *)
Definition shape (rows : list (list cell)) (h w : Z) : Prop :=
  length rows = Z.to_nat h /\ Forall (fun r => length r = Z.to_nat w) rows.

(** [img] owns a buffer of [h] rows of [w] bytes. *)
Definition grid (img : Image) (h w : Z) : Prop :=
  exists rows, m_data img = Some rows /\ shape rows h w.

(** The class invariant: the dimensions are [unsigned int]s and the buffer,
    when there is one, has [m_height] rows of [m_width] bytes. *)
Record wf_image (img : Image) : Prop := mk_wf {
  wf_width : uint_range (m_width img);
  wf_height : uint_range (m_height img);
  wf_data : match m_data img with
            | None => m_width img = 0 /\ m_height img = 0
            | Some rows => shape rows (m_height img) (m_width img)
            end
}.

(** Every byte of the buffer holds a pixel value. *)
Definition initialized (img : Image) : Prop :=
  forall y x c, load_cell img y x = Done c -> exists v, c = Px v /\ uchar_range v.

(** Every pixel of [img] is [v]. *)
Definition constant_image (img : Image) (v : Z) : Prop :=
  forall y x, 0 <= y < m_height img -> 0 <= x < m_width img ->
    load_cell img y x = Done (Px v).

(** Same dimensions and same bytes at every pixel position. *)
Definition same_pixels (a b : Image) : Prop :=
  m_width a = m_width b /\ m_height a = m_height b /\
  forall y x, 0 <= y < m_height a -> 0 <= x < m_width a ->
    load_cell a y x = load_cell b y x.

(** The bookkeeping fields [pixel_loop] never touches. *)
Definition same_header (a b : Image) : Prop :=
  m_width a = m_width b /\ m_height a = m_height b /\
  m_isGrayscale a = m_isGrayscale b.

(** ** The invariant of the line loop *)

(** The state of the loop of [drawLine] when [a] steps in x and [b] steps in
    y remain before the current point is [(x2, y2)]. *)
Definition line_inv (x2 y2 dx dy sx sy : Z) (a b x1 y1 err : Z) : Prop :=
  0 <= a <= dx /\ 0 <= b <= dy /\
  x1 = x2 - sx * a /\ y1 = y2 - sy * b /\
  err = dx - dy + a * dy - b * dx /\
  - 3 * dy <= 2 * err <= 3 * dx.

(** The endpoints are [int]s at most a third of [INT_MAX] apart in each
    coordinate: no operation of the loop can overflow. *)
Definition line_small (x2 y2 dx dy sx sy : Z) : Prop :=
  dx <= 715827882 /\ dy <= 715827882 /\
  int_range x2 /\ int_range y2 /\
  int_range (x2 - sx * dx) /\ int_range (y2 - sy * dy).

(** ** Convolution: visibility of the centre tap *)

(** The centre tap reads [src] at [(x, y)] exactly when both coordinates are
    representable as [int]. *)
Definition centre_visible (y x : Z) : bool :=
  (x <? 2147483648) && (y <? 2147483648).

(** ** The content of a saved file *)

(** The value of a digit string read least significant digit first. *)
Definition value_rev (l : list Z) : Z :=
  fold_right (fun c acc => 10 * acc + (c - 48)) 0 l.

(** The value of pixel [(x, y)], 0 where the buffer holds no value. *)
Definition pixel_value (img : Image) (y x : Z) : Z :=
  match load_cell img y x with
  | Done (Px v) => v
  | _ => 0
  end.

(** The bytes of row [y], and of the rows from [y] on, in file order. *)
Definition row_bytes (img : Image) (y : Z) : list Z :=
  pixel_value img y <$> seqZ 0 (m_width img).
Definition rows_from (img : Image) (y : Z) : list Z :=
  concat (row_bytes img <$> seqZ y (m_height img - y)).

(** The header [save] writes. *)
Definition pgm_header (img : Image) : list Z :=
  magic_P5 ++ [10] ++ print_unsigned (m_width img) ++ [32]
    ++ print_unsigned (m_height img) ++ [10; 50; 53; 53; 10].

(** [load] can release the buffer of [this] after setting the height to [h]:
    there is no buffer, or the row table has at least [h] rows. *)
Definition can_release (this : Image) (h : Z) : Prop :=
  match m_data this with
  | None => True
  | Some rows => (Z.to_nat h <= length rows)%nat
  end.

(** ** Rectangles as sets of pixels *)

(** The coordinates of [p], and of the corners of [r], are [int]s. *)
Definition int_point (p : Point) : Prop :=
  int_range (getX p) /\ int_range (getY p).
Definition int_rect (r : Rectangle) : Prop :=
  int_point (topLeft r) /\ int_point (bottomRight r).

(** [r] covers the pixel [(px, py)]: the top-left corner is inside, the
    bottom-right corner is not. *)
Definition covers (r : Rectangle) (px py : Z) : Prop :=
  getX (topLeft r) <= px < getX (bottomRight r) /\
  getY (topLeft r) <= py < getY (bottomRight r).

(** The corners of [r] are [int]s, not negative, the top-left one first. *)
Definition positive_rect (r : Rectangle) : Prop :=
  0 <= getX (topLeft r) <= getX (bottomRight r) /\
  getX (bottomRight r) <= INT_MAX /\
  0 <= getY (topLeft r) <= getY (bottomRight r) /\
  getY (bottomRight r) <= INT_MAX.

(** ** What a drawing leaves in the image *)

(** [(x, y)] is a pixel of [img]. *)
Definition inside (img : Image) (x y : Z) : Prop :=
  0 <= x < m_width img /\ 0 <= y < m_height img.

(** [(x, y)] holds [value] in [img], if it is a pixel of [img] at all. *)
Definition painted (img : Image) (value x y : Z) : Prop :=
  inside img x y -> load_cell img y x = Done (Px value).

(** [z] lies between [a] and [b], in either order. *)
Definition between (a b z : Z) : Prop := Z.min a b <= z <= Z.max a b.

(** Every byte of [img'] is the byte of [img] at the same place, or a
    pixel of value [value] at a place for which [where_] holds. *)
Definition drawn_over (img img' : Image) (value : Z)
    (where_ : Z -> Z -> Prop) : Prop :=
  forall y x, load_cell img' y x = load_cell img y x \/
              (load_cell img' y x = Done (Px value) /\ where_ x y).

(** [(x, y)] lies on the outline of the box spanned by the corners [tl] and
    [br], both corners included. *)
Definition on_outline (tl br : Point) (x y : Z) : Prop :=
  between (getX tl) (getX br) x /\ between (getY tl) (getY br) y /\
  (x = getX tl \/ x = getX br \/ y = getY tl \/ y = getY br).

(** ** Checking [double] computations on ranges of integers *)

(** [static_cast<int>(f)] is defined and equal to [z]. *)
Definition cast_is (f : double) (z : Z) : bool :=
  match double_to_int f with
  | Done v => v =? z
  | _ => false
  end.

(** [p] holds for the [n] integers from [lo] on. *)
Definition all_from (lo n : Z) (p : Z -> bool) : bool :=
  forallb p (seqZ lo n).

(** The sum of the two inner loops of [Convolution::process] when every tap
    of [kernel] reads the pixel value [v]: the products are added row by
    row, each one rounded before it is added. *)
Definition flat_sum (kernel : list (list double)) (v : Z) : double :=
  fold_left (fun sum k => PrimFloat.add sum (PrimFloat.mul (double_of_int v) k))
            (concat kernel) 0%float.

(** The pixel [Convolution::process] stores for the sum [sum] and the
    identity scaling function. *)
Definition stored_pixel (sum : double) : outcome cell :=
  v ← double_to_int sum; Done (Px (to_uchar (Z.min 255 (Z.max 0 v)))).

(** [stored_pixel sum] is a pixel value between [lo] and [hi]. *)
Definition stores (sum : double) (lo hi : Z) : bool :=
  match stored_pixel sum with
  | Done (Px m) => (lo <=? m) && (m <=? hi)
  | _ => false
  end.

(** The responses of the five kernels of the menu to a neighbourhood that is
    flat at [v]. *)
Definition menu_flat_check (v : Z) : bool :=
  match menu_kernel 1, menu_kernel 2, menu_kernel 3, menu_kernel 4,
        menu_kernel 5 with
  | Some identity, Some mean, Some gauss, Some sobel_h, Some sobel_v =>
      stores (flat_sum identity v) v v
      && stores (flat_sum mean v) (v - 1) v
      && stores (flat_sum gauss v) v v
      && stores (flat_sum sobel_h v) 0 0
      && stores (flat_sum sobel_v v) 0 0
  | _, _, _, _, _ => false
  end.

(** ** Concrete images used in the examples *)

Definition image_of_rows (w h : Z) (rows : list (list cell)) : Image :=
  {| m_data := Some rows; m_width := w; m_height := h; m_isGrayscale := true |}.

Definition black_3x1 : Image := image_of_rows 3 1 [[Px 0; Px 0; Px 0]].
Definition black_3x3 : Image :=
  image_of_rows 3 3 [[Px 0; Px 0; Px 0]; [Px 0; Px 0; Px 0]; [Px 0; Px 0; Px 0]].
Definition sample_2x2 : Image :=
  image_of_rows 2 2 [[Px 1; Px 10]; [Px 32; Px 255]].
Definition sample_1x2 : Image := image_of_rows 1 2 [[Px 7]; [Px 9]].
Definition gray200_2x2 : Image :=
  image_of_rows 2 2 [[Px 200; Px 200]; [Px 200; Px 200]].

(** An image of one row of [w] pixels, all of value 7. *)
Definition wide_row (w : Z) : Image :=
  image_of_rows w 1 [replicate (Z.to_nat w) (Px 7)].

(** * Properties *)

(** ** The outcome monad and loops *)

Lemma bind_Done {A B} (f : A -> outcome B) (a : A) : mbind f (Done a) = f a.
Proof. reflexivity. Qed.

Lemma bind_Done_inv {A B} (f : A -> outcome B) (m : outcome A) (b : B) :
  mbind f m = Done b -> exists a, m = Done a /\ f a = Done b.
Proof. destruct m; simpl; intros H; try discriminate. eauto. Qed.

Lemma for_loop_ext {St} (body1 body2 : Z -> St -> outcome St) n i s :
  (forall j s, body1 j s = body2 j s) ->
  for_loop n i body1 s = for_loop n i body2 s.
Proof.
  intros Hext. revert i s.
  induction n as [|n IH]; intros i s; simpl; [reflexivity|].
  rewrite Hext. destruct (body2 i s); simpl; auto.
Qed.

Lemma for_loop_inv {St} (P : Z -> St -> Prop) body n i (s : St) :
  P i s ->
  (forall j s, i <= j < i + Z.of_nat n -> P j s ->
     exists s', body j s = Done s' /\ P (j + 1) s') ->
  exists s', for_loop n i body s = Done s' /\ P (i + Z.of_nat n) s'.
Proof.
  revert i s. induction n as [|n IH]; intros i s HP Hstep.
  - exists s. simpl. split; [reflexivity|].
    replace (i + Z.of_nat 0) with i by lia. exact HP.
  - destruct (Hstep i s) as (s1 & Hb & HP1); [lia | exact HP |].
    destruct (IH (i + 1) s1 HP1) as (s2 & Hl & HP2).
    { intros j s' Hj. apply Hstep. lia. }
    exists s2. simpl. rewrite Hb. simpl. split; [exact Hl|].
    replace (i + Z.of_nat (S n)) with (i + 1 + Z.of_nat n) by lia. exact HP2.
Qed.

Lemma for_upto_inv {St} (P : Z -> St -> Prop) body hi (s : St) :
  0 <= hi ->
  P 0 s ->
  (forall j s, 0 <= j < hi -> P j s ->
     exists s', body j s = Done s' /\ P (j + 1) s') ->
  exists s', for_upto hi body s = Done s' /\ P hi s'.
Proof.
  intros Hhi HP Hstep. unfold for_upto.
  destruct (for_loop_inv P body (Z.to_nat hi) 0 s HP) as (s' & Hl & HP').
  { intros j s0 Hj. apply Hstep. lia. }
  exists s'. split; [exact Hl|].
  replace hi with (0 + Z.of_nat (Z.to_nat hi)) by lia. exact HP'.
Qed.

(** ** Reading and writing the buffer *)

Lemma load_cell_in_grid img h w y x :
  grid img h w -> 0 <= y < h -> 0 <= x < w ->
  exists c, load_cell img y x = Done c.
Proof.
  intros (rows & Hd & Hlen & Hall) Hy Hx. unfold load_cell. rewrite Hd.
  destruct (y <? 0) eqn:E1; [lia|]. destruct (x <? 0) eqn:E2; [lia|]. simpl.
  destruct (lookup_lt_is_Some_2 rows (Z.to_nat y)) as [r Hr]; [lia|].
  rewrite Hr.
  assert (Hlr : length r = Z.to_nat w).
  { eapply (proj1 (Forall_lookup _ _) Hall); eauto. }
  destruct (lookup_lt_is_Some_2 r (Z.to_nat x)) as [c Hc]; [lia|].
  rewrite Hc. eauto.
Qed.

Lemma store_cell_spec img h w y x c :
  grid img h w -> 0 <= y < h -> 0 <= x < w ->
  exists img', store_cell img y x c = Done img' /\
    grid img' h w /\
    m_width img' = m_width img /\ m_height img' = m_height img /\
    m_isGrayscale img' = m_isGrayscale img /\
    load_cell img' y x = Done c /\
    forall y' x', (y', x') <> (y, x) -> load_cell img' y' x' = load_cell img y' x'.
Proof.
  intros (rows & Hd & Hlen & Hall) Hy Hx. unfold store_cell. rewrite Hd.
  destruct (y <? 0) eqn:E1; [lia|]. destruct (x <? 0) eqn:E2; [lia|]. simpl.
  destruct (lookup_lt_is_Some_2 rows (Z.to_nat y)) as [r Hr]; [lia|].
  rewrite Hr.
  assert (Hlr : length r = Z.to_nat w).
  { eapply (proj1 (Forall_lookup _ _) Hall); eauto. }
  destruct (Nat.ltb_spec (Z.to_nat x) (length r)) as [Hlt|Hge]; [|lia].
  eexists. split; [reflexivity|].
  assert (Hyl : (Z.to_nat y < length rows)%nat) by lia.
  split; [|split; [reflexivity|split; [reflexivity|split; [reflexivity|split]]]].
  - eexists. split; [reflexivity|]. split.
    + rewrite length_insert. exact Hlen.
    + apply Forall_insert; [exact Hall|]. rewrite length_insert. exact Hlr.
  - unfold load_cell. simpl. rewrite E1, E2. simpl.
    rewrite list_lookup_insert_eq by exact Hyl.
    rewrite list_lookup_insert_eq by exact Hlt. reflexivity.
  - intros y' x' Hne. unfold load_cell. simpl. rewrite Hd.
    destruct (y' <? 0) eqn:E3; [reflexivity|].
    destruct (x' <? 0) eqn:E4; [reflexivity|]. simpl.
    destruct (decide (Z.to_nat y' = Z.to_nat y)) as [Heq|Hney].
    + rewrite Heq. rewrite list_lookup_insert_eq by exact Hyl. rewrite Hr.
      rewrite list_lookup_insert_ne; [reflexivity|].
      intros Hxx. apply Hne. f_equal; lia.
    + rewrite list_lookup_insert_ne by congruence. reflexivity.
Qed.

Lemma grid_ext a b h w :
  grid a h w -> grid b h w -> 0 <= h -> 0 <= w ->
  (forall y x, 0 <= y < h -> 0 <= x < w -> load_cell a y x = load_cell b y x) ->
  m_data a = m_data b.
Proof.
  intros (ra & Ha & Hla & Halla) (rb & Hb & Hlb & Hallb) Hh Hw Hext.
  rewrite Ha, Hb. f_equal.
  apply list_eq_same_length with (n := Z.to_nat h); [exact Hlb | exact Hla |].
  intros i r1 r2 Hi H1 H2.
  assert (Hl1 : length r1 = Z.to_nat w)
    by (eapply (proj1 (Forall_lookup _ _) Halla); eauto).
  assert (Hl2 : length r2 = Z.to_nat w)
    by (eapply (proj1 (Forall_lookup _ _) Hallb); eauto).
  apply list_eq_same_length with (n := Z.to_nat w); [exact Hl2 | exact Hl1 |].
  intros j c1 c2 Hj Hc1 Hc2.
  specialize (Hext (Z.of_nat i) (Z.of_nat j)).
  unfold load_cell in Hext. rewrite Ha, Hb in Hext.
  destruct (Z.of_nat i <? 0) eqn:E1; [lia|].
  destruct (Z.of_nat j <? 0) eqn:E2; [lia|]. simpl in Hext.
  rewrite !Nat2Z.id in Hext. rewrite H1, H2, Hc1, Hc2 in Hext.
  assert (Done c1 = Done c2) as Heq by (apply Hext; lia).
  congruence.
Qed.

(** ** The pixel loop *)

Lemma pixel_loop_spec h w rhs (f : Z -> Z -> cell) img :
  grid img h w -> 0 <= h -> 0 <= w ->
  (forall y x, 0 <= y < h -> 0 <= x < w -> rhs y x = Done (f y x)) ->
  exists img', pixel_loop h w rhs img = Done img' /\
    grid img' h w /\ same_header img' img /\
    forall y x, 0 <= y < h -> 0 <= x < w -> load_cell img' y x = Done (f y x).
Proof.
  intros Hg Hh Hw Hrhs. unfold pixel_loop.
  pose (P := fun (y : Z) (im : Image) =>
    grid im h w /\ same_header im img /\
    forall y' x', 0 <= y' < y -> 0 <= x' < w ->
      load_cell im y' x' = Done (f y' x')).
  destruct (for_upto_inv P
    (fun y im => for_upto w (fun x im => c ← rhs y x; store_cell im y x c) im)
    h img Hh) as (img' & Hrun & Hg' & Hh' & Hpx).
  - split; [exact Hg|]. split; [repeat split|]. intros; lia.
  - intros y im Hy (Hgi & Hhi & Hdone).
    pose (Q := fun (x : Z) (im' : Image) =>
      grid im' h w /\ same_header im' img /\
      (forall y' x', 0 <= y' < y -> 0 <= x' < w ->
         load_cell im' y' x' = Done (f y' x')) /\
      (forall x', 0 <= x' < x -> load_cell im' y x' = Done (f y x'))).
    destruct (for_upto_inv Q
      (fun x im => c ← rhs y x; store_cell im y x c) w im Hw)
      as (im' & Hrun & Hg' & Hh' & Hold & Hrow).
    + split; [exact Hgi|]. split; [exact Hhi|]. split; [exact Hdone|].
      intros; lia.
    + intros x im1 Hx (Hg1 & Hh1 & Hold1 & Hrow1).
      rewrite (Hrhs y x Hy Hx). simpl.
      destruct (store_cell_spec im1 h w y x (f y x) Hg1 Hy Hx)
        as (im2 & Hst & Hg2 & Hw2 & Hh2 & Hgr2 & Hhit & Hmiss).
      exists im2. split; [exact Hst|]. split; [exact Hg2|]. split.
      { destruct Hh1 as (? & ? & ?). repeat split; congruence. }
      split.
      * intros y' x' Hy' Hx'. rewrite Hmiss; [auto|].
        intros Heq. inversion Heq. lia.
      * intros x' Hx'. destruct (decide (x' = x)) as [->|Hne]; [exact Hhit|].
        rewrite Hmiss; [apply Hrow1; lia|].
        intros Heq. inversion Heq. contradiction.
    + exists im'. split; [exact Hrun|]. split; [exact Hg'|].
      split; [exact Hh'|].
      intros y' x' Hy' Hx'. destruct (decide (y' = y)) as [->|Hne].
      * apply Hrow. exact Hx'.
      * apply Hold; [lia | exact Hx'].
  - exists img'. split; [exact Hrun|]. split; [exact Hg'|].
    split; [exact Hh'|]. exact Hpx.
Qed.

(** Two right-hand sides that agree everywhere give the same loop, whatever
    its outcome. *)
Lemma pixel_loop_ext h w rhs1 rhs2 img :
  (forall y x, rhs1 y x = rhs2 y x) ->
  pixel_loop h w rhs1 img = pixel_loop h w rhs2 img.
Proof.
  intros Hext. unfold pixel_loop, for_upto.
  apply for_loop_ext. intros y im. apply for_loop_ext. intros x im'.
  rewrite Hext. reflexivity.
Qed.

(** ** Construction and assignment *)

Lemma shape_replicate h w c :
  shape (replicate (Z.to_nat h) (replicate (Z.to_nat w) c)) h w.
Proof.
  split; [apply length_replicate|].
  apply Forall_replicate. apply length_replicate.
Qed.

Lemma Image_wh_grid w h : grid (Image_wh w h) h w.
Proof. eexists. split; [reflexivity|]. apply shape_replicate. Qed.

Lemma Image_wh_wf w h : uint_range w -> uint_range h -> wf_image (Image_wh w h).
Proof.
  intros Hw Hh. constructor; simpl; [exact Hw | exact Hh |].
  apply shape_replicate.
Qed.

Lemma wf_grid img :
  wf_image img -> m_data img <> None -> grid img (m_height img) (m_width img).
Proof.
  intros [_ _ Hd] Hn. destruct (m_data img) as [rows|] eqn:E; [|congruence].
  exists rows. split; [exact E | exact Hd].
Qed.

Lemma deallocateMemory_wf img :
  wf_image img -> deallocateMemory img = Done (set_data img None).
Proof.
  intros [_ _ Hd]. unfold deallocateMemory.
  destruct (m_data img) as [rows|] eqn:E.
  - destruct Hd as [Hlen _]. rewrite Hlen, Nat.leb_refl. reflexivity.
  - destruct img; simpl in *; subst; reflexivity.
Qed.

(** [this = Image(w, h)]: the old buffer is released and [this] receives a
    fresh [h] by [w] buffer; nothing of the old content remains. *)
Lemma assign_fresh this w h :
  wf_image this -> uint_range w -> uint_range h ->
  operator_assign this (Image_wh w h) = Done (Image_wh w h).
Proof.
  intros Hwf Hw Hh. unfold operator_assign.
  rewrite (deallocateMemory_wf this Hwf). simpl. unfold copyFrom. simpl.
  destruct (pixel_loop_spec h w (fun i j => load_cell (Image_wh w h) i j)
              (fun _ _ => Indet) (Image_wh w h))
    as (img' & Hrun & Hg & (Hw' & Hh' & Hgr') & Hpx).
  - apply Image_wh_grid.
  - apply Hh.
  - apply Hw.
  - intros y x Hy Hx. unfold load_cell, Image_wh. simpl.
    destruct (y <? 0) eqn:E1; [lia|]. destruct (x <? 0) eqn:E2; [lia|]. simpl.
    rewrite lookup_replicate_2 by lia. rewrite lookup_replicate_2 by lia.
    reflexivity.
  - change (allocateMemory _) with (Image_wh w h). rewrite Hrun. f_equal.
    assert (Hd : m_data img' = m_data (Image_wh w h)).
    { apply grid_ext with (h := h) (w := w);
        [exact Hg | apply Image_wh_grid | apply Hh | apply Hw |].
      intros y x Hy Hx. rewrite (Hpx y x Hy Hx).
      unfold load_cell, Image_wh. simpl.
      destruct (y <? 0) eqn:E1; [lia|]. destruct (x <? 0) eqn:E2; [lia|]. simpl.
      rewrite lookup_replicate_2 by lia. rewrite lookup_replicate_2 by lia.
      reflexivity. }
    destruct img'; simpl in *. unfold Image_wh, allocateMemory, set_data in *.
    simpl in *. congruence.
Qed.

Lemma wf_load img y x :
  wf_image img -> 0 <= y < m_height img -> 0 <= x < m_width img ->
  exists c, load_cell img y x = Done c.
Proof.
  intros Hwf Hy Hx. destruct (m_data img) as [rows|] eqn:E.
  - apply load_cell_in_grid with (h := m_height img) (w := m_width img);
      [apply wf_grid; [exact Hwf | congruence] | exact Hy | exact Hx].
  - destruct Hwf as [_ _ Hd]. rewrite E in Hd. lia.
Qed.

Lemma wf_load_px img y x :
  wf_image img -> initialized img ->
  0 <= y < m_height img -> 0 <= x < m_width img ->
  exists v, load_cell img y x = Done (Px v) /\ load_px img y x = Done v /\
            uchar_range v.
Proof.
  intros Hwf Hinit Hy Hx.
  destruct (wf_load img y x Hwf Hy Hx) as (c & Hc).
  destruct (Hinit y x c Hc) as (v & -> & Hv).
  exists v. unfold load_px. rewrite Hc. auto.
Qed.

Lemma load_px_cases img y x :
  load_px img y x = Undefined \/ exists v, load_px img y x = Done v.
Proof.
  unfold load_px, load_cell.
  destruct (m_data img) as [rows|]; [|auto].
  destruct ((y <? 0) || (x <? 0)); [auto|].
  destruct (rows !! Z.to_nat y) as [r|]; [|auto].
  destruct (r !! Z.to_nat x) as [[|v]|]; simpl; eauto.
Qed.

Lemma to_uchar_id v : uchar_range v -> to_uchar v = v.
Proof. intros Hv. unfold to_uchar. apply Z.mod_small. unfold uchar_range in Hv. lia. Qed.

(** ** Pixelwise arithmetic *)

Lemma mismatch_test (a b : Image) :
  m_width a <> m_width b \/ m_height a <> m_height b ->
  negb (m_width a =? m_width b) || negb (m_height a =? m_height b) = true.
Proof.
  intros [H|H]; apply orb_true_iff; [left|right];
    apply negb_true_iff, Z.eqb_neq; exact H.
Qed.

Lemma operator_plus_mismatch (a b : Image) :
  m_width a <> m_width b \/ m_height a <> m_height b ->
  operator_plus a b = Done Image_default.
Proof.
  intros Hne. unfold operator_plus. rewrite (mismatch_test a b Hne).
  reflexivity.
Qed.

Lemma operator_minus_mismatch (a b : Image) :
  m_width a <> m_width b \/ m_height a <> m_height b ->
  operator_minus a b = Done Image_default.
Proof.
  intros Hne. unfold operator_minus. rewrite (mismatch_test a b Hne).
  reflexivity.
Qed.

(** C5. Adding or subtracting two images whose widths or heights differ returns
    the default-constructed image, for which [isEmpty] is true; the call
    completes normally. *)
Theorem C5_dimension_mismatch (a b : Image) :
  m_width a <> m_width b \/ m_height a <> m_height b ->
  operator_plus a b = Done Image_default /\
  operator_minus a b = Done Image_default /\
  isEmpty Image_default = true.
Proof.
  intros Hne. split; [apply operator_plus_mismatch; exact Hne|].
  split; [apply operator_minus_mismatch; exact Hne | reflexivity].
Qed.

Lemma C5_dimension_mismatch_witness :
  operator_plus sample_2x2 sample_1x2 = Done Image_default /\
  operator_minus sample_2x2 sample_1x2 = Done Image_default /\
  isEmpty Image_default = true.
Proof. apply C5_dimension_mismatch. left. simpl. lia. Defined.

(** C7. On an image all of whose pixels are [v], adding the byte [c] gives an
    image of the same dimensions whose pixels are all [min(255, v + c)], and
    subtracting [c] one whose pixels are all [max(0, v - c)]. *)
Theorem C7_scalar_saturation (img : Image) (v c : Z) :
  wf_image img -> constant_image img v -> uchar_range v -> uchar_range c ->
  (exists r, operator_plus_scalar img c = Done r /\
     m_width r = m_width img /\ m_height r = m_height img /\
     constant_image r (Z.min 255 (v + c))) /\
  (exists r, operator_minus_scalar img c = Done r /\
     m_width r = m_width img /\ m_height r = m_height img /\
     constant_image r (Z.max 0 (v - c))).
Proof.
  intros Hwf Hconst Hv Hc. unfold uchar_range in *.
  destruct Hwf as [Hw Hh _]. unfold uint_range in *.
  split.
  - destruct (pixel_loop_spec (m_height img) (m_width img)
      (fun y x => a ← load_px img y x; Done (Px (to_uchar (Z.min 255 (a + c)))))
      (fun _ _ => Px (Z.min 255 (v + c)))
      (Image_wh (m_width img) (m_height img)))
      as (r & Hrun & _ & (Hw' & Hh' & _) & Hpx);
      [apply Image_wh_grid | lia | lia | |].
    + intros y x Hy Hx. unfold load_px. rewrite (Hconst y x Hy Hx). simpl.
      rewrite to_uchar_id by (unfold uchar_range; lia). reflexivity.
    + exists r. split; [exact Hrun|]. simpl in Hw', Hh'.
      split; [exact Hw'|]. split; [exact Hh'|].
      unfold constant_image. rewrite Hw', Hh'. exact Hpx.
  - destruct (pixel_loop_spec (m_height img) (m_width img)
      (fun y x => a ← load_px img y x; Done (Px (to_uchar (Z.max 0 (a - c)))))
      (fun _ _ => Px (Z.max 0 (v - c)))
      (Image_wh (m_width img) (m_height img)))
      as (r & Hrun & _ & (Hw' & Hh' & _) & Hpx);
      [apply Image_wh_grid | lia | lia | |].
    + intros y x Hy Hx. unfold load_px. rewrite (Hconst y x Hy Hx). simpl.
      rewrite to_uchar_id by (unfold uchar_range; lia). reflexivity.
    + exists r. split; [exact Hrun|]. simpl in Hw', Hh'.
      split; [exact Hw'|]. split; [exact Hh'|].
      unfold constant_image. rewrite Hw', Hh'. exact Hpx.
Qed.

(** The class invariant of an image given by its rows. *)
Lemma image_of_rows_wf w h rows :
  uint_range w -> uint_range h ->
  length rows = Z.to_nat h ->
  forallb (fun r => Nat.eqb (length r) (Z.to_nat w)) rows = true ->
  wf_image (image_of_rows w h rows).
Proof.
  intros Hw Hh Hlen Hall. constructor; simpl; [exact Hw | exact Hh |].
  split; [exact Hlen|].
  apply Forall_forall. intros r Hr.
  rewrite forallb_forall in Hall. apply Nat.eqb_eq. apply Hall.
  apply list_elem_of_In. exact Hr.
Qed.

Ltac solve_wf :=
  apply image_of_rows_wf;
  [ unfold uint_range, UINT_MAX; lia | unfold uint_range, UINT_MAX; lia
  | reflexivity | reflexivity ].

Lemma gray200_constant : constant_image gray200_2x2 200.
Proof.
  intros y x Hy Hx. simpl in Hy, Hx.
  assert (Hy' : y = 0 \/ y = 1) by lia. assert (Hx' : x = 0 \/ x = 1) by lia.
  destruct Hy' as [-> | ->], Hx' as [-> | ->]; reflexivity.
Qed.

Lemma C7_scalar_saturation_witness :
  (exists r, operator_plus_scalar
               gray200_2x2 100 = Done r /\
     m_width r = 2 /\ m_height r = 2 /\
     constant_image r (Z.min 255 (200 + 100))) /\
  (exists r, operator_minus_scalar
               gray200_2x2 100 = Done r /\
     m_width r = 2 /\ m_height r = 2 /\
     constant_image r (Z.max 0 (200 - 100))).
Proof.
  apply (C7_scalar_saturation gray200_2x2 200 100).
  - solve_wf.
  - exact gray200_constant.
  - unfold uchar_range; lia.
  - unfold uchar_range; lia.
Defined.

Lemma plus_rhs_comm a b y x :
  (va ← load_px a y x; vb ← load_px b y x;
     Done (Px (to_uchar (Z.min 255 (va + vb)))))
  = (vb ← load_px b y x; va ← load_px a y x;
       Done (Px (to_uchar (Z.min 255 (vb + va))))).
Proof.
  destruct (load_px_cases a y x) as [Ha | (va & Ha)],
           (load_px_cases b y x) as [Hb | (vb & Hb)];
    rewrite Ha, Hb; simpl; try reflexivity.
  rewrite Z.add_comm. reflexivity.
Qed.

(** C10. Image addition is commutative: [a + b] and [b + a] have the same
    outcome for every two images.  When the dimensions differ both are the
    default-constructed (empty) image; when they agree both are the image
    of those dimensions whose pixel at [p] is [min(255, a[p] + b[p])]. *)
Theorem C10_plus_commutative (a b : Image) :
  operator_plus a b = operator_plus b a /\
  (m_width a <> m_width b \/ m_height a <> m_height b ->
     operator_plus a b = Done Image_default /\
     operator_plus b a = Done Image_default) /\
  (wf_image a -> wf_image b -> initialized a -> initialized b ->
   m_width a = m_width b -> m_height a = m_height b ->
   exists r, operator_plus a b = Done r /\ operator_plus b a = Done r /\
     m_width r = m_width a /\ m_height r = m_height a /\
     forall y x, 0 <= y < m_height a -> 0 <= x < m_width a ->
       exists va vb, load_cell a y x = Done (Px va) /\
                     load_cell b y x = Done (Px vb) /\
                     load_cell r y x = Done (Px (Z.min 255 (va + vb)))).
Proof.
  assert (Hcomm : operator_plus a b = operator_plus b a).
  { unfold operator_plus.
    rewrite (Z.eqb_sym (m_width b)), (Z.eqb_sym (m_height b)).
    destruct (Z.eqb_spec (m_width a) (m_width b)) as [Hw|Hw];
      [|reflexivity].
    destruct (Z.eqb_spec (m_height a) (m_height b)) as [Hh|Hh];
      [|reflexivity].
    simpl. rewrite <- Hw, <- Hh. apply pixel_loop_ext.
    intros y x. apply plus_rhs_comm. }
  split; [exact Hcomm|]. split.
  - intros Hne. rewrite <- Hcomm.
    split; apply operator_plus_mismatch; exact Hne.
  - intros Hwa Hwb Hia Hib Hw Hh. rewrite <- Hcomm.
    pose (f := fun y x =>
      match load_px a y x, load_px b y x with
      | Done va, Done vb => Px (Z.min 255 (va + vb))
      | _, _ => Indet
      end).
    destruct (pixel_loop_spec (m_height a) (m_width a)
      (fun y x => va ← load_px a y x; vb ← load_px b y x;
                  Done (Px (to_uchar (Z.min 255 (va + vb)))))
      f (Image_wh (m_width a) (m_height a)))
      as (r & Hrun & _ & (Hw' & Hh' & _) & Hpx);
      [apply Image_wh_grid | apply Hwa | apply Hwa | |].
    + intros y x Hy Hx.
      destruct (wf_load_px a y x Hwa Hia Hy Hx) as (va & _ & Ha & Hva).
      destruct (wf_load_px b y x Hwb Hib) as (vb & _ & Hb & Hvb);
        [lia | lia |].
      unfold f. rewrite Ha, Hb. simpl.
      rewrite to_uchar_id by (unfold uchar_range in *; lia). reflexivity.
    + exists r. unfold operator_plus.
      rewrite Hw, Hh, !Z.eqb_refl. simpl. rewrite <- Hw, <- Hh.
      split; [exact Hrun|]. split; [exact Hrun|].
      split; [exact Hw'|]. split; [exact Hh'|].
      intros y x Hy Hx.
      destruct (wf_load_px a y x Hwa Hia Hy Hx) as (va & Hca & Ha & Hva).
      destruct (wf_load_px b y x Hwb Hib) as (vb & Hcb & Hb & Hvb);
        [lia | lia |].
      exists va, vb. split; [exact Hca|]. split; [exact Hcb|].
      rewrite (Hpx y x Hy Hx). unfold f. rewrite Ha, Hb. reflexivity.
Qed.

(** ** Region of interest *)

Lemma to_unsigned_small z : uint_range z -> to_unsigned z = z.
Proof.
  unfold uint_range, UINT_MAX, to_unsigned. intros H.
  apply Z.mod_small. lia.
Qed.



Lemma sample_2x2_wf : wf_image sample_2x2.
Proof. solve_wf. Qed.

Lemma Image_default_wf : wf_image Image_default.
Proof.
  constructor; simpl; unfold uint_range, UINT_MAX; lia.
Qed.


(** ** Signed arithmetic and single writes *)

Import Drawing.

Lemma int_in_range z : int_range z -> int_ z = Done z.
Proof.
  unfold int_range, int_. intros [H1 H2].
  destruct (Z.leb_spec INT_MIN z); [|lia].
  destruct (Z.leb_spec z INT_MAX); [|lia]. reflexivity.
Qed.

Lemma int_cases z :
  (int_range z /\ int_ z = Done z) \/ (~ int_range z /\ int_ z = Undefined).
Proof.
  unfold int_range, int_.
  destruct (Z.leb_spec INT_MIN z); destruct (Z.leb_spec z INT_MAX); simpl;
    first [ left; split; [lia | reflexivity] | right; split; [lia | reflexivity] ].
Qed.

Lemma store_cell_cases img y x c :
  store_cell img y x c = Undefined \/
  exists img', store_cell img y x c = Done img' /\ same_header img' img /\
               (wf_image img -> wf_image img').
Proof.
  unfold store_cell.
  destruct (m_data img) as [rows|] eqn:Hd; [|auto].
  destruct ((y <? 0) || (x <? 0)); [auto|].
  destruct (rows !! Z.to_nat y) as [r|] eqn:Hr; [|auto].
  destruct (Nat.ltb_spec (Z.to_nat x) (length r)); [|auto].
  right. eexists. split; [reflexivity|]. split; [repeat split|].
  intros [Hw Hh Hs]. rewrite Hd in Hs. destruct Hs as [Hlen Hall].
  constructor; simpl; [exact Hw | exact Hh |]. split.
  - rewrite length_insert. exact Hlen.
  - apply Forall_insert; [exact Hall|]. rewrite length_insert.
    eapply (proj1 (Forall_lookup _ _) Hall); eauto.
Qed.

Lemma wf_store img y x c :
  wf_image img -> 0 <= y < m_height img -> 0 <= x < m_width img ->
  exists img', store_cell img y x c = Done img' /\
    wf_image img' /\ same_header img' img /\
    load_cell img' y x = Done c /\
    forall y' x', (y', x') <> (y, x) -> load_cell img' y' x' = load_cell img y' x'.
Proof.
  intros Hwf Hy Hx.
  assert (Hg : grid img (m_height img) (m_width img)).
  { apply wf_grid; [exact Hwf|]. intros Hn. destruct Hwf as [_ _ Hd].
    rewrite Hn in Hd. lia. }
  destruct (store_cell_spec img _ _ y x c Hg Hy Hx)
    as (img' & Hst & Hg' & Hw' & Hh' & Hgr' & Hhit & Hmiss).
  exists img'. split; [exact Hst|].
  destruct (store_cell_cases img y x c) as [Hu | (img2 & Hst2 & _ & Hwf2)];
    [congruence|].
  assert (img2 = img') by congruence. subst img2.
  split; [auto|]. split; [repeat split; assumption|]. auto.
Qed.

(** ** The line rasteriser *)

(** Case analysis on the result of one signed operation. *)
Ltac int_op z H :=
  let Hr := fresh "Hr" in
  destruct (int_cases z) as [[Hr H]|[Hr H]]; rewrite H; simpl.

(** Linear arithmetic after unfolding the ranges of the machine types. *)
Ltac range_lia :=
  unfold int_range, uint_range, uchar_range, INT_MIN, INT_MAX, UINT_MAX in *;
  lia.

(** The guarded plot of [drawLine] fails only on an ill-formed image. *)
Lemma guarded_plot_cases img value x1 y1 :
  ((if (0 <=? x1) && (x1 <? width img) && (0 <=? y1) && (y1 <? height img)
    then at_set img (to_unsigned x1) (to_unsigned y1) value
    else Done img) = Undefined /\ ~ wf_image img)
  \/ exists img',
    (if (0 <=? x1) && (x1 <? width img) && (0 <=? y1) && (y1 <? height img)
     then at_set img (to_unsigned x1) (to_unsigned y1) value
     else Done img) = Done img' /\ (wf_image img -> wf_image img').
Proof.
  destruct ((0 <=? x1) && (x1 <? width img) && (0 <=? y1)
            && (y1 <? height img)) eqn:Hc; [|right; eauto].
  apply andb_true_iff in Hc as (Hc & Hc4).
  apply andb_true_iff in Hc as (Hc & Hc3).
  apply andb_true_iff in Hc as (Hc1 & Hc2).
  unfold width, height, at_set in *.
  destruct (store_cell_cases img (to_unsigned y1) (to_unsigned x1) (Px value))
    as [Hu | (img' & Hst & _ & Hwf')].
  - left. split; [exact Hu|]. intros Hwf.
    assert (Hw := wf_width img Hwf). assert (Hh := wf_height img Hwf).
    rewrite !to_unsigned_small in Hu by range_lia.
    destruct (wf_store img y1 x1 (Px value) Hwf) as (i2 & Hst2 & _);
      [lia | lia | congruence].
  - right. exists img'. split; [exact Hst | exact Hwf'].
Qed.

Section Bresenham.

(** The quantities [drawLine] fixes before the loop: the end point, the
    distances and the step signs. *)
Variables (value x2 y2 dx dy sx sy : Z).
Hypothesis Hsx : sx = 1 \/ sx = -1.
Hypothesis Hsy : sy = 1 \/ sy = -1.

Abbreviation inv := (line_inv x2 y2 dx dy sx sy).
Abbreviation small := (line_small x2 y2 dx dy sx sy).
Abbreviation body img x1 y1 err :=
  (line_body img value x1 y1 x2 y2 dx dy sx sy err).
Abbreviation loop fuel img x1 y1 err :=
  (line_loop fuel img value x1 y1 x2 y2 dx dy sx sy err).

(** One iteration from a state that satisfies the invariant: it overflows
    (only when the end points are far apart), or it leaves the loop at
    [(x2, y2)], or it moves at least one step closer and re-establishes the
    invariant. *)
Lemma line_body_spec img x1 y1 err a b :
  inv a b x1 y1 err ->
  (body img x1 y1 err = Undefined /\ ~ (wf_image img /\ small))
  \/ (a = 0 /\ b = 0 /\
      exists img', body img x1 y1 err = Done (img', None) /\
                   (wf_image img -> wf_image img'))
  \/ (exists img' x1' y1' err' a' b',
        body img x1 y1 err = Done (img', Some (x1', y1', err')) /\
        inv a' b' x1' y1' err' /\
        0 <= a' + b' < a + b /\
        (wf_image img -> wf_image img')).
Proof.
  intros (Ha & Hb & Hx1 & Hy1 & Herr & Hbnd).
  unfold line_body.
  destruct (guarded_plot_cases img value x1 y1)
    as [[Hu Hnwf] | (img' & Hst & Hwf')].
  { left. rewrite Hu. split; [reflexivity|]. tauto. }
  rewrite Hst. simpl.
  assert (HX : x1 = x2 <-> a = 0) by (destruct Hsx; subst sx; lia).
  assert (HY : y1 = y2 <-> b = 0) by (destruct Hsy; subst sy; lia).
  destruct ((x1 =? x2) && (y1 =? y2)) eqn:Hbrk.
  { right; left. apply andb_true_iff in Hbrk as (E1 & E2).
    apply Z.eqb_eq in E1, E2.
    split; [tauto|]. split; [tauto|]. eauto. }
  assert (Hnz : a + b >= 1).
  { apply andb_false_iff in Hbrk as [E|E]; apply Z.eqb_neq in E; lia. }
  (* the products, made linear *)
  assert (HA0 : a = 0 -> a * dy = 0) by (intros ->; ring).
  assert (HB0 : b = 0 -> b * dx = 0) by (intros ->; ring).
  assert (HA1 : a >= 1 -> a * dy >= dy) by nia.
  assert (HB1 : b >= 1 -> b * dx >= dx) by nia.
  assert (HAm : (a - 1) * dy = a * dy - dy) by ring.
  assert (HBm : (b - 1) * dx = b * dx - dx) by ring.
  assert (Hsxa : sx * (a - 1) = sx * a - sx) by ring.
  assert (Hsyb : sy * (b - 1) = sy * b - sy) by ring.
  assert (Hxr : small -> a >= 1 -> int_range (x1 + sx)).
  { intros (_ & _ & Hq2 & _ & Hq0 & _) Ha1. destruct Hsx; subst sx; range_lia. }
  assert (Hyr : small -> b >= 1 -> int_range (y1 + sy)).
  { intros (_ & _ & _ & Hq2 & _ & Hq0) Hb1. destruct Hsy; subst sy; range_lia. }
  assert (Hsm : small -> dx <= 715827882 /\ dy <= 715827882)
    by (intros (Hs1 & Hs2 & _); auto).
  set (A := a * dy) in *. set (B := b * dx) in *.
  unfold imul, ineg, isub, iadd.
  int_op (2 * err) He2.
  2:{ left. split; [reflexivity|]. intros (_ & Hs). apply Hsm in Hs.
      range_lia. }
  int_op (- dy) Hndy.
  2:{ left. split; [reflexivity|]. intros (_ & Hs). apply Hsm in Hs.
      range_lia. }
  destruct (Z.gtb_spec (2 * err) (- dy)) as [Hxs|Hxs]; simpl.
  - (* a step in x *)
    assert (Ha1 : a >= 1) by lia.
    int_op (err - dy) He1.
    2:{ left. split; [reflexivity|]. intros (_ & Hs). apply Hsm in Hs.
        range_lia. }
    int_op (x1 + sx) Hx1'.
    2:{ left. split; [reflexivity|]. intros (_ & Hs). tauto. }
    destruct (Z.ltb_spec (2 * err) dx) as [Hys|Hys]; simpl.
    + (* and a step in y *)
      assert (Hb1 : b >= 1) by lia.
      int_op (err - dy + dx) He3.
      2:{ left. split; [reflexivity|]. intros (_ & Hs). apply Hsm in Hs.
          range_lia. }
      int_op (y1 + sy) Hy1'.
      2:{ left. split; [reflexivity|]. intros (_ & Hs). tauto. }
      right; right. exists img', (x1 + sx), (y1 + sy), (err - dy + dx),
        (a - 1), (b - 1).
      split; [reflexivity|]. split; [|split; [lia | exact Hwf']].
      unfold line_inv. rewrite HAm, HBm, Hsxa, Hsyb. fold A B.
      repeat split; lia.
    + right; right. exists img', (x1 + sx), y1, (err - dy), (a - 1), b.
      split; [reflexivity|]. split; [|split; [lia | exact Hwf']].
      unfold line_inv. rewrite HAm, Hsxa. fold A B.
      repeat split; lia.
  - destruct (Z.ltb_spec (2 * err) dx) as [Hys|Hys]; simpl.
    + (* a step in y only *)
      assert (Hb1 : b >= 1) by lia.
      int_op (err + dx) He3.
      2:{ left. split; [reflexivity|]. intros (_ & Hs). apply Hsm in Hs.
          range_lia. }
      int_op (y1 + sy) Hy1'.
      2:{ left. split; [reflexivity|]. intros (_ & Hs). tauto. }
      right; right. exists img', x1, (y1 + sy), (err + dx), a, (b - 1).
      split; [reflexivity|]. split; [|split; [lia | exact Hwf']].
      unfold line_inv. rewrite HBm, Hsyb. fold A B.
      repeat split; lia.
    + (* no step at all: only at the end point *)
      exfalso. lia.
Qed.

(** With more fuel than steps remain, the loop completes or overflows. *)
Lemma line_loop_spec fuel : forall img x1 y1 err a b,
  inv a b x1 y1 err ->
  (Z.to_nat (a + b) < fuel)%nat ->
  (loop fuel img x1 y1 err = Undefined /\ ~ (wf_image img /\ small))
  \/ exists img', loop fuel img x1 y1 err = Done img' /\
                  (wf_image img -> wf_image img').
Proof.
  induction fuel as [|fuel IH]; intros img x1 y1 err a b Hinv Hfuel; [lia|].
  simpl.
  destruct (line_body_spec img x1 y1 err a b Hinv)
    as [(Hu & Hn) | [(_ & _ & img' & Hb & Hwf')
                    | (img' & x1' & y1' & err' & a' & b' & Hb & Hinv' & Hm & Hwf')]].
  - left. rewrite Hu. split; [reflexivity | exact Hn].
  - right. rewrite Hb. simpl. eauto.
  - rewrite Hb. simpl.
    destruct (IH img' x1' y1' err' a' b' Hinv')
      as [(Hu & Hn) | (img'' & Hd & Hwf'')]; [lia | |].
    + left. split; [exact Hu | tauto].
    + right. exists img''. split; [exact Hd | tauto].
Qed.

End Bresenham.

(** C9 (as amended). For endpoints with [|x2 - x1|] and [|y2 - y1|] at most
    715827882 (a third of [INT_MAX]), [drawLine] terminates: the loop leaves by
    [break] at [p2] after at most [|x2 - x1| + |y2 - y1| + 1] iterations.  For
    endpoints further apart that many iterations still suffice unless a signed
    operation of the execution has a result that is not an [int]. *)
Theorem C9_drawLine_terminates (fuel : nat) (img : Image) (p1 p2 : Point)
    (value : Z) :
  int_range (getX p1) -> int_range (getY p1) ->
  int_range (getX p2) -> int_range (getY p2) ->
  (Z.to_nat (Z.abs (getX p2 - getX p1) + Z.abs (getY p2 - getY p1)) < fuel)%nat ->
  drawLine fuel img p1 p2 value <> OutOfFuel /\
  (wf_image img ->
   Z.abs (getX p2 - getX p1) <= 715827882 ->
   Z.abs (getY p2 - getY p1) <= 715827882 ->
   exists img', drawLine fuel img p1 p2 value = Done img' /\ wf_image img').
Proof.
  intros Hx1 Hy1 Hx2 Hy2 Hfuel. unfold drawLine.
  set (x1 := getX p1) in *. set (y1 := getY p1) in *.
  set (x2 := getX p2) in *. set (y2 := getY p2) in *.
  unfold isub, iabs.
  destruct (int_cases (x2 - x1)) as [[Hr1 E1]|[Hr1 E1]]; rewrite E1; simpl.
  2:{ split; [discriminate|]. intros _ Hsmall1 Hsmall2.
      unfold int_range, INT_MIN, INT_MAX in *. lia. }
  destruct (int_cases (Z.abs (x2 - x1))) as [[Hr2 E2]|[Hr2 E2]];
    rewrite E2; simpl.
  2:{ split; [discriminate|]. intros _ Hsmall1 Hsmall2.
      unfold int_range, INT_MIN, INT_MAX in *. lia. }
  destruct (int_cases (y2 - y1)) as [[Hr3 E3]|[Hr3 E3]]; rewrite E3; simpl.
  2:{ split; [discriminate|]. intros _ Hsmall1 Hsmall2.
      unfold int_range, INT_MIN, INT_MAX in *. lia. }
  destruct (int_cases (Z.abs (y2 - y1))) as [[Hr4 E4]|[Hr4 E4]];
    rewrite E4; simpl.
  2:{ split; [discriminate|]. intros _ Hsmall1 Hsmall2.
      unfold int_range, INT_MIN, INT_MAX in *. lia. }
  destruct (int_cases (Z.abs (x2 - x1) - Z.abs (y2 - y1)))
    as [[Hr5 E5]|[Hr5 E5]]; rewrite E5; simpl.
  2:{ split; [discriminate|]. intros _ Hsmall1 Hsmall2.
      unfold int_range, INT_MIN, INT_MAX in *. lia. }
  set (dx := Z.abs (x2 - x1)) in *. set (dy := Z.abs (y2 - y1)) in *.
  set (sx := if x1 <? x2 then 1 else -1).
  set (sy := if y1 <? y2 then 1 else -1).
  assert (Hsx : sx = 1 \/ sx = -1) by (unfold sx; destruct (x1 <? x2); auto).
  assert (Hsy : sy = 1 \/ sy = -1) by (unfold sy; destruct (y1 <? y2); auto).
  assert (Hx0 : x1 = x2 - sx * dx).
  { unfold sx, dx. destruct (Z.ltb_spec x1 x2); lia. }
  assert (Hy0 : y1 = y2 - sy * dy).
  { unfold sy, dy. destruct (Z.ltb_spec y1 y2); lia. }
  assert (Hinv : line_inv x2 y2 dx dy sx sy dx dy x1 y1 (dx - dy)).
  { unfold line_inv. assert (0 <= dx) by (unfold dx; lia).
    assert (0 <= dy) by (unfold dy; lia).
    repeat split; try lia. }
  destruct (line_loop_spec value x2 y2 dx dy sx sy Hsx Hsy fuel img x1 y1
              (dx - dy) dx dy Hinv Hfuel)
    as [(Hu & Hn) | (img' & Hd & Hwf')].
  - rewrite Hu. split; [discriminate|]. intros Hwf Hsmall1 Hsmall2. exfalso.
    apply Hn. split; [exact Hwf|]. unfold line_small.
    rewrite <- Hx0, <- Hy0.
    split; [exact Hsmall1|]. split; [exact Hsmall2|]. auto.
  - rewrite Hd. split; [discriminate|]. intros Hwf _ _. eauto.
Qed.

(** C8. For a point [p] inside the image, [drawLine(img, p, p, value)] sets
    the pixel at [p] to [value] and leaves every other byte of the buffer, and
    the dimensions, as they were. *)
Theorem C8_degenerate_line (fuel : nat) (img : Image) (p : Point) (value : Z) :
  wf_image img ->
  0 <= getX p < m_width img -> 0 <= getY p < m_height img ->
  (0 < fuel)%nat ->
  exists img', drawLine fuel img p p value = Done img' /\
    wf_image img' /\ same_header img' img /\
    load_cell img' (getY p) (getX p) = Done (Px value) /\
    forall y x, (y, x) <> (getY p, getX p) ->
      load_cell img' y x = load_cell img y x.
Proof.
  intros Hwf Hx Hy Hfuel. destruct fuel as [|fuel]; [lia|].
  unfold drawLine, isub, iabs. rewrite !Z.sub_diag. simpl.
  unfold line_body.
  assert (Hc : (0 <=? getX p) && (getX p <? width img)
               && (0 <=? getY p) && (getY p <? height img) = true).
  { unfold width, height. repeat (apply andb_true_iff; split); lia. }
  rewrite Hc. unfold at_set.
  destruct Hwf as [Hw Hh Hd] eqn:Ewf. unfold uint_range in *.
  rewrite !to_unsigned_small by (unfold uint_range; lia).
  destruct (wf_store img (getY p) (getX p) (Px value) (mk_wf img Hw Hh Hd) Hy Hx)
    as (img' & Hst & Hwf' & Hhd & Hhit & Hmiss).
  rewrite Hst. simpl. rewrite !Z.eqb_refl. simpl.
  exists img'. auto.
Qed.

(** The claim as stated fails for the endpoints (0, 0) and (0, INT_MIN):
    [abs(y2 - y1)] is not an [int], and no number of iterations lets the call
    complete. *)
Lemma C9_drawLine_counterexample :
  (forall fuel,
     drawLine fuel black_3x3 (mkPoint 0 0) (mkPoint 0 (-2147483648)) 9
     = Undefined) /\
  ~ (exists fuel img',
       drawLine fuel black_3x3 (mkPoint 0 0) (mkPoint 0 (-2147483648)) 9
       = Done img').
Proof.
  assert (H : forall fuel,
    drawLine fuel black_3x3 (mkPoint 0 0) (mkPoint 0 (-2147483648)) 9
    = Undefined) by (intros fuel; reflexivity).
  split; [exact H|]. intros (fuel & img' & Hd). rewrite H in Hd. discriminate.
Qed.

Lemma black_3x3_wf : wf_image black_3x3.
Proof. solve_wf. Qed.

Lemma C9_drawLine_terminates_witness :
  drawLine 4 black_3x3 (mkPoint 0 0) (mkPoint 2 1) 9 <> OutOfFuel /\
  (wf_image black_3x3 ->
   Z.abs (2 - 0) <= 715827882 -> Z.abs (1 - 0) <= 715827882 ->
   exists img', drawLine 4 black_3x3 (mkPoint 0 0) (mkPoint 2 1) 9 = Done img'
                /\ wf_image img').
Proof.
  apply (C9_drawLine_terminates 4 black_3x3 (mkPoint 0 0) (mkPoint 2 1) 9);
    first [ unfold int_range, INT_MIN, INT_MAX; simpl; lia | simpl; lia ].
Defined.

Lemma C8_degenerate_line_witness :
  exists img', drawLine 1 black_3x3 (mkPoint 2 2) (mkPoint 2 2) 200 = Done img' /\
    wf_image img' /\ same_header img' black_3x3 /\
    load_cell img' 2 2 = Done (Px 200) /\
    forall y x, (y, x) <> (2, 2) ->
      load_cell img' y x = load_cell black_3x3 y x.
Proof.
  apply (C8_degenerate_line 1 black_3x3 (mkPoint 2 2) 200);
    first [ exact black_3x3_wf | simpl; lia ].
Defined.

(** ** The circle rasteriser *)

Lemma bind_fuel {A B} (m : outcome A) (f : A -> outcome B) :
  m <> OutOfFuel -> (forall a, m = Done a -> f a <> OutOfFuel) ->
  mbind f m <> OutOfFuel.
Proof. destruct m; simpl; intros H1 H2; [auto | discriminate | congruence]. Qed.

Lemma int_fuel z : int_ z <> OutOfFuel.
Proof. destruct (int_cases z) as [[_ E]|[_ E]]; rewrite E; discriminate. Qed.

Lemma store_cell_fuel img y x c : store_cell img y x c <> OutOfFuel.
Proof.
  destruct (store_cell_cases img y x c) as [E | (i & E & _)]; rewrite E;
    discriminate.
Qed.

Lemma plot_fuel img a b value :
  plot img (int_ a) (int_ b) value <> OutOfFuel.
Proof.
  unfold plot. apply bind_fuel; [apply int_fuel|]. intros px _.
  destruct ((0 <=? px) && (px <? width img)); [|discriminate].
  apply bind_fuel; [apply int_fuel|]. intros py _.
  destruct ((0 <=? py) && (py <? height img)); [|discriminate].
  apply store_cell_fuel.
Qed.

Lemma circle_loop_fuel fuel : forall img center value x y d,
  (Z.to_nat (y - x + 1) <= fuel)%nat ->
  circle_loop fuel img center value x y d <> OutOfFuel.
Proof.
  induction fuel as [|fuel IH]; intros img center value x y d Hfuel.
  - simpl. destruct (Z.leb_spec x y); [lia | discriminate].
  - simpl. destruct (Z.leb_spec x y) as [Hxy|Hxy]; [|discriminate].
    unfold iadd, isub, imul.
    repeat (apply bind_fuel; [apply plot_fuel | intros ? _]).
    apply bind_fuel.
    { destruct (d <? 0);
        repeat (apply bind_fuel; [apply int_fuel | intros ? _]); discriminate. }
    intros [d' y'] Hdy.
    assert (Hy' : y' <= y).
    { destruct (d <? 0).
      - repeat (apply bind_Done_inv in Hdy as (? & _ & Hdy)).
        inversion Hdy. lia.
      - apply bind_Done_inv in Hdy as (? & _ & Hdy).
        apply bind_Done_inv in Hdy as (? & _ & Hdy).
        apply bind_Done_inv in Hdy as (? & _ & Hdy).
        apply bind_Done_inv in Hdy as (? & _ & Hdy).
        apply bind_Done_inv in Hdy as (y1 & Hy1 & Hdy).
        inversion Hdy; subst.
        destruct (int_cases (y - 1)) as [[_ E]|[_ E]]; rewrite E in Hy1;
          inversion Hy1. lia. }
    apply bind_fuel; [apply int_fuel|]. intros x' Hx'.
    destruct (int_cases (x + 1)) as [[_ E]|[_ E]]; rewrite E in Hx';
      inversion Hx'; subst.
    apply IH. lia.
Qed.

(** The fuel given to the loop of [drawCircle] is never exhausted. *)
Lemma drawCircle_fuel img center radius value :
  drawCircle img center radius value <> OutOfFuel.
Proof.
  unfold drawCircle, imul, isub.
  apply bind_fuel; [apply int_fuel | intros ? _].
  apply bind_fuel; [apply int_fuel | intros ? _].
  apply circle_loop_fuel. lia.
Qed.

(** Inside the bounds that [plot] tests, the write goes to row [px] and
    column [py] of the buffer: the coordinates are exchanged. *)
Lemma plot_exchanges img px py value :
  0 <= px < m_width img -> 0 <= py < m_height img ->
  uint_range (m_width img) -> uint_range (m_height img) ->
  plot img (Done px) (Done py) value = store_cell img px py (Px value).
Proof.
  intros Hx Hy Hw Hh. unfold plot, width, height, at_set. simpl.
  destruct (Z.leb_spec 0 px); [|lia]. destruct (Z.ltb_spec px (m_width img)); [|lia].
  simpl.
  destruct (Z.leb_spec 0 py); [|lia]. destruct (Z.ltb_spec py (m_height img)); [|lia].
  simpl. unfold uint_range in *.
  rewrite !to_unsigned_small by (unfold uint_range; lia). reflexivity.
Qed.

(** C1. [drawCircle] does not keep its writes inside the buffer.  On the
    3 by 1 image, centre (2, 0) and radius 0 pass the bounds test of the first
    plot, which then writes to row 2 of a buffer of one row.  On the 3 by 3
    image the same call completes, leaves the pixel at the centre (2, 0)
    untouched and sets the pixel (0, 2) instead. *)
Theorem C1_drawCircle_out_of_bounds :
  drawCircle black_3x1 (mkPoint 2 0) 0 255 = Undefined /\
  (exists img', drawCircle black_3x3 (mkPoint 2 0) 0 255 = Done img' /\
     at_get img' 2 0 = Done 0 /\ at_get img' 0 2 = Done 255).
Proof.
  split; [reflexivity|].
  eexists. split; [reflexivity|]. split; reflexivity.
Qed.

(** ** Filters *)

Lemma store_cell_Done img y x c img' :
  store_cell img y x c = Done img' ->
  same_header img' img /\ (wf_image img -> wf_image img').
Proof.
  intros H. destruct (store_cell_cases img y x c) as [E | (i & E & Hh & Hwf)];
    rewrite E in H; [discriminate|]. inversion H; subst. auto.
Qed.

Lemma for_loop_preserves {St} (R : St -> St -> Prop) body n :
  (forall s, R s s) -> (forall s1 s2 s3, R s1 s2 -> R s2 s3 -> R s1 s3) ->
  (forall j s s', body j s = Done s' -> R s s') ->
  forall i (s s' : St), for_loop n i body s = Done s' -> R s s'.
Proof.
  intros Hrefl Htrans Hbody. induction n as [|n IH]; intros i s s' H.
  - simpl in H. inversion H. apply Hrefl.
  - simpl in H. apply bind_Done_inv in H as (s1 & H1 & H2).
    eapply Htrans; [eapply Hbody; exact H1 | eapply IH; exact H2].
Qed.

Lemma pixel_loop_Done h w rhs img img' :
  pixel_loop h w rhs img = Done img' ->
  same_header img' img /\ (wf_image img -> wf_image img').
Proof.
  pose (R := fun a b : Image =>
    same_header b a /\ (wf_image a -> wf_image b)).
  assert (Hrefl : forall s, R s s) by (intros s; split; [repeat split | auto]).
  assert (Htrans : forall s1 s2 s3, R s1 s2 -> R s2 s3 -> R s1 s3).
  { intros s1 s2 s3 ((A1 & A2 & A3) & A4) ((B1 & B2 & B3) & B4).
    split; [repeat split; congruence | auto]. }
  intros H. unfold pixel_loop, for_upto in H.
  apply (for_loop_preserves R _ _ Hrefl Htrans) in H; [exact H|].
  intros y s s' Hrow.
  apply (for_loop_preserves R _ _ Hrefl Htrans) in Hrow; [exact Hrow|].
  intros x s1 s2 Hst. apply bind_Done_inv in Hst as (c & _ & Hst).
  apply store_cell_Done in Hst. exact Hst.
Qed.

(** Every filter first replaces [dst] by a fresh image of the dimensions of
    [src] and then runs the pixel loop with its own right-hand side. *)
Lemma process_fresh pow f src dst :
  wf_image src -> wf_image dst ->
  process pow f src dst =
  pixel_loop (m_height src) (m_width src) (filter_pixel pow f src)
    (Image_wh (m_width src) (m_height src)).
Proof.
  intros [Hw Hh _] Hdst.
  destruct f; simpl;
    unfold BrightnessContrastAdjustment.process, GammaCorrection.process,
      Convolution.process, width, height;
    rewrite (assign_fresh dst _ _ Hdst Hw Hh); reflexivity.
Qed.

(** C6. For [src] and [dst] two distinct images and any of the three
    filters: the outcome of [process(src, dst)] does not depend on what [dst]
    held before; when the call completes, [src] is as it was and [dst] is an
    image of the width and height of [src]; and the call completes whenever
    the filter's computation is defined at every pixel of [src]. *)
Theorem C6_process_frame (pow : double -> double -> double)
    (f : ImageProcessing) (st : store) :
  wf_image (s_src st) -> wf_image (s_dst st) ->
  (forall dst2, wf_image dst2 ->
     process pow f (s_src st) dst2 = process pow f (s_src st) (s_dst st)) /\
  (forall st', run_process pow f st = Done st' ->
     s_src st' = s_src st /\
     m_width (s_dst st') = m_width (s_src st) /\
     m_height (s_dst st') = m_height (s_src st) /\
     wf_image (s_dst st')) /\
  ((forall y x, 0 <= y < m_height (s_src st) -> 0 <= x < m_width (s_src st) ->
      exists c, filter_pixel pow f (s_src st) y x = Done c) ->
   exists st', run_process pow f st = Done st' /\
     forall y x, 0 <= y < m_height (s_src st) -> 0 <= x < m_width (s_src st) ->
       filter_pixel pow f (s_src st) y x = load_cell (s_dst st') y x).
Proof.
  intros Hsrc Hdst. destruct st as [src dst]. simpl in *.
  split; [|split].
  - intros dst2 Hdst2. rewrite !process_fresh by assumption. reflexivity.
  - intros st' Hrun. unfold run_process in Hrun. simpl in Hrun.
    apply bind_Done_inv in Hrun as (dst' & Hp & Hst). inversion Hst; subst; simpl.
    rewrite process_fresh in Hp by assumption.
    apply pixel_loop_Done in Hp as ((Hw & Hh & _) & Hwf).
    split; [reflexivity|]. split; [exact Hw|]. split; [exact Hh|].
    apply Hwf. apply Image_wh_wf; apply Hsrc.
  - intros Hdef. unfold run_process. simpl.
    rewrite process_fresh by assumption.
    pose (g := fun y x =>
      match filter_pixel pow f src y x with Done c => c | _ => Indet end).
    destruct (pixel_loop_spec (m_height src) (m_width src)
                (filter_pixel pow f src) g
                (Image_wh (m_width src) (m_height src)))
      as (dst' & Hrun & _ & _ & Hpx);
      [apply Image_wh_grid | apply Hsrc | apply Hsrc | |].
    + intros y x Hy Hx. destruct (Hdef y x Hy Hx) as (c & Hc).
      unfold g. rewrite Hc. reflexivity.
    + rewrite Hrun. simpl. eexists. split; [reflexivity|]. simpl.
      intros y x Hy Hx. rewrite (Hpx y x Hy Hx).
      destruct (Hdef y x Hy Hx) as (c & Hc). unfold g. rewrite Hc. reflexivity.
Qed.

Lemma C6_process_frame_witness :
  (forall dst2, wf_image dst2 ->
     process (fun a _ => a) (BrightnessContrast 1.5%float (-3)) sample_2x2 dst2
     = process (fun a _ => a) (BrightnessContrast 1.5%float (-3)) sample_2x2
         black_3x3) /\
  (forall st',
     run_process (fun a _ => a) (BrightnessContrast 1.5%float (-3))
       (mkStore sample_2x2 black_3x3) = Done st' ->
     s_src st' = sample_2x2 /\
     m_width (s_dst st') = m_width sample_2x2 /\
     m_height (s_dst st') = m_height sample_2x2 /\
     wf_image (s_dst st')) /\
  ((forall y x, 0 <= y < m_height sample_2x2 -> 0 <= x < m_width sample_2x2 ->
      exists c, filter_pixel (fun a _ => a) (BrightnessContrast 1.5%float (-3))
                  sample_2x2 y x = Done c) ->
   exists st',
     run_process (fun a _ => a) (BrightnessContrast 1.5%float (-3))
       (mkStore sample_2x2 black_3x3) = Done st' /\
     forall y x, 0 <= y < m_height sample_2x2 -> 0 <= x < m_width sample_2x2 ->
       filter_pixel (fun a _ => a) (BrightnessContrast 1.5%float (-3))
         sample_2x2 y x = load_cell (s_dst st') y x).
Proof.
  apply (C6_process_frame (fun a _ => a) (BrightnessContrast 1.5%float (-3))
           (mkStore sample_2x2 black_3x3));
    [exact sample_2x2_wf | exact black_3x3_wf].
Defined.

(** The three filters on a 2 by 2 image, [dst] holding a 3 by 3 image before
    the call. *)
Example process_brightness_contrast :
  run_process (fun a _ => a) (BrightnessContrast 1.5%float (-3))
    (mkStore sample_2x2 black_3x3)
  = Done (mkStore sample_2x2
            (image_of_rows 2 2 [[Px 0; Px 12]; [Px 45; Px 255]])).
Proof. reflexivity. Qed.

Example process_identity_convolution :
  run_process (fun a _ => a)
    (Convolve Convolution.identity_kernel 3 3 Convolution.identity_scaling)
    (mkStore sample_2x2 black_3x3)
  = Done (mkStore sample_2x2 sample_2x2).
Proof. reflexivity. Qed.

(** ** Exact [double] arithmetic on pixel values *)

Lemma uchar_cases (P : Z -> Prop) :
  (forall n : nat, (n < 256)%nat -> P (Z.of_nat n)) ->
  forall v, uchar_range v -> P v.
Proof.
  intros H v Hv. unfold uchar_range in Hv.
  replace v with (Z.of_nat (Z.to_nat v)) by lia. apply H. lia.
Qed.

Lemma double_pixel_facts v :
  uchar_range v ->
  PrimFloat.mul (double_of_int v) 0%float = 0%float /\
  PrimFloat.add (double_of_int v) 0%float = double_of_int v /\
  PrimFloat.add 0%float (PrimFloat.mul (double_of_int v) 1%float)
    = double_of_int v /\
  double_to_int (double_of_int v) = Done v.
Proof.
  revert v. apply uchar_cases. intros n Hn.
  do 256 (destruct n as [|n]; [vm_compute; repeat split; reflexivity|]).
  lia.
Qed.

Lemma to_int_small z : 0 <= z < 2147483648 -> to_int z = z.
Proof.
  intros H. unfold to_int. rewrite Z.mod_small by lia.
  destruct (Z.ltb_spec z 2147483648); [reflexivity | lia].
Qed.

Lemma to_int_large z : 2147483648 <= z < 4294967296 -> to_int z = z - 4294967296.
Proof.
  intros H. unfold to_int. rewrite Z.mod_small by lia.
  destruct (Z.ltb_spec z 2147483648); [lia | reflexivity].
Qed.

(** ** Convolution with the identity kernel *)

Lemma identity_kernel_at ky kx :
  0 <= ky < 3 -> 0 <= kx < 3 ->
  Convolution.kernel_at Convolution.identity_kernel ky kx
  = Done (if (ky =? 1) && (kx =? 1) then 1%float else 0%float).
Proof.
  intros Hy Hx.
  assert (Hy' : ky = 0 \/ ky = 1 \/ ky = 2) by lia.
  assert (Hx' : kx = 0 \/ kx = 1 \/ kx = 2) by lia.
  destruct Hy' as [-> | [-> | ->]], Hx' as [-> | [-> | ->]]; reflexivity.
Qed.

Lemma identity_weighted_sum src y x v :
  wf_image src -> initialized src ->
  0 <= y < m_height src -> 0 <= x < m_width src ->
  load_cell src y x = Done (Px v) ->
  Convolution.weighted_sum Convolution.identity_kernel 3 3 src y x
  = Done (if centre_visible y x then double_of_int v else 0%float).
Proof.
  intros Hwf Hinit Hy Hx Hv.
  assert (Huv : uchar_range v).
  { destruct (Hinit y x _ Hv) as (v' & Heq & Hr). inversion Heq; subst. exact Hr. }
  destruct (double_pixel_facts v Huv) as (_ & Fv0 & Fv1 & _).
  set (T := if centre_visible y x then double_of_int v else 0%float).
  assert (HT0 : PrimFloat.add T 0%float = T).
  { unfold T. destruct (centre_visible y x); [exact Fv0 | reflexivity]. }
  assert (Hw := wf_width src Hwf). assert (Hh := wf_height src Hwf).
  unfold uint_range, UINT_MAX in Hw, Hh.
  unfold Convolution.weighted_sum. cbv zeta.
  change (Z.quot 3 2) with 1.
  pose (P := fun (ky : Z) (sum : double) =>
    (ky <= 1 -> sum = 0%float) /\ (ky >= 2 -> sum = T)).
  match goal with |- for_upto 3 ?body ?s = _ =>
    destruct (for_upto_inv P body 3 s) as (s' & Hrun & HP)
  end; [lia | split; [reflexivity | lia] | |].
  2:{ etransitivity; [exact Hrun|]. f_equal. apply HP. lia. }
  intros ky sum Hky (HP1 & HP2).
  pose (Q := fun (kx : Z) (sum : double) =>
    ((ky < 1 \/ (ky = 1 /\ kx <= 1)) -> sum = 0%float) /\
    ((ky > 1 \/ (ky = 1 /\ kx >= 2)) -> sum = T)).
  match goal with |- exists s', for_upto 3 ?body ?s = _ /\ _ =>
    destruct (for_upto_inv Q body 3 s) as (s' & Hrun & HQ1 & HQ2)
  end; [lia | split; intros; [apply HP1 | apply HP2]; lia | |].
  2:{ exists s'. split; [exact Hrun|]. split; intros.
      - apply HQ1. lia.
      - apply HQ2. lia. }
  intros kx s Hkx (HQ1 & HQ2).
  rewrite (identity_kernel_at ky kx Hky Hkx).
  set (srcX := to_int (x + kx - 1)). set (srcY := to_int (y + ky - 1)).
  destruct ((0 <=? srcX) && (srcX <? width src) && (0 <=? srcY)
            && (srcY <? height src)) eqn:Hc.
  - (* the tap is inside the image *)
    apply andb_true_iff in Hc as (Hc & Hc4).
    apply andb_true_iff in Hc as (Hc & Hc3).
    apply andb_true_iff in Hc as (Hc1 & Hc2).
    unfold width, height in *.
    assert (HsX : 0 <= srcX < m_width src) by lia.
    assert (HsY : 0 <= srcY < m_height src) by lia.
    rewrite !to_unsigned_small by (unfold uint_range, UINT_MAX; lia).
    destruct (wf_load_px src srcY srcX Hwf Hinit HsY HsX)
      as (p & Hcp & Hp & Hup).
    unfold at_get. rewrite Hp. simpl.
    destruct (double_pixel_facts p Hup) as (Fp0 & _ & Fp1 & _).
    destruct (Z.eqb_spec ky 1) as [Eky|Eky];
      destruct (Z.eqb_spec kx 1) as [Ekx|Ekx]; simpl.
    + (* the centre *)
      subst ky kx.
      assert (Hvis : centre_visible y x = true /\ srcX = x /\ srcY = y).
      { unfold centre_visible, srcX, srcY in *.
        replace (x + 1 - 1) with x in * by lia.
        replace (y + 1 - 1) with y in * by lia.
        destruct (Z.ltb_spec x 2147483648).
        - destruct (Z.ltb_spec y 2147483648).
          + rewrite !to_int_small by lia. auto.
          + rewrite (to_int_large y) in HsY by lia. lia.
        - rewrite (to_int_large x) in HsX by lia. lia. }
      destruct Hvis as (Hvis & EX & EY).
      rewrite EX, EY in Hcp. rewrite Hv in Hcp. inversion Hcp; subst p.
      eexists. split; [reflexivity|]. split; [intros; lia|].
      intros _. rewrite (HQ1 ltac:(lia)). unfold T. rewrite Hvis. exact Fv1.
    + eexists. split; [reflexivity|]. rewrite Fp0. split; intros Hpos.
      * rewrite (HQ1 ltac:(lia)). reflexivity.
      * rewrite (HQ2 ltac:(lia)). exact HT0.
    + eexists. split; [reflexivity|]. rewrite Fp0. split; intros Hpos.
      * rewrite (HQ1 ltac:(lia)). reflexivity.
      * rewrite (HQ2 ltac:(lia)). exact HT0.
    + eexists. split; [reflexivity|]. rewrite Fp0. split; intros Hpos.
      * rewrite (HQ1 ltac:(lia)). reflexivity.
      * rewrite (HQ2 ltac:(lia)). exact HT0.
  - (* the tap is left out of the sum *)
    exists s. split; [reflexivity|]. split; intros Hpos.
    + apply HQ1. lia.
    + destruct (Z.eq_dec ky 1) as [Eky|Eky];
        [destruct (Z.eq_dec kx 1) as [Ekx|Ekx]|];
        try (apply HQ2; lia).
      (* the centre tap was left out: the centre is not visible *)
      subst ky kx. rewrite (HQ1 ltac:(lia)).
      assert (Hvis : centre_visible y x = false).
      { unfold centre_visible. unfold srcX, srcY, width, height in Hc.
        replace (x + 1 - 1) with x in Hc by lia.
        replace (y + 1 - 1) with y in Hc by lia.
        destruct (Z.ltb_spec x 2147483648); [|reflexivity].
        destruct (Z.ltb_spec y 2147483648); [|reflexivity].
        rewrite !to_int_small in Hc by lia.
        exfalso. apply andb_false_iff in Hc as [Hc|Hc]; [|lia].
        apply andb_false_iff in Hc as [Hc|Hc]; [|lia].
        apply andb_false_iff in Hc as [Hc|Hc]; lia. }
      unfold T. rewrite Hvis. reflexivity.
Qed.

Lemma identity_pixel src y x v :
  wf_image src -> initialized src ->
  0 <= y < m_height src -> 0 <= x < m_width src ->
  load_cell src y x = Done (Px v) ->
  Convolution.pixel Convolution.identity_kernel 3 3
    Convolution.identity_scaling src y x
  = Done (Px (if centre_visible y x then v else 0)).
Proof.
  intros Hwf Hinit Hy Hx Hv. unfold Convolution.pixel.
  rewrite (identity_weighted_sum src y x v Hwf Hinit Hy Hx Hv). simpl.
  assert (Huv : uchar_range v).
  { destruct (Hinit y x _ Hv) as (v' & Heq & Hr). inversion Heq; subst. exact Hr. }
  destruct (double_pixel_facts v Huv) as (_ & _ & _ & Fcast).
  unfold Convolution.identity_scaling.
  destruct (centre_visible y x).
  - rewrite Fcast. simpl. unfold uchar_range in Huv.
    rewrite Z.max_r by lia. rewrite Z.min_r by lia.
    rewrite to_uchar_id by exact Huv. reflexivity.
  - reflexivity.
Qed.

Lemma identity_process src dst :
  wf_image src -> initialized src -> wf_image dst ->
  exists dst',
    Convolution.process Convolution.identity_kernel 3 3
      Convolution.identity_scaling src dst = Done dst' /\
    wf_image dst' /\
    m_width dst' = m_width src /\ m_height dst' = m_height src /\
    forall y x, 0 <= y < m_height src -> 0 <= x < m_width src ->
      load_cell dst' y x =
      if centre_visible y x then load_cell src y x else Done (Px 0).
Proof.
  intros Hwf Hinit Hdst.
  pose (f := Convolve Convolution.identity_kernel 3 3
               Convolution.identity_scaling).
  change (Convolution.process Convolution.identity_kernel 3 3
            Convolution.identity_scaling src dst)
    with (process (fun a _ => a) f src dst).
  rewrite process_fresh by assumption.
  pose (g := fun y x =>
    match load_cell src y x with
    | Done (Px v) => Px (if centre_visible y x then v else 0)
    | _ => Indet
    end).
  destruct (pixel_loop_spec (m_height src) (m_width src)
              (filter_pixel (fun a _ => a) f src) g
              (Image_wh (m_width src) (m_height src)))
    as (dst' & Hrun & _ & (Hw & Hh & _) & Hpx);
    [apply Image_wh_grid | apply Hwf | apply Hwf | |].
  - intros y x Hy Hx.
    destruct (wf_load_px src y x Hwf Hinit Hy Hx) as (v & Hc & _ & _).
    unfold g. rewrite Hc. simpl.
    apply identity_pixel; assumption.
  - exists dst'. split; [exact Hrun|].
    apply pixel_loop_Done in Hrun as (_ & Hwf').
    split; [apply Hwf'; apply Image_wh_wf; apply Hwf|].
    split; [exact Hw|]. split; [exact Hh|].
    intros y x Hy Hx. rewrite (Hpx y x Hy Hx).
    destruct (wf_load_px src y x Hwf Hinit Hy Hx) as (v & Hc & _ & _).
    unfold g. rewrite Hc. destruct (centre_visible y x); reflexivity.
Qed.

(** C3 (as amended). For every image of at most 2^31 columns and 2^31 rows,
    convolution with the 3 by 3 kernel [[0,0,0],[0,1,0],[0,0,0]] and the
    identity scaling function gives a destination with the dimensions of the
    source and the same value at every pixel, boundary pixels included. *)
Theorem C3_identity_convolution (src dst : Image) :
  wf_image src -> initialized src -> wf_image dst ->
  m_width src <= 2147483648 -> m_height src <= 2147483648 ->
  exists dst',
    Convolution.process Convolution.identity_kernel 3 3
      Convolution.identity_scaling src dst = Done dst' /\
    wf_image dst' /\ same_pixels dst' src.
Proof.
  intros Hwf Hinit Hdst Hw Hh.
  destruct (identity_process src dst Hwf Hinit Hdst)
    as (dst' & Hrun & Hwf' & Hw' & Hh' & Hpx).
  exists dst'. split; [exact Hrun|]. split; [exact Hwf'|].
  split; [exact Hw'|]. split; [exact Hh'|].
  rewrite Hw', Hh'. intros y x Hy Hx. rewrite (Hpx y x Hy Hx).
  unfold centre_visible.
  destruct (Z.ltb_spec x 2147483648); [|lia].
  destruct (Z.ltb_spec y 2147483648); [|lia]. reflexivity.
Qed.

Lemma wide_row_wf w : uint_range w -> wf_image (wide_row w).
Proof.
  intros Hw. constructor; simpl; [exact Hw | unfold uint_range, UINT_MAX; lia |].
  split; [reflexivity|].
  apply Forall_cons. split; [apply length_replicate | apply Forall_nil_2].
Qed.

Lemma wide_row_load w y x c :
  load_cell (wide_row w) y x = Done c -> c = Px 7.
Proof.
  unfold load_cell. simpl.
  destruct ((y <? 0) || (x <? 0)); [discriminate|].
  destruct (Z.to_nat y) as [|n]; simpl; [|discriminate].
  destruct (replicate (Z.to_nat w) (Px 7) !! Z.to_nat x) as [c'|] eqn:E;
    [|discriminate].
  apply lookup_replicate in E as (-> & _). congruence.
Qed.

Lemma wide_row_initialized w : initialized (wide_row w).
Proof.
  intros y x c H. apply wide_row_load in H. subst c.
  exists 7. split; [reflexivity | unfold uchar_range; lia].
Qed.

Lemma wide_row_pixel w x :
  0 <= x < w -> load_cell (wide_row w) 0 x = Done (Px 7).
Proof.
  intros Hx. destruct (load_cell_in_grid (wide_row w) 1 w 0 x) as (c & Hc);
    [| lia | lia |].
  - eexists. split; [reflexivity|]. split; [reflexivity|].
    apply Forall_cons. split; [apply length_replicate | apply Forall_nil_2].
  - rewrite Hc. f_equal. eapply wide_row_load. exact Hc.
Qed.

(** On a row wider than 2^31 pixels the pixels from column 2^31 on come out
    as 0: the centre tap's column is negative as an [int] and is left out. *)
Lemma identity_wide_row w :
  2147483648 < w <= UINT_MAX ->
  exists dst',
    Convolution.process Convolution.identity_kernel 3 3
      Convolution.identity_scaling (wide_row w) Image_default = Done dst' /\
    load_cell (wide_row w) 0 2147483648 = Done (Px 7) /\
    load_cell dst' 0 2147483648 = Done (Px 0) /\
    ~ same_pixels dst' (wide_row w).
Proof.
  intros Hw.
  destruct (identity_process (wide_row w) Image_default)
    as (dst' & Hrun & _ & Hw' & Hh' & Hpx).
  - apply wide_row_wf. unfold uint_range. lia.
  - apply wide_row_initialized.
  - apply Image_default_wf.
  - assert (Hsrc : load_cell (wide_row w) 0 2147483648 = Done (Px 7))
      by (apply wide_row_pixel; lia).
    assert (Hdst : load_cell dst' 0 2147483648 = Done (Px 0)).
    { rewrite Hpx by (simpl; lia). reflexivity. }
    exists dst'. split; [exact Hrun|]. split; [exact Hsrc|].
    split; [exact Hdst|].
    intros (_ & _ & Hsame).
    specialize (Hsame 0 2147483648). rewrite Hw', Hh' in Hsame.
    rewrite Hsrc, Hdst in Hsame.
    assert (Done (Px 0) = Done (Px 7)) as Habs by (apply Hsame; simpl; lia).
    discriminate.
Qed.

(** The claim as stated fails on the image of one row of 2147483649 pixels of
    value 7: the destination holds 0 at column 2147483648. *)
Lemma C3_identity_counterexample :
  exists dst',
    Convolution.process Convolution.identity_kernel 3 3
      Convolution.identity_scaling (wide_row 2147483649) Image_default
      = Done dst' /\
    load_cell (wide_row 2147483649) 0 2147483648 = Done (Px 7) /\
    load_cell dst' 0 2147483648 = Done (Px 0) /\
    ~ same_pixels dst' (wide_row 2147483649).
Proof. apply identity_wide_row. unfold UINT_MAX. lia. Qed.

Lemma sample_2x2_initialized : initialized sample_2x2.
Proof.
  intros y x c H. unfold load_cell in H. simpl in H.
  destruct ((y <? 0) || (x <? 0)); [discriminate|].
  destruct (Z.to_nat y) as [|[|[|n]]]; simpl in H; try discriminate;
    destruct (Z.to_nat x) as [|[|[|m]]]; simpl in H; try discriminate;
    inversion H; eexists; (split; [reflexivity | unfold uchar_range; lia]).
Qed.

Lemma C3_identity_convolution_witness :
  exists dst',
    Convolution.process Convolution.identity_kernel 3 3
      Convolution.identity_scaling sample_2x2 black_3x3 = Done dst' /\
    wf_image dst' /\ same_pixels dst' sample_2x2.
Proof.
  apply (C3_identity_convolution sample_2x2 black_3x3);
    first [ exact sample_2x2_wf | exact sample_2x2_initialized
          | exact black_3x3_wf | simpl; lia ].
Defined.

(** ** Binary PGM files *)

(** ** Decimal output and input *)

Lemma digits_rev_digits fuel : forall n,
  0 <= n -> Forall (fun c => isdigit c = true) (digits_rev fuel n).
Proof.
  induction fuel as [|fuel IH]; intros n Hn; simpl; [constructor|].
  constructor.
  - unfold isdigit. pose proof (Z.mod_pos_bound n 10 ltac:(lia)).
    apply andb_true_iff. split; lia.
  - destruct (n / 10 =? 0); [constructor|].
    apply IH. apply Z.div_pos; lia.
Qed.

Lemma digits_rev_value fuel : forall n,
  0 <= n < 2 ^ Z.of_nat fuel -> value_rev (digits_rev fuel n) = n.
Proof.
  induction fuel as [|fuel IH]; intros n Hn.
  - simpl in *. assert (n = 0) by lia. subst. reflexivity.
  - simpl digits_rev. unfold value_rev. simpl fold_right. fold (value_rev
      (if n / 10 =? 0 then [] else digits_rev fuel (n / 10))).
    pose proof (Z.div_mod n 10 ltac:(lia)) as Hdm.
    destruct (Z.eqb_spec (n / 10) 0) as [E|E].
    + simpl. lia.
    + rewrite IH; [lia|].
      rewrite Nat2Z.inj_succ, Z.pow_succ_r in Hn by lia.
      split; [apply Z.div_pos; lia|].
      apply Z.div_lt_upper_bound; lia.
Qed.

Lemma digits_rev_nonempty fuel n : digits_rev (S fuel) n <> [].
Proof. simpl. discriminate. Qed.

Lemma log2_fuel n : 0 <= n -> n < 2 ^ Z.of_nat (S (Z.to_nat (Z.log2 n))).
Proof.
  intros Hn. rewrite Nat2Z.inj_succ, Z2Nat.id by apply Z.log2_nonneg.
  destruct (Z.eq_dec n 0) as [->|Hne]; [reflexivity|].
  apply Z.log2_spec. lia.
Qed.

Lemma scan_digits_app l : forall r acc any,
  Forall (fun c => isdigit c = true) l -> l <> [] ->
  match r with c :: _ => isdigit c = false | [] => True end ->
  scan_digits (l ++ r) acc any =
  (fold_left (fun a c => 10 * a + (c - 48)) l acc, true, r).
Proof.
  induction l as [|c l IH]; intros r acc any Hall Hne Hr; [congruence|].
  apply Forall_cons in Hall as (Hc & Hall). simpl. rewrite Hc.
  destruct l as [|c' l'].
  - simpl. destruct r as [|c0 r0]; [reflexivity|]. simpl. rewrite Hr.
    reflexivity.
  - apply IH; [exact Hall | discriminate | exact Hr].
Qed.

Lemma print_unsigned_digits n :
  0 <= n -> Forall (fun c => isdigit c = true) (print_unsigned n).
Proof.
  intros Hn. unfold print_unsigned. apply Forall_rev.
  apply digits_rev_digits. exact Hn.
Qed.

Lemma print_unsigned_head n :
  0 <= n -> exists c l, print_unsigned n = c :: l /\ isdigit c = true.
Proof.
  intros Hn. pose proof (print_unsigned_digits n Hn) as Hall.
  destruct (print_unsigned n) as [|c l] eqn:E.
  - unfold print_unsigned in E. apply (f_equal (@rev Z)) in E.
    rewrite rev_involutive in E. simpl in E.
    exfalso. eapply digits_rev_nonempty. exact E.
  - apply Forall_cons in Hall as (Hc & _). eauto.
Qed.

(** Reading back what [print_unsigned] wrote, up to the first byte that is
    not a digit. *)
Lemma scan_print_unsigned n r :
  0 <= n ->
  match r with c :: _ => isdigit c = false | [] => True end ->
  scan_digits (print_unsigned n ++ r) 0 false = (n, true, r).
Proof.
  intros Hn Hr.
  destruct (print_unsigned_head n Hn) as (c & l & E & _).
  rewrite scan_digits_app;
    [| apply print_unsigned_digits; exact Hn | rewrite E; discriminate
     | exact Hr].
  f_equal. f_equal. unfold print_unsigned.
  rewrite <- fold_left_rev_right. rewrite rev_involutive.
  apply (digits_rev_value _ n). split; [exact Hn | apply log2_fuel; exact Hn].
Qed.

Lemma isdigit_not_space c : isdigit c = true -> isspace c = false.
Proof.
  unfold isdigit, isspace. intros H. apply andb_true_iff in H as (H1 & H2).
  apply orb_false_iff. split.
  - apply andb_false_iff. right. lia.
  - lia.
Qed.

Lemma isdigit_not_sign c : isdigit c = true -> c <> 43 /\ c <> 45.
Proof.
  unfold isdigit. intros H. apply andb_true_iff in H as (H1 & H2). lia.
Qed.

Lemma scan_number_print n r :
  0 <= n ->
  match r with c :: _ => isdigit c = false | [] => True end ->
  scan_number (print_unsigned n ++ r) = (false, n, true, r).
Proof.
  intros Hn Hr. pose proof (scan_print_unsigned n r Hn Hr) as Hs.
  destruct (print_unsigned_head n Hn) as (c & l & E & Hc).
  destruct (isdigit_not_sign c Hc) as (H43 & H45).
  unfold scan_number. rewrite E in *. simpl app in *.
  destruct c as [|p|p]; try (rewrite Hs; reflexivity).
  do 6 (destruct p as [p|p|]; try (rewrite Hs; reflexivity));
    try congruence.
Qed.

Lemma skip_ws_print n r :
  0 <= n -> skip_ws (print_unsigned n ++ r) = print_unsigned n ++ r.
Proof.
  intros Hn. destruct (print_unsigned_head n Hn) as (c & l & E & Hc).
  rewrite E. simpl. rewrite (isdigit_not_space c Hc). reflexivity.
Qed.

Lemma sentry_skip ws l d l' :
  isspace ws = true -> l = d :: l' -> isspace d = false ->
  sentry {| rest := ws :: l; eofbit := false; failbit := false |}
  = (true, {| rest := l; eofbit := false; failbit := false |}).
Proof.
  intros Hws -> Hd. unfold sentry, good. simpl. rewrite Hws, Hd. reflexivity.
Qed.

(** [file >> v] right after white space [ws] reads what [file << n] wrote. *)
Lemma extract_unsigned_print ws n c r v :
  isspace ws = true -> uint_range n -> isdigit c = false ->
  extract_unsigned
    {| rest := ws :: print_unsigned n ++ c :: r; eofbit := false;
       failbit := false |} v
  = (n, {| rest := c :: r; eofbit := false; failbit := false |}).
Proof.
  intros Hws Hn Hc. unfold uint_range, UINT_MAX in Hn.
  destruct (print_unsigned_head n ltac:(lia)) as (d & l & E & Hd).
  unfold extract_unsigned.
  rewrite (sentry_skip ws (print_unsigned n ++ c :: r) d (l ++ c :: r) Hws);
    [| rewrite E; reflexivity | apply isdigit_not_space; exact Hd].
  cbn [rest].
  rewrite scan_number_print by (try lia; exact Hc). simpl.
  destruct (Z.gtb_spec n UINT_MAX) as [Hgt|_];
    [unfold UINT_MAX in Hgt; lia|].
  rewrite to_unsigned_small by (unfold uint_range, UINT_MAX; lia).
  reflexivity.
Qed.

Lemma seqZ_snoc m n : 0 <= n -> seqZ m (n + 1) = seqZ m n ++ [m + n].
Proof.
  intros Hn. rewrite seqZ_app by lia. f_equal.
Qed.

Lemma seqZ_head m n : 0 < n -> seqZ m n = m :: seqZ (m + 1) (n - 1).
Proof. intros Hn. rewrite seqZ_cons by lia. reflexivity. Qed.

Lemma load_px_value img y x :
  wf_image img -> initialized img ->
  0 <= y < m_height img -> 0 <= x < m_width img ->
  load_px img y x = Done (pixel_value img y x) /\
  load_cell img y x = Done (Px (pixel_value img y x)).
Proof.
  intros Hwf Hinit Hy Hx.
  destruct (wf_load_px img y x Hwf Hinit Hy Hx) as (v & Hc & Hp & _).
  unfold pixel_value. rewrite Hc. auto.
Qed.

(** [save] writes the header and then the pixel bytes row by row. *)
Lemma save_bytes img :
  wf_image img -> initialized img ->
  save true img = Done (true, pgm_header img ++ rows_from img 0).
Proof.
  intros Hwf Hinit. unfold save. simpl negb. cbv iota.
  fold (pgm_header img).
  assert (Hw := wf_width img Hwf). assert (Hh := wf_height img Hwf).
  unfold uint_range in Hw, Hh.
  pose (P := fun (i : Z) (out : list Z) =>
    out = pgm_header img ++ concat (row_bytes img <$> seqZ 0 i)).
  match goal with |- mbind _ (for_upto _ ?body ?s) = _ =>
    destruct (for_upto_inv P body (m_height img) s) as (out & Hrun & HP)
  end; [lia | unfold P; simpl; rewrite app_nil_r; reflexivity | |].
  2:{ rewrite Hrun. simpl. unfold P in HP. rewrite HP. unfold rows_from.
      rewrite Z.sub_0_r. reflexivity. }
  intros i out Hi HP. unfold P in HP. subst out.
  pose (Q := fun (j : Z) (out : list Z) =>
    out = (pgm_header img ++ concat (row_bytes img <$> seqZ 0 i))
            ++ (pixel_value img i <$> seqZ 0 j)).
  match goal with |- exists s', for_upto _ ?body ?s = _ /\ _ =>
    destruct (for_upto_inv Q body (m_width img) s) as (out & Hrun & HQ)
  end; [lia | unfold Q; simpl; rewrite app_nil_r; reflexivity | |].
  2:{ exists out. split; [exact Hrun|]. unfold Q in HQ. unfold P. subst out.
      rewrite seqZ_snoc by lia. rewrite fmap_app, concat_app. simpl.
      rewrite app_nil_r. rewrite <- app_assoc. reflexivity. }
  intros j out Hj HQ. unfold Q in HQ. subst out.
  destruct (load_px_value img i j Hwf Hinit Hi Hj) as (Hp & _).
  rewrite Hp. simpl. eexists. split; [reflexivity|]. unfold Q.
  rewrite seqZ_snoc by lia. rewrite fmap_app. simpl.
  rewrite <- !app_assoc. reflexivity.
Qed.

Lemma rows_from_unfold img i :
  0 <= i < m_height img ->
  rows_from img i =
  (pixel_value img i <$> seqZ 0 (m_width img)) ++ rows_from img (i + 1).
Proof.
  intros Hi. unfold rows_from. rewrite (seqZ_head i) by lia. simpl.
  replace (m_height img - i - 1) with (m_height img - (i + 1)) by lia.
  reflexivity.
Qed.

(** The two read loops of [load] on a stream that holds the pixel bytes of
    [img]: the loaded buffer has the dimensions and the bytes of [img]. *)
Lemma load_pixels img s0 :
  wf_image img -> initialized img ->
  let this := Image_wh (m_width img) (m_height img) in
  s0 = {| rest := rows_from img 0; eofbit := false; failbit := false |} ->
  exists loaded s,
    for_upto (m_height this) (fun i st =>
      for_upto (m_width this) (fun j '(im, s) =>
        let '(gray, s) := read_gray s in
        im ← store_cell im i j gray;
        Done (im, s)) st) (this, s0) = Done (loaded, s) /\
    grid loaded (m_height img) (m_width img) /\
    same_header loaded this /\
    forall i j, 0 <= i < m_height img -> 0 <= j < m_width img ->
      load_cell loaded i j = Done (Px (pixel_value img i j)).
Proof.
  intros Hwf Hinit this Hs0.
  assert (Hw := wf_width img Hwf). assert (Hh := wf_height img Hwf).
  unfold uint_range in Hw, Hh. set (h := m_height img). set (w := m_width img).
  change (m_height this) with h. change (m_width this) with w.
  pose (P := fun (i : Z) (st : Image * istream) =>
    grid (fst st) h w /\ same_header (fst st) this /\
    snd st = {| rest := rows_from img i; eofbit := false; failbit := false |} /\
    forall i' j, 0 <= i' < i -> 0 <= j < w ->
      load_cell (fst st) i' j = Done (Px (pixel_value img i' j))).
  match goal with |- exists _ _, for_upto _ ?body ?s = _ /\ _ =>
    destruct (for_upto_inv P body h s) as ([loaded s'] & Hrun & Hg & Hhd & _ & Hpx)
  end; [lia | | |].
  { split; [apply Image_wh_grid|]. split; [repeat split|].
    split; [exact Hs0|]. intros; lia. }
  2:{ exists loaded, s'. split; [exact Hrun|]. simpl in *. auto. }
  intros i [im s] Hi (Hg & Hhd & Hs & Hpx). simpl in Hg, Hhd, Hs, Hpx.
  pose (Q := fun (j : Z) (st : Image * istream) =>
    grid (fst st) h w /\ same_header (fst st) this /\
    snd st = {| rest := (pixel_value img i <$> seqZ j (w - j))
                          ++ rows_from img (i + 1);
                eofbit := false; failbit := false |} /\
    (forall i' j', 0 <= i' < i -> 0 <= j' < w ->
       load_cell (fst st) i' j' = Done (Px (pixel_value img i' j'))) /\
    (forall j', 0 <= j' < j ->
       load_cell (fst st) i j' = Done (Px (pixel_value img i j')))).
  match goal with |- exists _, for_upto _ ?body ?s = _ /\ _ =>
    destruct (for_upto_inv Q body w s)
      as ([im' s'] & Hrun & Hg' & Hhd' & Hs' & Hold & Hrow)
  end; [lia | | |].
  { split; [exact Hg|]. split; [exact Hhd|]. split.
    - simpl. rewrite Hs. rewrite rows_from_unfold by (fold h; lia).
      rewrite Z.sub_0_r. reflexivity.
    - split; [exact Hpx | intros; lia]. }
  2:{ exists (im', s'). split; [exact Hrun|]. simpl in *.
      split; [exact Hg'|]. split; [exact Hhd'|]. split.
      - rewrite Hs'. rewrite Z.sub_diag. reflexivity.
      - intros i' j Hi' Hj. destruct (decide (i' = i)) as [->|Hne].
        + apply Hrow. exact Hj.
        + apply Hold; [lia | exact Hj]. }
  intros j [im1 s1] Hj (Hg1 & Hhd1 & Hs1 & Hold1 & Hrow1).
  simpl in Hg1, Hhd1, Hs1, Hold1, Hrow1. subst s1.
  rewrite (seqZ_head j) by lia. simpl.
  destruct (store_cell_spec im1 h w i j (Px (pixel_value img i j)) Hg1 Hi Hj)
    as (im2 & Hst & Hg2 & Hw2 & Hh2 & Hgr2 & Hhit & Hmiss).
  unfold read_gray, good. simpl. rewrite Hst. simpl.
  eexists. split; [reflexivity|]. simpl.
  split; [exact Hg2|]. split.
  { destruct Hhd1 as (? & ? & ?). repeat split; cbn [fst]; congruence. }
  split.
  { replace (w - (j + 1)) with (w - j - 1) by lia. reflexivity. }
  split.
  - intros i' j' Hi' Hj'. rewrite Hmiss; [auto|].
    intros Heq. inversion Heq. lia.
  - intros j' Hj'. destruct (decide (j' = j)) as [->|Hne]; [exact Hhit|].
    rewrite Hmiss; [apply Hrow1; lia|]. intros Heq. inversion Heq. lia.
Qed.

Lemma pgm_file_shape img payload :
  pgm_header img ++ payload =
  80 :: 53 :: 10 :: print_unsigned (m_width img) ++
    32 :: print_unsigned (m_height img) ++
    10 :: 50 :: 53 :: 53 :: 10 :: payload.
Proof.
  unfold pgm_header, magic_P5. simpl. rewrite <- !app_assoc. simpl.
  rewrite <- !app_assoc. reflexivity.
Qed.

Lemma extract_magic l :
  extract_string
    {| rest := 80 :: 53 :: 10 :: l; eofbit := false; failbit := false |} []
  = ([80; 53], {| rest := 10 :: l; eofbit := false; failbit := false |}).
Proof. reflexivity. Qed.

Lemma extract_maxval l v :
  extract_int
    {| rest := 10 :: 50 :: 53 :: 53 :: 10 :: l; eofbit := false;
       failbit := false |} v
  = (255, {| rest := 10 :: l; eofbit := false; failbit := false |}).
Proof. reflexivity. Qed.

Lemma release_then_allocate this w h :
  can_release this h ->
  exists this1,
    deallocateMemory {| m_data := m_data this; m_width := w; m_height := h;
                        m_isGrayscale := true |} = Done this1 /\
    m_width this1 = w /\ m_height this1 = h /\
    allocateMemory this1 = Image_wh w h.
Proof.
  unfold can_release, deallocateMemory. simpl.
  destruct (m_data this) as [rows|]; intros Hrel.
  - destruct (Nat.leb_spec (Z.to_nat h) (length rows)); [|lia].
    eexists. repeat split; reflexivity.
  - eexists. repeat split; reflexivity.
Qed.

(** C2. Saving an image and loading the file back gives an image of the
    same dimensions with the same value at every pixel.  The image loaded
    into has no buffer yet, or one of at least as many rows as the file
    declares (a default-constructed image, or the saved image itself). *)
Theorem C2_save_load_roundtrip (img this : Image) :
  wf_image img -> initialized img ->
  1 <= m_width img -> 1 <= m_height img ->
  can_release this (m_height img) ->
  exists bytes loaded,
    save true img = Done (true, bytes) /\
    load (Some bytes) this = Done (true, loaded) /\
    wf_image loaded /\ same_pixels loaded img.
Proof.
  intros Hwf Hinit _ _ Hrel.
  assert (Hw := wf_width img Hwf). assert (Hh := wf_height img Hwf).
  destruct (load_pixels img
              {| rest := rows_from img 0; eofbit := false; failbit := false |}
              Hwf Hinit eq_refl)
    as (loaded & s & Hrun & Hg & (Hlw & Hlh & Hlg) & Hpx).
  exists (pgm_header img ++ rows_from img 0), loaded.
  split; [apply save_bytes; assumption|]. split; [|split].
  - unfold load. rewrite pgm_file_shape. rewrite extract_magic.
    rewrite bool_decide_eq_true_2 by reflexivity. simpl negb. cbv iota.
    rewrite (extract_unsigned_print 10 (m_width img) 32)
      by (first [reflexivity | exact Hw]).
    rewrite (extract_unsigned_print 32 (m_height img) 10)
      by (first [reflexivity | exact Hh]).
    rewrite extract_maxval. unfold get, good. simpl.
    destruct (release_then_allocate this (m_width img) (m_height img) Hrel)
      as (this1 & Hde & Hw1 & Hh1 & Hal).
    cbv zeta. rewrite Hde. rewrite bind_Done. rewrite Hal, ?Hw1, ?Hh1.
    etransitivity; [apply (f_equal (mbind _)); exact Hrun|]. reflexivity.
  - destruct Hg as (rows & Hd & Hshape). simpl in Hlw, Hlh.
    constructor; [rewrite Hlw; exact Hw | rewrite Hlh; exact Hh |].
    rewrite Hd, Hlw, Hlh. exact Hshape.
  - simpl in Hlw, Hlh. split; [exact Hlw|]. split; [exact Hlh|].
    rewrite Hlw, Hlh. intros y x Hy Hx. rewrite (Hpx y x Hy Hx).
    destruct (load_px_value img y x Hwf Hinit Hy Hx) as (_ & Hc).
    rewrite Hc. reflexivity.
Qed.

Lemma C2_save_load_roundtrip_witness :
  exists bytes loaded,
    save true sample_2x2 = Done (true, bytes) /\
    load (Some bytes) Image_default = Done (true, loaded) /\
    wf_image loaded /\ same_pixels loaded sample_2x2.
Proof.
  apply (C2_save_load_roundtrip sample_2x2 Image_default);
    first [ exact sample_2x2_wf | exact sample_2x2_initialized
          | simpl; lia | exact I ].
Defined.

(** The file written for the 2 by 2 sample, and the image read back. *)
Example save_sample :
  save true sample_2x2
  = Done (true, [80; 53; 10; 50; 32; 50; 10; 50; 53; 53; 10; 1; 10; 32; 255]).
Proof. reflexivity. Qed.

Example load_sample :
  load (Some [80; 53; 10; 50; 32; 50; 10; 50; 53; 53; 10; 1; 10; 32; 255])
    Image_default
  = Done (true, sample_2x2).
Proof. reflexivity. Qed.

(** A file with another magic token is refused and the image keeps its
    state. *)
Example load_wrong_magic :
  load (Some [80; 54; 10; 50; 32; 50; 10; 50; 53; 53; 10; 1; 10; 32; 255])
    sample_1x2
  = Done (false, sample_1x2).
Proof. reflexivity. Qed.

(** A file that ends before the last pixel: the image is loaded with the
    missing byte indeterminate. *)
Example load_truncated :
  load (Some [80; 53; 32; 50; 32; 50; 32; 50; 53; 53; 10; 1; 2; 3])
    Image_default
  = Done (true, image_of_rows 2 2 [[Px 1; Px 2]; [Px 3; Indet]]).
Proof. reflexivity. Qed.

(** Loading a taller image into an image that already has a buffer releases
    rows that the old row table does not have. *)
Example load_into_shorter :
  load (Some [80; 53; 10; 50; 32; 50; 10; 50; 53; 53; 10; 1; 10; 32; 255])
    black_3x1
  = Undefined.
Proof. reflexivity. Qed.

(** ** Results of the pixelwise operations *)

Lemma to_uchar_range z : uchar_range (to_uchar z).
Proof.
  unfold uchar_range, to_uchar. pose proof (Z.mod_pos_bound z 256 ltac:(lia)).
  lia.
Qed.

(** A byte that can be read lies inside the buffer. *)
Lemma load_cell_inside img h w y x c :
  grid img h w -> 0 <= h -> 0 <= w -> load_cell img y x = Done c ->
  0 <= y < h /\ 0 <= x < w.
Proof.
  intros (rows & Hd & Hlen & Hall) Hh Hw. unfold load_cell. rewrite Hd.
  destruct (Z.ltb_spec y 0); [discriminate|].
  destruct (Z.ltb_spec x 0); [discriminate|]. simpl.
  destruct (rows !! Z.to_nat y) as [r|] eqn:Hr; [|discriminate].
  destruct (r !! Z.to_nat x) as [c'|] eqn:Hc; [|discriminate]. intros _.
  apply lookup_lt_Some in Hr as Hy.
  assert (Hlr : length r = Z.to_nat w)
    by (eapply (proj1 (Forall_lookup _ _) Hall); eauto).
  apply lookup_lt_Some in Hc. lia.
Qed.

(** The pixel loop on a fresh image with a right-hand side that yields pixel
    values: the result is a well-formed image that holds these values. *)
Lemma pixel_loop_values h w rhs (g : Z -> Z -> Z) :
  uint_range h -> uint_range w ->
  (forall y x, 0 <= y < h -> 0 <= x < w ->
     rhs y x = Done (Px (g y x)) /\ uchar_range (g y x)) ->
  exists r, pixel_loop h w rhs (Image_wh w h) = Done r /\
    wf_image r /\ initialized r /\ m_width r = w /\ m_height r = h /\
    forall y x, 0 <= y < h -> 0 <= x < w ->
      load_cell r y x = Done (Px (g y x)).
Proof.
  intros Hh Hw Hrhs.
  destruct (pixel_loop_spec h w rhs (fun y x => Px (g y x)) (Image_wh w h))
    as (r & Hrun & Hg & (Hw' & Hh' & _) & Hpx);
    [apply Image_wh_grid | apply Hh | apply Hw | |].
  { intros y x Hy Hx. apply Hrhs; assumption. }
  exists r. split; [exact Hrun|]. simpl in Hw', Hh'.
  split; [|split; [|split; [exact Hw' | split; [exact Hh' | exact Hpx]]]].
  - destruct Hg as (rows & Hd & Hshape).
    constructor; [rewrite Hw'; exact Hw | rewrite Hh'; exact Hh |].
    rewrite Hd, Hw', Hh'. exact Hshape.
  - intros y x c Hc.
    destruct (load_cell_inside r h w y x c Hg) as (Hy & Hx);
      [apply Hh | apply Hw | exact Hc |].
    rewrite (Hpx y x Hy Hx) in Hc. inversion Hc; subst.
    exists (g y x). split; [reflexivity|]. apply Hrhs; assumption.
Qed.

(** The value of a pixel of a well-formed, initialised image is a byte, and
    it is what the two ways of reading yield. *)
Lemma pixel_value_spec img y x :
  wf_image img -> initialized img ->
  0 <= y < m_height img -> 0 <= x < m_width img ->
  load_cell img y x = Done (Px (pixel_value img y x)) /\
  load_px img y x = Done (pixel_value img y x) /\
  uchar_range (pixel_value img y x).
Proof.
  intros Hwf Hinit Hy Hx.
  destruct (wf_load_px img y x Hwf Hinit Hy Hx) as (v & Hc & Hp & Hv).
  unfold pixel_value. rewrite Hc. auto.
Qed.

Lemma pixel_value_of_cell img y x v :
  load_cell img y x = Done (Px v) -> pixel_value img y x = v.
Proof. intros H. unfold pixel_value. rewrite H. reflexivity. Qed.

(** [Image::operator+(unsigned char)] on any image. *)
Lemma plus_scalar_spec img c :
  wf_image img -> initialized img -> uchar_range c ->
  exists r, operator_plus_scalar img c = Done r /\
    wf_image r /\ initialized r /\
    m_width r = m_width img /\ m_height r = m_height img /\
    forall y x, 0 <= y < m_height img -> 0 <= x < m_width img ->
      load_cell r y x = Done (Px (Z.min 255 (pixel_value img y x + c))).
Proof.
  intros Hwf Hinit Hc. unfold operator_plus_scalar.
  apply pixel_loop_values; [apply Hwf | apply Hwf |].
  intros y x Hy Hx.
  destruct (pixel_value_spec img y x Hwf Hinit Hy Hx) as (_ & Hp & Hv).
  rewrite Hp. simpl. unfold uchar_range in *.
  rewrite to_uchar_id by (unfold uchar_range; lia).
  split; [reflexivity | lia].
Qed.

(** [Image::operator-(unsigned char)] on any image. *)
Lemma minus_scalar_spec img c :
  wf_image img -> initialized img -> uchar_range c ->
  exists r, operator_minus_scalar img c = Done r /\
    wf_image r /\ initialized r /\
    m_width r = m_width img /\ m_height r = m_height img /\
    forall y x, 0 <= y < m_height img -> 0 <= x < m_width img ->
      load_cell r y x = Done (Px (Z.max 0 (pixel_value img y x - c))).
Proof.
  intros Hwf Hinit Hc. unfold operator_minus_scalar.
  apply pixel_loop_values; [apply Hwf | apply Hwf |].
  intros y x Hy Hx.
  destruct (pixel_value_spec img y x Hwf Hinit Hy Hx) as (_ & Hp & Hv).
  rewrite Hp. simpl. unfold uchar_range in *.
  rewrite to_uchar_id by (unfold uchar_range; lia).
  split; [reflexivity | lia].
Qed.

Lemma same_dims_test a b :
  m_width a = m_width b -> m_height a = m_height b ->
  negb (m_width a =? m_width b) || negb (m_height a =? m_height b) = false.
Proof. intros -> ->. rewrite !Z.eqb_refl. reflexivity. Qed.

(** [Image::operator+(const Image&)] on images of equal dimensions. *)
Lemma plus_spec a b :
  wf_image a -> wf_image b -> initialized a -> initialized b ->
  m_width a = m_width b -> m_height a = m_height b ->
  exists r, operator_plus a b = Done r /\
    wf_image r /\ initialized r /\
    m_width r = m_width a /\ m_height r = m_height a /\
    forall y x, 0 <= y < m_height a -> 0 <= x < m_width a ->
      load_cell r y x
      = Done (Px (Z.min 255 (pixel_value a y x + pixel_value b y x))).
Proof.
  intros Hwa Hwb Hia Hib Hw Hh. unfold operator_plus.
  rewrite (same_dims_test a b Hw Hh).
  apply pixel_loop_values; [apply Hwa | apply Hwa |].
  intros y x Hy Hx.
  destruct (pixel_value_spec a y x Hwa Hia Hy Hx) as (_ & Hpa & Hva).
  destruct (pixel_value_spec b y x Hwb Hib) as (_ & Hpb & Hvb); [lia | lia |].
  rewrite Hpa, Hpb. simpl. unfold uchar_range in *.
  rewrite to_uchar_id by (unfold uchar_range; lia).
  split; [reflexivity | lia].
Qed.

(** [Image::operator-(const Image&)] on images of equal dimensions. *)
Lemma minus_spec a b :
  wf_image a -> wf_image b -> initialized a -> initialized b ->
  m_width a = m_width b -> m_height a = m_height b ->
  exists r, operator_minus a b = Done r /\
    wf_image r /\ initialized r /\
    m_width r = m_width a /\ m_height r = m_height a /\
    forall y x, 0 <= y < m_height a -> 0 <= x < m_width a ->
      load_cell r y x
      = Done (Px (Z.max 0 (pixel_value a y x - pixel_value b y x))).
Proof.
  intros Hwa Hwb Hia Hib Hw Hh. unfold operator_minus.
  rewrite (same_dims_test a b Hw Hh).
  apply pixel_loop_values; [apply Hwa | apply Hwa |].
  intros y x Hy Hx.
  destruct (pixel_value_spec a y x Hwa Hia Hy Hx) as (_ & Hpa & Hva).
  destruct (pixel_value_spec b y x Hwb Hib) as (_ & Hpb & Hvb); [lia | lia |].
  rewrite Hpa, Hpb. simpl. unfold uchar_range in *.
  rewrite to_uchar_id by (unfold uchar_range; lia).
  split; [reflexivity | lia].
Qed.

(** [Image::zeros] and [Image::ones]. *)
Lemma fill_spec w h v :
  uint_range w -> uint_range h -> uchar_range v ->
  exists r, pixel_loop h w (fun _ _ => Done (Px v)) (Image_wh w h) = Done r /\
    wf_image r /\ initialized r /\ m_width r = w /\ m_height r = h /\
    constant_image r v.
Proof.
  intros Hw Hh Hv.
  destruct (pixel_loop_values h w (fun _ _ => Done (Px v)) (fun _ _ => v) Hh Hw)
    as (r & Hrun & Hwf & Hinit & Hw' & Hh' & Hpx).
  { intros; split; [reflexivity | exact Hv]. }
  exists r. repeat (split; [assumption|]).
  unfold constant_image. rewrite Hw', Hh'. exact Hpx.
Qed.

(** X1. [Image::zeros(w, h)] and [Image::ones(w, h)] return well-formed
    images of [w] by [h] pixels; every pixel of the first is 0 and every
    pixel of the second is 255. *)
Theorem X1_zeros_ones (w h : Z) :
  uint_range w -> uint_range h ->
  (exists r, zeros w h = Done r /\ wf_image r /\ initialized r /\
     m_width r = w /\ m_height r = h /\ constant_image r 0) /\
  (exists r, ones w h = Done r /\ wf_image r /\ initialized r /\
     m_width r = w /\ m_height r = h /\ constant_image r 255).
Proof.
  intros Hw Hh. split; apply fill_spec; try assumption;
    unfold uchar_range; lia.
Qed.

Lemma X1_zeros_ones_witness :
  (exists r, zeros 3 2 = Done r /\ wf_image r /\ initialized r /\
     m_width r = 3 /\ m_height r = 2 /\ constant_image r 0) /\
  (exists r, ones 3 2 = Done r /\ wf_image r /\ initialized r /\
     m_width r = 3 /\ m_height r = 2 /\ constant_image r 255).
Proof. apply (X1_zeros_ones 3 2); unfold uint_range, UINT_MAX; lia. Defined.

(** X2. Adding the byte [c] to every pixel and subtracting it again gives, at
    every pixel, [min(v, 255 - c)] for the original value [v]: the image comes
    back exactly where no pixel saturated, and saturated pixels stay at
    [255 - c]. *)
Theorem X2_add_then_subtract (img : Image) (c : Z) :
  wf_image img -> initialized img -> uchar_range c ->
  exists r1 r2,
    operator_plus_scalar img c = Done r1 /\
    operator_minus_scalar r1 c = Done r2 /\
    m_width r2 = m_width img /\ m_height r2 = m_height img /\
    forall y x, 0 <= y < m_height img -> 0 <= x < m_width img ->
      load_cell r2 y x = Done (Px (Z.min (pixel_value img y x) (255 - c))).
Proof.
  intros Hwf Hinit Hc.
  destruct (plus_scalar_spec img c Hwf Hinit Hc)
    as (r1 & Hr1 & Hwf1 & Hinit1 & Hw1 & Hh1 & Hpx1).
  destruct (minus_scalar_spec r1 c Hwf1 Hinit1 Hc)
    as (r2 & Hr2 & _ & _ & Hw2 & Hh2 & Hpx2).
  exists r1, r2. split; [exact Hr1|]. split; [exact Hr2|].
  split; [congruence|]. split; [congruence|].
  intros y x Hy Hx. rewrite Hpx2 by lia.
  rewrite (pixel_value_of_cell r1 y x _ (Hpx1 y x Hy Hx)).
  destruct (pixel_value_spec img y x Hwf Hinit Hy Hx) as (_ & _ & Hv).
  unfold uchar_range in *. f_equal. f_equal. lia.
Qed.

(** X3. For two images of equal dimensions, [(a - b) + b] is the pixelwise
    maximum of [a] and [b]. *)
Theorem X3_subtract_then_add (a b : Image) :
  wf_image a -> wf_image b -> initialized a -> initialized b ->
  m_width a = m_width b -> m_height a = m_height b ->
  exists d r,
    operator_minus a b = Done d /\ operator_plus d b = Done r /\
    m_width r = m_width a /\ m_height r = m_height a /\
    forall y x, 0 <= y < m_height a -> 0 <= x < m_width a ->
      load_cell r y x
      = Done (Px (Z.max (pixel_value a y x) (pixel_value b y x))).
Proof.
  intros Hwa Hwb Hia Hib Hw Hh.
  destruct (minus_spec a b Hwa Hwb Hia Hib Hw Hh)
    as (d & Hd & Hwd & Hid & Hwd' & Hhd' & Hpd).
  destruct (plus_spec d b Hwd Hwb Hid Hib) as (r & Hr & _ & _ & Hwr & Hhr & Hpr);
    [congruence | congruence |].
  exists d, r. split; [exact Hd|]. split; [exact Hr|].
  split; [congruence|]. split; [congruence|].
  intros y x Hy Hx. rewrite Hpr by lia.
  rewrite (pixel_value_of_cell d y x _ (Hpd y x Hy Hx)).
  destruct (pixel_value_spec a y x Hwa Hia Hy Hx) as (_ & _ & Hva).
  destruct (pixel_value_spec b y x Hwb Hib) as (_ & _ & Hvb); [lia | lia |].
  unfold uchar_range in *. f_equal. f_equal. lia.
Qed.

(** X4. Addition of images of equal dimensions is associative: [(a + b) + c]
    and [a + (b + c)] both complete and hold [min(255, a[p] + b[p] + c[p])]
    at every pixel [p]. *)
Theorem X4_plus_associative (a b c : Image) :
  wf_image a -> wf_image b -> wf_image c ->
  initialized a -> initialized b -> initialized c ->
  m_width a = m_width b -> m_height a = m_height b ->
  m_width b = m_width c -> m_height b = m_height c ->
  exists ab bc l r,
    operator_plus a b = Done ab /\ operator_plus ab c = Done l /\
    operator_plus b c = Done bc /\ operator_plus a bc = Done r /\
    same_pixels l r /\
    forall y x, 0 <= y < m_height a -> 0 <= x < m_width a ->
      load_cell l y x
      = Done (Px (Z.min 255 (pixel_value a y x + pixel_value b y x
                             + pixel_value c y x))).
Proof.
  intros Hwa Hwb Hwc Hia Hib Hic Hw1 Hh1 Hw2 Hh2.
  destruct (plus_spec a b Hwa Hwb Hia Hib Hw1 Hh1)
    as (ab & Hab & Hwab & Hiab & Hwab' & Hhab' & Hpab).
  destruct (plus_spec ab c Hwab Hwc Hiab Hic)
    as (l & Hl & _ & _ & Hwl & Hhl & Hpl); [congruence | congruence |].
  destruct (plus_spec b c Hwb Hwc Hib Hic Hw2 Hh2)
    as (bc & Hbc & Hwbc & Hibc & Hwbc' & Hhbc' & Hpbc).
  destruct (plus_spec a bc Hwa Hwbc Hia Hibc)
    as (r & Hr & _ & _ & Hwr & Hhr & Hpr); [congruence | congruence |].
  assert (Hleft : forall y x, 0 <= y < m_height a -> 0 <= x < m_width a ->
    load_cell l y x
    = Done (Px (Z.min 255 (pixel_value a y x + pixel_value b y x
                           + pixel_value c y x)))).
  { intros y x Hy Hx. rewrite Hpl by lia.
    rewrite (pixel_value_of_cell ab y x _ (Hpab y x Hy Hx)).
    destruct (pixel_value_spec a y x Hwa Hia Hy Hx) as (_ & _ & Hva).
    destruct (pixel_value_spec b y x Hwb Hib) as (_ & _ & Hvb); [lia | lia |].
    destruct (pixel_value_spec c y x Hwc Hic) as (_ & _ & Hvc); [lia | lia |].
    unfold uchar_range in *. f_equal. f_equal. lia. }
  exists ab, bc, l, r. repeat (split; [assumption|]).
  split; [|exact Hleft].
  split; [congruence|]. split; [congruence|].
  intros y x Hy Hx. rewrite Hleft by lia. rewrite Hpr by lia.
  rewrite (pixel_value_of_cell bc y x _ (Hpbc y x ltac:(lia) ltac:(lia))).
  destruct (pixel_value_spec a y x Hwa Hia) as (_ & _ & Hva); [lia | lia |].
  destruct (pixel_value_spec b y x Hwb Hib) as (_ & _ & Hvb); [lia | lia |].
  destruct (pixel_value_spec c y x Hwc Hic) as (_ & _ & Hvc); [lia | lia |].
  unfold uchar_range in *. f_equal. f_equal. lia.
Qed.

Lemma gray200_2x2_wf : wf_image gray200_2x2.
Proof. solve_wf. Qed.

Lemma gray200_2x2_initialized : initialized gray200_2x2.
Proof.
  intros y x c H. unfold load_cell in H. simpl in H.
  destruct ((y <? 0) || (x <? 0)); [discriminate|].
  destruct (Z.to_nat y) as [|[|[|n]]]; simpl in H; try discriminate;
    destruct (Z.to_nat x) as [|[|[|m]]]; simpl in H; try discriminate;
    inversion H; eexists; (split; [reflexivity | unfold uchar_range; lia]).
Qed.

Lemma X2_add_then_subtract_witness :
  exists r1 r2,
    operator_plus_scalar sample_2x2 100 = Done r1 /\
    operator_minus_scalar r1 100 = Done r2 /\
    m_width r2 = m_width sample_2x2 /\ m_height r2 = m_height sample_2x2 /\
    forall y x, 0 <= y < m_height sample_2x2 -> 0 <= x < m_width sample_2x2 ->
      load_cell r2 y x
      = Done (Px (Z.min (pixel_value sample_2x2 y x) (255 - 100))).
Proof.
  apply (X2_add_then_subtract sample_2x2 100);
    [ exact sample_2x2_wf | exact sample_2x2_initialized
    | unfold uchar_range; lia ].
Defined.

Lemma X3_subtract_then_add_witness :
  exists d r,
    operator_minus sample_2x2 gray200_2x2 = Done d /\
    operator_plus d gray200_2x2 = Done r /\
    m_width r = m_width sample_2x2 /\ m_height r = m_height sample_2x2 /\
    forall y x, 0 <= y < m_height sample_2x2 -> 0 <= x < m_width sample_2x2 ->
      load_cell r y x
      = Done (Px (Z.max (pixel_value sample_2x2 y x)
                        (pixel_value gray200_2x2 y x))).
Proof.
  apply (X3_subtract_then_add sample_2x2 gray200_2x2);
    first [ exact sample_2x2_wf | exact gray200_2x2_wf
          | exact sample_2x2_initialized | exact gray200_2x2_initialized
          | reflexivity ].
Defined.

Lemma X4_plus_associative_witness :
  exists ab bc l r,
    operator_plus sample_2x2 gray200_2x2 = Done ab /\
    operator_plus ab sample_2x2 = Done l /\
    operator_plus gray200_2x2 sample_2x2 = Done bc /\
    operator_plus sample_2x2 bc = Done r /\
    same_pixels l r /\
    forall y x, 0 <= y < m_height sample_2x2 -> 0 <= x < m_width sample_2x2 ->
      load_cell l y x
      = Done (Px (Z.min 255 (pixel_value sample_2x2 y x
                             + pixel_value gray200_2x2 y x
                             + pixel_value sample_2x2 y x))).
Proof.
  apply (X4_plus_associative sample_2x2 gray200_2x2 sample_2x2);
    first [ exact sample_2x2_wf | exact gray200_2x2_wf
          | exact sample_2x2_initialized | exact gray200_2x2_initialized
          | reflexivity ].
Defined.

(** ** Copying *)

Lemma copyFrom_spec this other :
  wf_image other ->
  exists c, copyFrom this other = Done c /\
    copyFrom Image_default other = Done c /\
    wf_image c /\ same_pixels c other /\ m_data c <> None /\
    m_isGrayscale c = m_isGrayscale other.
Proof.
  intros Hwf. unfold copyFrom. cbv zeta.
  set (this1 := allocateMemory _).
  assert (Hg : grid this1 (m_height other) (m_width other)).
  { eexists. split; [reflexivity|]. apply shape_replicate. }
  pose (f := fun i j =>
    match load_cell other i j with Done c => c | _ => Indet end).
  destruct (pixel_loop_spec (m_height other) (m_width other)
              (fun i j => load_cell other i j) f this1 Hg)
    as (c & Hrun & Hgc & (Hw & Hh & Hgr) & Hpx); [apply Hwf | apply Hwf | |].
  { intros i j Hi Hj. destruct (wf_load other i j Hwf Hi Hj) as (c & Hc).
    unfold f. rewrite Hc. reflexivity. }
  exists c. change (m_height this1) with (m_height other).
  change (m_width this1) with (m_width other).
  split; [exact Hrun|]. split; [exact Hrun|].
  change (m_width this1) with (m_width other) in Hw.
  change (m_height this1) with (m_height other) in Hh.
  change (m_isGrayscale this1) with (m_isGrayscale other) in Hgr.
  split; [|split; [|split; [|exact Hgr]]].
  - destruct Hgc as (rows & Hd & Hs).
    constructor; [rewrite Hw; apply Hwf | rewrite Hh; apply Hwf |].
    rewrite Hd, Hw, Hh. exact Hs.
  - split; [exact Hw|]. split; [exact Hh|].
    intros y x Hy Hx. rewrite Hw in Hx. rewrite Hh in Hy.
    rewrite (Hpx y x Hy Hx).
    destruct (wf_load other y x Hwf Hy Hx) as (c' & Hc).
    unfold f. rewrite Hc. reflexivity.
  - destruct Hgc as (rows & Hd & _). congruence.
Qed.

(** X5. the copy constructor and the assignment operator give the same
    image: a well-formed image of the dimensions of [other] with a buffer of
    its own that holds the bytes of [other]; nothing of the old content of
    the assigned image remains. *)
Theorem X5_copy_and_assign this other :
  wf_image this -> wf_image other ->
  exists c, Image_copy other = Done c /\ operator_assign this other = Done c /\
    wf_image c /\ same_pixels c other /\ m_data c <> None /\
    m_isGrayscale c = m_isGrayscale other.
Proof.
  intros Hthis Hother. unfold Image_copy, operator_assign.
  rewrite (deallocateMemory_wf this Hthis), bind_Done.
  destruct (copyFrom_spec (set_data this None) other Hother)
    as (c & H1 & H2 & Hwf & Hsame & Hd & Hgr).
  exists c. auto 10.
Qed.

Lemma X5_copy_and_assign_witness :
  exists c, Image_copy sample_2x2 = Done c /\
    operator_assign black_3x3 sample_2x2 = Done c /\
    wf_image c /\ same_pixels c sample_2x2 /\ m_data c <> None /\
    m_isGrayscale c = m_isGrayscale sample_2x2.
Proof.
  apply (X5_copy_and_assign black_3x3 sample_2x2);
    [exact black_3x3_wf | exact sample_2x2_wf].
Defined.

(** ** Multiplication by a scalar *)

Lemma cast_is_spec f z : cast_is f z = true -> double_to_int f = Done z.
Proof.
  unfold cast_is. destruct (double_to_int f) as [v| |]; try discriminate.
  intros H. apply Z.eqb_eq in H. congruence.
Qed.

Lemma all_from_spec lo n p z :
  all_from lo n p = true -> lo <= z < lo + n -> p z = true.
Proof.
  unfold all_from. intros H Hz.
  apply (proj1 (forallb_forall p (seqZ lo n)) H).
  apply list_elem_of_In, elem_of_seqZ. exact Hz.
Qed.

(** The product of a pixel value and an integer between -255 and 255 is
    computed exactly. *)
Lemma times_table :
  all_from 0 256 (fun v => all_from (-255) 511 (fun k =>
    cast_is (PrimFloat.mul (double_of_int v) (double_of_int k)) (v * k)))
  = true.
Proof. vm_compute. reflexivity. Qed.

Lemma times_exact v k :
  uchar_range v -> -255 <= k <= 255 ->
  double_to_int (PrimFloat.mul (double_of_int v) (double_of_int k))
  = Done (v * k).
Proof.
  intros Hv Hk. apply cast_is_spec.
  assert (H := all_from_spec 0 256 _ v times_table). cbv beta in H.
  apply (all_from_spec (-255) 511
           (fun k => cast_is (PrimFloat.mul (double_of_int v) (double_of_int k))
                       (v * k)) k); [|lia].
  apply H. unfold uchar_range in Hv. lia.
Qed.

(** X7. [operator*] with a scalar that is an integer [k] between -255 and
    255: every pixel [v] becomes the low byte of [min(255, v * k)].  For
    [k >= 0] that is [min(255, v * k)]; a negative product is not clamped to
    0 but wraps around. *)
Theorem X7_operator_times_integer img k :
  wf_image img -> initialized img -> -255 <= k <= 255 ->
  exists r, operator_times img (double_of_int k) = Done r /\
    wf_image r /\ initialized r /\
    m_width r = m_width img /\ m_height r = m_height img /\
    forall y x, 0 <= y < m_height img -> 0 <= x < m_width img ->
      load_cell r y x
        = Done (Px (to_uchar (Z.min 255 (pixel_value img y x * k)))) /\
      (0 <= k ->
       load_cell r y x = Done (Px (Z.min 255 (pixel_value img y x * k)))).
Proof.
  intros Hwf Hinit Hk.
  destruct (pixel_loop_values (m_height img) (m_width img)
    (fun y x =>
       a ← load_px img y x;
       v ← double_to_int (PrimFloat.mul (double_of_int a) (double_of_int k));
       Done (Px (to_uchar (Z.min 255 v))))
    (fun y x => to_uchar (Z.min 255 (pixel_value img y x * k))))
    as (r & Hrun & Hwfr & Hir & Hw & Hh & Hpx); [apply Hwf | apply Hwf | |].
  { intros y x Hy Hx.
    destruct (pixel_value_spec img y x Hwf Hinit Hy Hx) as (_ & Hp & Hv).
    rewrite Hp, bind_Done, (times_exact _ k Hv Hk), bind_Done.
    split; [reflexivity | apply to_uchar_range]. }
  exists r. unfold operator_times. split; [exact Hrun|].
  split; [exact Hwfr|]. split; [exact Hir|]. split; [exact Hw|].
  split; [exact Hh|]. intros y x Hy Hx. rewrite (Hpx y x Hy Hx).
  destruct (pixel_value_spec img y x Hwf Hinit Hy Hx) as (_ & _ & Hv).
  unfold uchar_range in Hv. set (v := pixel_value img y x) in *.
  split; [reflexivity|].
  intros Hk0. rewrite to_uchar_id; [reflexivity|].
  unfold uchar_range. nia.
Qed.

Lemma X7_operator_times_integer_witness :
  exists r, operator_times sample_2x2 (double_of_int 3) = Done r /\
    wf_image r /\ initialized r /\
    m_width r = m_width sample_2x2 /\ m_height r = m_height sample_2x2.
Proof.
  destruct (X7_operator_times_integer sample_2x2 3 sample_2x2_wf
              sample_2x2_initialized ltac:(lia))
    as (r & H1 & H2 & H3 & H4 & H5 & _).
  exists r. auto.
Defined.

(** Multiplying by -1 turns 1 into 255, 10 into 246 and 32 into 224. *)
Example operator_times_negative :
  operator_times sample_2x2 (-1)%float
  = Done (image_of_rows 2 2 [[Px 255; Px 246]; [Px 224; Px 1]]).
Proof. reflexivity. Qed.

(** ** Points and rectangles *)

Lemma to_int_id z : int_range z -> to_int z = z.
Proof.
  unfold int_range, INT_MIN, INT_MAX. intros H.
  destruct (Z_lt_le_dec z 0) as [Hn|Hp].
  - unfold to_int.
    replace (z mod 4294967296) with (z + 4294967296).
    + destruct (Z.ltb_spec (z + 4294967296) 2147483648); lia.
    + apply Z.mod_unique with (q := -1); lia.
  - apply to_int_small. lia.
Qed.

Lemma to_unsigned_range z : uint_range (to_unsigned z).
Proof.
  unfold to_unsigned, uint_range, UINT_MAX.
  pose proof (Z.mod_pos_bound z 4294967296). lia.
Qed.

Lemma to_int_range z : int_range (to_int z).
Proof.
  unfold to_int, int_range, INT_MIN, INT_MAX.
  pose proof (Z.mod_pos_bound z 4294967296).
  cbv zeta. destruct (Z.ltb_spec (z mod 4294967296) 2147483648); lia.
Qed.

(** [to_int] and [to_unsigned] change a value by a multiple of 2^32. *)
Lemma to_int_congr z : exists k, to_int z = z + k * 4294967296.
Proof.
  unfold to_int. cbv zeta.
  pose proof (Z.div_mod z 4294967296).
  destruct (Z.ltb_spec (z mod 4294967296) 2147483648).
  - exists (- (z / 4294967296)). lia.
  - exists (- (z / 4294967296) - 1). lia.
Qed.

Lemma to_unsigned_congr z : exists k, to_unsigned z = z + k * 4294967296.
Proof.
  unfold to_unsigned. pose proof (Z.div_mod z 4294967296).
  exists (- (z / 4294967296)). lia.
Qed.

(** The extent computed from a corner built by the constructor. *)
Lemma extent_roundtrip x w :
  int_range x -> uint_range w ->
  (isub (to_int (x + w)) x = Undefined \/
   exists d, isub (to_int (x + w)) x = Done d /\ to_unsigned d = w) /\
  (w <= INT_MAX -> x + w <= INT_MAX ->
   exists d, isub (to_int (x + w)) x = Done d /\ to_unsigned d = w).
Proof.
  intros Hx Hw. split.
  - unfold isub. destruct (int_cases (to_int (x + w) - x)) as [[Hr E]|[Hr E]];
      [right|left; exact E].
    eexists. split; [exact E|].
    destruct (to_int_congr (x + w)) as [k Hk].
    pose proof (to_unsigned_range (to_int (x + w) - x)) as Hu.
    destruct (to_unsigned_congr (to_int (x + w) - x)) as [k' Hk'].
    unfold uint_range, UINT_MAX in *. lia.
  - intros H1 H2. unfold isub.
    rewrite (to_int_id (x + w)) by (unfold int_range, uint_range, INT_MIN, INT_MAX in *; lia).
    replace (x + w - x) with w by lia.
    exists w. split.
    + apply int_in_range. unfold int_range, uint_range, INT_MIN, INT_MAX in *. lia.
    + apply to_unsigned_small. exact Hw.
Qed.

(** X8. the extent given to the constructor is the one the getters return. *)
Theorem X8_Rectangle_constructor_getters x y w h :
  int_range x -> int_range y -> uint_range w -> uint_range h ->
  let r := Rectangle_xywh x y w h in
  Rectangle_getX r = x /\ Rectangle_getY r = y /\
  (Rectangle_getWidth r = Done w \/ Rectangle_getWidth r = Undefined) /\
  (Rectangle_getHeight r = Done h \/ Rectangle_getHeight r = Undefined) /\
  (w <= INT_MAX -> x + w <= INT_MAX -> Rectangle_getWidth r = Done w) /\
  (h <= INT_MAX -> y + h <= INT_MAX -> Rectangle_getHeight r = Done h).
Proof.
  intros Hx Hy Hw Hh r.
  destruct (extent_roundtrip x w Hx Hw) as [Hw1 Hw2].
  destruct (extent_roundtrip y h Hy Hh) as [Hh1 Hh2].
  unfold r, Rectangle_getX, Rectangle_getY, Rectangle_getWidth,
    Rectangle_getHeight, Rectangle_xywh. cbn [topLeft bottomRight getX getY].
  split; [reflexivity|]. split; [reflexivity|].
  split; [|split; [|split]].
  - destruct Hw1 as [E|(d & E & Hd)]; rewrite E; [right; reflexivity|].
    left. rewrite bind_Done. congruence.
  - destruct Hh1 as [E|(d & E & Hd)]; rewrite E; [right; reflexivity|].
    left. rewrite bind_Done. congruence.
  - intros H1 H2. destruct (Hw2 H1 H2) as (d & E & Hd). rewrite E, bind_Done.
    congruence.
  - intros H1 H2. destruct (Hh2 H1 H2) as (d & E & Hd). rewrite E, bind_Done.
    congruence.
Qed.

Lemma X8_Rectangle_constructor_getters_witness :
  Rectangle_getWidth (Rectangle_xywh (-5) 7 20 30) = Done 20
  \/ Rectangle_getWidth (Rectangle_xywh (-5) 7 20 30) = Undefined.
Proof.
  apply (X8_Rectangle_constructor_getters (-5) 7 20 30);
    unfold int_range, uint_range, INT_MIN, INT_MAX, UINT_MAX; lia.
Defined.

Lemma iadd_Done a b c : iadd a b = Done c -> c = a + b /\ int_range (a + b).
Proof.
  unfold iadd. destruct (int_cases (a + b)) as [[Hr E]|[Hr E]]; rewrite E;
    [|discriminate]. intros [= <-]. auto.
Qed.

Lemma isub_Done a b c : isub a b = Done c -> c = a - b /\ int_range (a - b).
Proof.
  unfold isub. destruct (int_cases (a - b)) as [[Hr E]|[Hr E]]; rewrite E;
    [|discriminate]. intros [= <-]. auto.
Qed.

Lemma Point_plus_minus p q p' :
  int_point p -> Point_plus p q = Done p' -> Point_minus p' q = Done p.
Proof.
  intros [Hx Hy] H. unfold Point_plus in H.
  apply bind_Done_inv in H as (x & Ex & H).
  apply bind_Done_inv in H as (y & Ey & H). injection H as <-.
  apply iadd_Done in Ex as [-> _]. apply iadd_Done in Ey as [-> _].
  unfold Point_minus, isub. cbn [getX getY].
  replace (getX p + getX q - getX q) with (getX p) by lia.
  replace (getY p + getY q - getY q) with (getY p) by lia.
  rewrite !int_in_range by assumption. rewrite !bind_Done.
  destruct p; reflexivity.
Qed.

(** X9. translating a rectangle keeps its extent, and translating back by the
    same point restores it. *)
Theorem X9_Rectangle_translation r pt r' :
  int_rect r -> Rectangle_plus r pt = Done r' ->
  Rectangle_minus r' pt = Done r /\
  Rectangle_getWidth r' = Rectangle_getWidth r /\
  Rectangle_getHeight r' = Rectangle_getHeight r.
Proof.
  intros [Htl Hbr] H. unfold Rectangle_plus in H.
  apply bind_Done_inv in H as (tl & Etl & H).
  apply bind_Done_inv in H as (br & Ebr & H). injection H as <-.
  split.
  - unfold Rectangle_minus. cbn [topLeft bottomRight].
    rewrite (Point_plus_minus _ _ _ Htl Etl), bind_Done.
    rewrite (Point_plus_minus _ _ _ Hbr Ebr), bind_Done.
    destruct r; reflexivity.
  - unfold Point_plus in Etl, Ebr.
    apply bind_Done_inv in Etl as (x1 & Ex1 & Etl).
    apply bind_Done_inv in Etl as (y1 & Ey1 & Etl). injection Etl as <-.
    apply bind_Done_inv in Ebr as (x2 & Ex2 & Ebr).
    apply bind_Done_inv in Ebr as (y2 & Ey2 & Ebr). injection Ebr as <-.
    apply iadd_Done in Ex1 as [-> _]. apply iadd_Done in Ey1 as [-> _].
    apply iadd_Done in Ex2 as [-> _]. apply iadd_Done in Ey2 as [-> _].
    unfold Rectangle_getWidth, Rectangle_getHeight, isub.
    cbn [topLeft bottomRight getX getY]. split; do 2 f_equal; lia.
Qed.

Lemma X9_Rectangle_translation_witness :
  Rectangle_minus (Rectangle_xywh (-4) 13 10 20) (mkPoint (-7) 9)
  = Done (Rectangle_xywh 3 4 10 20).
Proof.
  apply (X9_Rectangle_translation (Rectangle_xywh 3 4 10 20) (mkPoint (-7) 9)
           (Rectangle_xywh (-4) 13 10 20)).
  - unfold int_rect, int_point, int_range, INT_MIN, INT_MAX. vm_compute.
    repeat split; discriminate.
  - reflexivity.
Defined.

Lemma to_int_to_unsigned z : to_int (to_unsigned z) = to_int z.
Proof. unfold to_int, to_unsigned. rewrite Zmod_mod. reflexivity. Qed.

Lemma Rectangle_setX_keeps_extent r x r' :
  Rectangle_setX r x = Done r' ->
  Rectangle_getX r' = x /\ Rectangle_getY r' = Rectangle_getY r /\
  Rectangle_getWidth r' = Rectangle_getWidth r /\
  Rectangle_getHeight r' = Rectangle_getHeight r.
Proof.
  intros H. unfold Rectangle_setX in H.
  apply bind_Done_inv in H as (w & Ew & H). cbv zeta in H.
  apply bind_Done_inv in H as (bx & Eb & H). injection H as <-.
  unfold Rectangle_getX, Rectangle_getY, Rectangle_getHeight.
  cbn [topLeft bottomRight getX getY].
  split; [reflexivity|]. split; [reflexivity|]. split; [|reflexivity].
  rewrite Ew. unfold Rectangle_getWidth in *.
  cbn [topLeft bottomRight getX getY].
  apply bind_Done_inv in Ew as (d & Ed & Ew). injection Ew as <-.
  apply isub_Done in Ed as [-> Hd].
  rewrite to_int_to_unsigned, to_int_id in Eb by exact Hd.
  apply iadd_Done in Eb as [-> _]. unfold isub.
  replace (x + (getX (bottomRight r) - getX (topLeft r)) - x)
    with (getX (bottomRight r) - getX (topLeft r)) by lia.
  rewrite int_in_range by exact Hd. reflexivity.
Qed.

Lemma Rectangle_setY_keeps_extent r y r' :
  Rectangle_setY r y = Done r' ->
  Rectangle_getX r' = Rectangle_getX r /\ Rectangle_getY r' = y /\
  Rectangle_getWidth r' = Rectangle_getWidth r /\
  Rectangle_getHeight r' = Rectangle_getHeight r.
Proof.
  intros H. unfold Rectangle_setY in H.
  apply bind_Done_inv in H as (h & Eh & H). cbv zeta in H.
  apply bind_Done_inv in H as (b & Eb & H). injection H as <-.
  unfold Rectangle_getX, Rectangle_getY, Rectangle_getWidth.
  cbn [topLeft bottomRight getX getY].
  split; [reflexivity|]. split; [reflexivity|]. split; [reflexivity|].
  rewrite Eh. unfold Rectangle_getHeight in *.
  cbn [topLeft bottomRight getX getY].
  apply bind_Done_inv in Eh as (d & Ed & Eh). injection Eh as <-.
  apply isub_Done in Ed as [-> Hd].
  rewrite to_int_to_unsigned, to_int_id in Eb by exact Hd.
  apply iadd_Done in Eb as [-> _]. unfold isub.
  replace (y + (getY (bottomRight r) - getY (topLeft r)) - y)
    with (getY (bottomRight r) - getY (topLeft r)) by lia.
  rewrite int_in_range by exact Hd. reflexivity.
Qed.


Lemma extent_small a b w :
  isub a b = Done (a - b) -> to_unsigned (a - b) = w -> w <= INT_MAX ->
  a - b = w /\ to_int w = w.
Proof.
  intros E Hw Hle. apply isub_Done in E as [_ Hd].
  destruct (to_unsigned_congr (a - b)) as [k Hk].
  pose proof (to_unsigned_range (a - b)) as Hu.
  unfold int_range, uint_range, INT_MIN, INT_MAX, UINT_MAX in *.
  assert (a - b = w) by lia. split; [assumption|].
  apply to_int_small. lia.
Qed.

(** X10. a rectangle of width [w] and height [h], both at most [INT_MAX], can
    be moved to any corner [(x, y)] for which [x + w] and [y + h] are [int]s:
    [setX] then [setY] succeed, the getters then return [x] and [y], and the
    extent is still [w] by [h]. *)
Theorem X10_Rectangle_move r x y w h :
  Rectangle_getWidth r = Done w -> Rectangle_getHeight r = Done h ->
  w <= INT_MAX -> h <= INT_MAX ->
  int_range (x + w) -> int_range (y + h) ->
  exists r1 r2,
    Rectangle_setX r x = Done r1 /\ Rectangle_setY r1 y = Done r2 /\
    Rectangle_getX r2 = x /\ Rectangle_getY r2 = y /\
    Rectangle_getWidth r2 = Done w /\ Rectangle_getHeight r2 = Done h.
Proof.
  intros Ew Eh Hw Hh Hxw Hyh.
  assert (Hsx : exists r1, Rectangle_setX r x = Done r1).
  { unfold Rectangle_setX. rewrite Ew, bind_Done. cbv zeta.
    unfold Rectangle_getWidth in Ew.
    apply bind_Done_inv in Ew as (d & Ed & Ew). injection Ew as Ew.
    pose proof (isub_Done _ _ _ Ed) as [-> _].
    destruct (extent_small _ _ _ Ed Ew Hw) as [_ ->].
    unfold iadd. rewrite int_in_range by exact Hxw. rewrite bind_Done. eauto. }
  destruct Hsx as (r1 & E1).
  destruct (Rectangle_setX_keeps_extent _ _ _ E1) as (Hx1 & Hy1 & Hw1 & Hh1).
  assert (Hsy : exists r2, Rectangle_setY r1 y = Done r2).
  { unfold Rectangle_setY. rewrite Hh1, Eh, bind_Done. cbv zeta.
    unfold Rectangle_getHeight in Eh.
    apply bind_Done_inv in Eh as (d & Ed & Eh). injection Eh as Eh.
    pose proof (isub_Done _ _ _ Ed) as [-> _].
    destruct (extent_small _ _ _ Ed Eh Hh) as [_ ->].
    unfold iadd. rewrite int_in_range by exact Hyh. rewrite bind_Done. eauto. }
  destruct Hsy as (r2 & E2).
  destruct (Rectangle_setY_keeps_extent _ _ _ E2) as (Hx2 & Hy2 & Hw2 & Hh2).
  exists r1, r2. repeat split; congruence.
Qed.

Lemma X10_Rectangle_move_witness :
  exists r1 r2,
    Rectangle_setX (Rectangle_xywh 3 4 10 20) (-8) = Done r1 /\
    Rectangle_setY r1 100 = Done r2 /\
    Rectangle_getX r2 = -8 /\ Rectangle_getY r2 = 100 /\
    Rectangle_getWidth r2 = Done 10 /\ Rectangle_getHeight r2 = Done 20.
Proof.
  apply (X10_Rectangle_move (Rectangle_xywh 3 4 10 20) (-8) 100 10 20);
    first [ reflexivity | unfold int_range, INT_MIN, INT_MAX; lia ].
Defined.

(** The right and bottom edges of a rectangle with non-negative corners. *)
Lemma positive_edges r :
  positive_rect r ->
  Rectangle_right r = Done (getX (bottomRight r)) /\
  Rectangle_bottom r = Done (getY (bottomRight r)).
Proof.
  intros (Hx & Hbx & Hy & Hby).
  unfold Rectangle_right, Rectangle_bottom, Rectangle_getWidth,
    Rectangle_getHeight, Rectangle_getX, Rectangle_getY, isub.
  unfold INT_MAX in *.
  rewrite !int_in_range by (unfold int_range, INT_MIN, INT_MAX; lia).
  rewrite !bind_Done.
  rewrite !(to_unsigned_small (_ - _)) by (unfold uint_range, UINT_MAX; lia).
  rewrite !to_unsigned_small by (unfold uint_range, UINT_MAX; lia).
  split; do 2 f_equal; lia.
Qed.

(** X11. For rectangles with non-negative corners, [operator&] returns a
    rectangle that covers exactly the pixels both operands cover.  When the
    operands have no pixel in common the result is the default rectangle
    [Rectangle()]; when they have one, its top-left corner is the
    componentwise maximum of the top-left corners and its bottom-right
    corner the componentwise minimum of the bottom-right corners. *)
Theorem X11_Rectangle_and_covers a b :
  positive_rect a -> positive_rect b ->
  exists r, Rectangle_and a b = Done r /\ positive_rect r /\
    (forall px py, covers r px py <-> covers a px py /\ covers b px py) /\
    ((forall px py, ~ (covers a px py /\ covers b px py)) ->
     r = Rectangle_default) /\
    ((exists px py, covers a px py /\ covers b px py) ->
     r = mkRectangle
           (mkPoint (Z.max (getX (topLeft a)) (getX (topLeft b)))
                    (Z.max (getY (topLeft a)) (getY (topLeft b))))
           (mkPoint (Z.min (getX (bottomRight a)) (getX (bottomRight b)))
                    (Z.min (getY (bottomRight a)) (getY (bottomRight b))))).
Proof.
  intros Ha Hb.
  destruct (positive_edges a Ha) as [Ea1 Ea2].
  destruct (positive_edges b Hb) as [Eb1 Eb2].
  unfold Rectangle_and. rewrite Ea1, Eb1, Ea2, Eb2, !bind_Done. cbv zeta.
  destruct Ha as (Hax & Habx & Hay & Haby), Hb as (Hbx & Hbbx & Hby & Hbby).
  unfold INT_MAX in *.
  rewrite !to_int_small by lia.
  unfold Rectangle_getX, Rectangle_getY.
  set (x1 := Z.max (getX (topLeft a)) (getX (topLeft b))).
  set (y1 := Z.max (getY (topLeft a)) (getY (topLeft b))).
  set (x2 := Z.min (getX (bottomRight a)) (getX (bottomRight b))).
  set (y2 := Z.min (getY (bottomRight a)) (getY (bottomRight b))).
  assert (Hempty : x2 <= x1 \/ y2 <= y1 ->
            forall px py, ~ (covers a px py /\ covers b px py)).
  { unfold covers, x1, x2, y1, y2. intros He px py. lia. }
  destruct (Z.leb_spec x2 x1) as [Hex|Hex];
    [|destruct (Z.leb_spec y2 y1) as [Hey|Hey]]; cbn [orb].
  - exists Rectangle_default. split; [reflexivity|].
    split; [unfold positive_rect, INT_MAX; simpl; lia|].
    split; [|split; [reflexivity|]].
    + intros px py. split.
      * unfold covers. simpl. lia.
      * intros H. exfalso. exact (Hempty (or_introl Hex) px py H).
    + intros (px & py & H). exfalso. exact (Hempty (or_introl Hex) px py H).
  - exists Rectangle_default. split; [reflexivity|].
    split; [unfold positive_rect, INT_MAX; simpl; lia|].
    split; [|split; [reflexivity|]].
    + intros px py. split.
      * unfold covers. simpl. lia.
      * intros H. exfalso. exact (Hempty (or_intror Hey) px py H).
    + intros (px & py & H). exfalso. exact (Hempty (or_intror Hey) px py H).
  - eexists. split; [reflexivity|].
    split; [unfold positive_rect, INT_MAX, x1, x2, y1, y2 in *;
            cbn [topLeft bottomRight getX getY]; lia|].
    split; [|split; [|reflexivity]].
    + intros px py. unfold covers, x1, x2, y1, y2.
      cbn [topLeft bottomRight getX getY]. lia.
    + intros Hnone. exfalso. apply (Hnone x1 y1).
      unfold covers, x1, x2, y1, y2 in *. lia.
Qed.

Lemma X11_Rectangle_and_covers_witness :
  exists r,
    Rectangle_and (Rectangle_xywh 0 0 10 10) (Rectangle_xywh 5 2 10 3)
      = Done r /\ positive_rect r /\
    (forall px py, covers r px py <->
       covers (Rectangle_xywh 0 0 10 10) px py /\
       covers (Rectangle_xywh 5 2 10 3) px py) /\
    ((forall px py, ~ (covers (Rectangle_xywh 0 0 10 10) px py /\
                       covers (Rectangle_xywh 5 2 10 3) px py)) ->
     r = Rectangle_default) /\
    ((exists px py, covers (Rectangle_xywh 0 0 10 10) px py /\
                    covers (Rectangle_xywh 5 2 10 3) px py) ->
     r = mkRectangle (mkPoint 5 2) (mkPoint 10 5)).
Proof.
  apply (X11_Rectangle_and_covers (Rectangle_xywh 0 0 10 10) (Rectangle_xywh 5 2 10 3));
    unfold positive_rect, INT_MAX; vm_compute; repeat split; discriminate.
Defined.

(** Two rectangles side by side have no pixel in common. *)
Example Rectangle_and_disjoint :
  Rectangle_and (Rectangle_xywh 0 0 4 4) (Rectangle_xywh 4 0 4 4)
  = Done Rectangle_default.
Proof. reflexivity. Qed.

(** With a negative coordinate the unsigned [std::min] picks the wrong edge:
    the result covers a pixel the first operand does not cover. *)
Example Rectangle_and_negative :
  Rectangle_and (Rectangle_xywh (-3) 0 2 1) (Rectangle_xywh (-2) 0 7 1)
    = Done (mkRectangle (mkPoint (-2) 0) (mkPoint 5 1)) /\
  covers (mkRectangle (mkPoint (-2) 0) (mkPoint 5 1)) 0 0 /\
  ~ covers (Rectangle_xywh (-3) 0 2 1) 0 0.
Proof.
  split; [reflexivity|]. unfold covers. vm_compute.
  split; [repeat split; discriminate|].
  intros [[_ H] _]. discriminate H.
Qed.

(** X12. for rectangles with non-negative corners, [operator|] returns the
    bounding box of the corners: it covers every pixel either operand
    covers. *)
Theorem X12_Rectangle_or_covers a b :
  positive_rect a -> positive_rect b ->
  exists r, Rectangle_or a b = Done r /\ positive_rect r /\
    getX (topLeft r) = Z.min (getX (topLeft a)) (getX (topLeft b)) /\
    getY (topLeft r) = Z.min (getY (topLeft a)) (getY (topLeft b)) /\
    getX (bottomRight r) = Z.max (getX (bottomRight a)) (getX (bottomRight b)) /\
    getY (bottomRight r) = Z.max (getY (bottomRight a)) (getY (bottomRight b)) /\
    forall px py, covers a px py \/ covers b px py -> covers r px py.
Proof.
  intros Ha Hb.
  destruct (positive_edges a Ha) as [Ea1 Ea2].
  destruct (positive_edges b Hb) as [Eb1 Eb2].
  unfold Rectangle_or. rewrite Ea1, Eb1, Ea2, Eb2, !bind_Done. cbv zeta.
  destruct Ha as (Hax & Habx & Hay & Haby), Hb as (Hbx & Hbbx & Hby & Hbby).
  unfold INT_MAX in *.
  rewrite !to_int_small by lia.
  unfold Rectangle_getX, Rectangle_getY.
  eexists. split; [reflexivity|].
  unfold positive_rect, covers, INT_MAX.
  cbn [topLeft bottomRight getX getY].
  repeat split; try reflexivity; lia.
Qed.

Lemma X12_Rectangle_or_covers_witness :
  exists r,
    Rectangle_or (Rectangle_xywh 0 0 10 10) (Rectangle_xywh 5 2 10 3)
      = Done r /\ positive_rect r.
Proof.
  destruct (X12_Rectangle_or_covers (Rectangle_xywh 0 0 10 10)
              (Rectangle_xywh 5 2 10 3)) as (r & E & H & _);
    [ unfold positive_rect, INT_MAX; vm_compute; repeat split; discriminate ..
    | exists r; split; assumption ].
Defined.

Lemma edges_cases r :
  ((exists v, Rectangle_right r = Done v) \/ Rectangle_right r = Undefined) /\
  ((exists v, Rectangle_bottom r = Done v) \/ Rectangle_bottom r = Undefined).
Proof.
  unfold Rectangle_right, Rectangle_bottom, Rectangle_getWidth,
    Rectangle_getHeight, isub.
  split.
  - destruct (int_cases (getX (bottomRight r) - getX (topLeft r)))
      as [[_ E]|[_ E]]; rewrite E; [left; eexists; reflexivity | right; reflexivity].
  - destruct (int_cases (getY (bottomRight r) - getY (topLeft r)))
      as [[_ E]|[_ E]]; rewrite E; [left; eexists; reflexivity | right; reflexivity].
Qed.

(** X13. [operator&] and [operator|] are commutative, undefined cases
    included. *)
Theorem X13_Rectangle_and_or_commutative a b :
  Rectangle_and a b = Rectangle_and b a /\
  Rectangle_or a b = Rectangle_or b a.
Proof.
  unfold Rectangle_and, Rectangle_or.
  destruct (edges_cases a) as [[[ra ->]| ->] [[ba ->]| ->]];
    destruct (edges_cases b) as [[[rb ->]| ->] [[bb ->]| ->]];
    rewrite ?bind_Done; cbv zeta;
    first [ split; reflexivity | idtac ].
  rewrite (Z.max_comm (Rectangle_getX a)), (Z.max_comm (Rectangle_getY a)),
    (Z.min_comm (Rectangle_getX a)), (Z.min_comm (Rectangle_getY a)),
    (Z.min_comm ra), (Z.min_comm ba), (Z.max_comm ra), (Z.max_comm ba).
  split; reflexivity.
Qed.

(** X14. [setWidth] and [setHeight] keep the top-left corner and the other
    extent, and the getter returns the extent that was set, provided the new
    right or bottom edge is an [int]. *)
Theorem X14_Rectangle_set_extent r w h :
  int_rect r -> uint_range w -> uint_range h ->
  w <= INT_MAX -> getX (topLeft r) + w <= INT_MAX ->
  h <= INT_MAX -> getY (topLeft r) + h <= INT_MAX ->
  Rectangle_getWidth (Rectangle_setWidth r w) = Done w /\
  Rectangle_getHeight (Rectangle_setWidth r w) = Rectangle_getHeight r /\
  topLeft (Rectangle_setWidth r w) = topLeft r /\
  Rectangle_getHeight (Rectangle_setHeight r h) = Done h /\
  Rectangle_getWidth (Rectangle_setHeight r h) = Rectangle_getWidth r /\
  topLeft (Rectangle_setHeight r h) = topLeft r.
Proof.
  intros [[Hx Hy] _] Hw Hh Hw1 Hw2 Hh1 Hh2.
  destruct (extent_roundtrip (getX (topLeft r)) w Hx Hw) as [_ Ew].
  destruct (extent_roundtrip (getY (topLeft r)) h Hy Hh) as [_ Eh].
  destruct (Ew Hw1 Hw2) as (dw & Edw & Hdw).
  destruct (Eh Hh1 Hh2) as (dh & Edh & Hdh).
  unfold Rectangle_getWidth, Rectangle_getHeight, Rectangle_setWidth,
    Rectangle_setHeight. cbn [topLeft bottomRight getX getY].
  rewrite Edw, Edh, !bind_Done, Hdw, Hdh. repeat split; reflexivity.
Qed.

Lemma X14_Rectangle_set_extent_witness :
  Rectangle_getWidth (Rectangle_setWidth (Rectangle_xywh (-4) 13 10 20) 7)
    = Done 7 /\
  Rectangle_getHeight (Rectangle_setWidth (Rectangle_xywh (-4) 13 10 20) 7)
    = Rectangle_getHeight (Rectangle_xywh (-4) 13 10 20) /\
  topLeft (Rectangle_setWidth (Rectangle_xywh (-4) 13 10 20) 7)
    = topLeft (Rectangle_xywh (-4) 13 10 20) /\
  Rectangle_getHeight (Rectangle_setHeight (Rectangle_xywh (-4) 13 10 20) 5)
    = Done 5 /\
  Rectangle_getWidth (Rectangle_setHeight (Rectangle_xywh (-4) 13 10 20) 5)
    = Rectangle_getWidth (Rectangle_xywh (-4) 13 10 20) /\
  topLeft (Rectangle_setHeight (Rectangle_xywh (-4) 13 10 20) 5)
    = topLeft (Rectangle_xywh (-4) 13 10 20).
Proof.
  apply (X14_Rectangle_set_extent (Rectangle_xywh (-4) 13 10 20) 7 5);
    first [ unfold int_rect, int_point, int_range, INT_MIN, INT_MAX;
            vm_compute; repeat split; discriminate
          | unfold uint_range, UINT_MAX, INT_MAX; simpl; lia ].
Defined.

(** A region inside the image is copied byte for byte. *)
Lemma getROI_inside this dst x y w h :
  wf_image this -> wf_image dst ->
  0 <= x -> 0 <= y -> 0 <= w -> 0 <= h ->
  x + w <= m_width this -> y + h <= m_height this ->
  exists roi, getROI this dst x y w h = Done (true, roi) /\
    wf_image roi /\ m_width roi = w /\ m_height roi = h /\
    forall i j, 0 <= i < h -> 0 <= j < w ->
      load_cell roi i j = load_cell this (y + i) (x + j).
Proof.
  intros Hthis Hdst Hx Hy Hw Hh Hinx Hiny.
  pose proof (wf_width _ Hthis) as Hwt. pose proof (wf_height _ Hthis) as Hht.
  unfold uint_range in *.
  unfold getROI.
  rewrite !(to_unsigned_small (_ + _)) by (unfold uint_range; lia).
  assert (Hc : (x + w >? m_width this) || (y + h >? m_height this) = false).
  { apply orb_false_iff. split; lia. }
  rewrite Hc. rewrite (assign_fresh dst w h Hdst) by (unfold uint_range; lia).
  rewrite bind_Done.
  pose (f := fun i j =>
    match load_cell this (y + i) (x + j) with
    | Done c => c
    | _ => Indet
    end).
  destruct (pixel_loop_spec h w
    (fun i j => load_cell this (to_unsigned (y + i)) (to_unsigned (x + j)))
    f (Image_wh w h))
    as (roi & Hrun & Hg & (Hw' & Hh' & Hgr') & Hpx);
    [apply Image_wh_grid | lia | lia | |].
  - intros i j Hi Hj.
    rewrite !to_unsigned_small by (unfold uint_range; lia).
    destruct (wf_load this (y + i) (x + j) Hthis) as (c & Hc');
      [lia | lia |].
    unfold f. rewrite Hc'. reflexivity.
  - exists roi. rewrite Hrun, bind_Done. split; [reflexivity|].
    simpl in Hw', Hh'. destruct Hg as (rows & Hd & Hshape).
    split.
    { constructor; [rewrite Hw'; unfold uint_range; lia
                   | rewrite Hh'; unfold uint_range; lia |].
      rewrite Hd, Hw', Hh'. exact Hshape. }
    split; [exact Hw'|]. split; [exact Hh'|].
    intros i j Hi Hj. rewrite (Hpx i j Hi Hj).
    destruct (wf_load this (y + i) (x + j) Hthis) as (c & Hc');
      [lia | lia |].
    unfold f. rewrite Hc'. reflexivity.
Qed.

(** X15. [getROI] with a rectangle of non-negative corners: when the rectangle
    lies inside the image the result is true and every pixel the rectangle
    covers is copied to the position relative to the top-left corner;
    otherwise the result is false and [dst] is unchanged. *)
Theorem X15_getROI_rect_region this dst r :
  wf_image this -> wf_image dst -> positive_rect r ->
  (getX (bottomRight r) <= m_width this /\
   getY (bottomRight r) <= m_height this ->
   exists roi, getROI_rect this dst r = Done (true, roi) /\
     wf_image roi /\
     m_width roi = getX (bottomRight r) - getX (topLeft r) /\
     m_height roi = getY (bottomRight r) - getY (topLeft r) /\
     forall px py, covers r px py ->
       load_cell roi (py - getY (topLeft r)) (px - getX (topLeft r))
       = load_cell this py px) /\
  (getX (bottomRight r) > m_width this \/
   getY (bottomRight r) > m_height this ->
   getROI_rect this dst r = Done (false, dst)).
Proof.
  intros Hthis Hdst (Hx & Hbx & Hy & Hby). unfold INT_MAX in *.
  set (x := getX (topLeft r)) in *. set (y := getY (topLeft r)) in *.
  set (bx := getX (bottomRight r)) in *. set (by_ := getY (bottomRight r)) in *.
  assert (E : getROI_rect this dst r = getROI this dst x y (bx - x) (by_ - y)).
  { unfold getROI_rect, Rectangle_getWidth, Rectangle_getHeight, isub.
    fold x y bx by_.
    rewrite !int_in_range by (unfold int_range, INT_MIN, INT_MAX; lia).
    rewrite !bind_Done.
    rewrite !to_unsigned_small by (unfold uint_range, UINT_MAX; lia).
    reflexivity. }
  rewrite E. split.
  - intros [Hin1 Hin2].
    destruct (getROI_inside this dst x y (bx - x) (by_ - y) Hthis Hdst)
      as (roi & Hrun & Hwf & Hw & Hh & Hpx); try lia.
    exists roi. split; [exact Hrun|]. split; [exact Hwf|].
    split; [exact Hw|]. split; [exact Hh|].
    intros px py [Hcx Hcy]. fold x bx in Hcx. fold y by_ in Hcy.
    rewrite Hpx by lia. f_equal; lia.
  - intros Hout. unfold getROI.
    rewrite !(to_unsigned_small (_ + _)) by (unfold uint_range, UINT_MAX; lia).
    replace (x + (bx - x)) with bx by lia.
    replace (y + (by_ - y)) with by_ by lia.
    assert (Hc : (bx >? m_width this) || (by_ >? m_height this) = true).
    { apply orb_true_iff. destruct Hout; [left|right]; lia. }
    rewrite Hc. reflexivity.
Qed.

Lemma X15_getROI_rect_region_witness :
  exists roi,
    getROI_rect sample_2x2 Image_default (Rectangle_xywh 1 0 1 2)
      = Done (true, roi) /\
    wf_image roi /\ m_width roi = 1 /\ m_height roi = 2.
Proof.
  destruct (X15_getROI_rect_region sample_2x2 Image_default
              (Rectangle_xywh 1 0 1 2) sample_2x2_wf Image_default_wf)
    as [H _].
  - unfold positive_rect, INT_MAX. vm_compute. repeat split; discriminate.
  - destruct H as (roi & H1 & H2 & H3 & H4 & _).
    + vm_compute. split; discriminate.
    + exists roi. auto.
Defined.

(** A rectangle with a negative corner passes the test of [getROI] when the
    unsigned sum wraps around. *)
Example getROI_rect_negative :
  getROI_rect sample_2x2 Image_default (Rectangle_xywh (-1) 0 1 0)
  = Done (true, image_of_rows 1 0 []).
Proof. reflexivity. Qed.

(** ** Loading any file *)

Lemma extract_unsigned_range s v :
  uint_range v -> uint_range (fst (extract_unsigned s v)).
Proof.
  intros Hv. unfold extract_unsigned.
  destruct (sentry s) as [[|] s1]; [|exact Hv].
  destruct (scan_number (rest s1)) as [[[neg m] any] r].
  destruct (negb any); [cbn; unfold uint_range, UINT_MAX; lia|].
  destruct (m >? UINT_MAX); [cbn; unfold uint_range, UINT_MAX; lia|].
  cbn. apply to_unsigned_range.
Qed.

(** The two loops of [load] on a fresh buffer never leave it, whatever the
    stream holds. *)
Lemma load_loops_total img s0 h w :
  grid img h w -> 0 <= h -> 0 <= w ->
  exists loaded s,
    for_upto h (fun i st =>
      for_upto w (fun j '(im, s) =>
        let '(gray, s) := read_gray s in
        im ← store_cell im i j gray;
        Done (im, s)) st) (img, s0) = Done (loaded, s) /\
    grid loaded h w /\ same_header loaded img.
Proof.
  intros Hg Hh Hw.
  pose (P := fun (_ : Z) (st : Image * istream) =>
    grid (fst st) h w /\ same_header (fst st) img).
  match goal with |- exists _ _, for_upto _ ?body ?s = _ /\ _ =>
    destruct (for_upto_inv P body h s Hh) as ([loaded s'] & Hrun & Hg' & Hhd)
  end.
  - split; [exact Hg | repeat split].
  - intros i [im s] Hi HP.
    match goal with |- exists _, for_upto _ ?body ?s = _ /\ _ =>
      destruct (for_upto_inv P body w s Hw) as (st' & Hrun & HP')
    end; [exact HP | | eauto].
    intros j [im1 s1] Hj (Hg1 & Hh1). cbn [fst] in Hg1, Hh1.
    destruct (read_gray s1) as [gray s2].
    destruct (store_cell_spec im1 h w i j gray Hg1 Hi Hj)
      as (im2 & Hst & Hg2 & Hw2 & Hh2 & Hgr2 & _).
    rewrite Hst, bind_Done. eexists. split; [reflexivity|].
    split; [exact Hg2|]. cbn [fst].
    destruct Hh1 as (A & B & C). repeat split; congruence.
  - exists loaded, s'. split; [exact Hrun|]. split; assumption.
Qed.

(** [load] on an image that owns no buffer. *)
Lemma load_bufferless file this :
  wf_image this -> m_data this = None ->
  exists b img, load file this = Done (b, img) /\ wf_image img /\
    (b = false -> img = this) /\
    (b = true -> grid img (m_height img) (m_width img) /\
                 m_isGrayscale img = true).
Proof.
  intros Hwf Hnone. unfold load.
  destruct file as [bytes|].
  2:{ exists false, this. split; [reflexivity|]. split; [exact Hwf|].
      split; [reflexivity | discriminate]. }
  destruct (extract_string _ _) as [magic s0].
  destruct (negb (bool_decide (magic = magic_P5))).
  { exists false, this. split; [reflexivity|]. split; [exact Hwf|].
    split; [reflexivity | discriminate]. }
  pose proof (extract_unsigned_range s0 (m_width this) (wf_width _ Hwf)) as Hw.
  destruct (extract_unsigned s0 (m_width this)) as [w s1]. cbn [fst] in Hw.
  pose proof (extract_unsigned_range s1 (m_height this) (wf_height _ Hwf)) as Hh.
  destruct (extract_unsigned s1 (m_height this)) as [h s2]. cbn [fst] in Hh.
  destruct (extract_int s2 0) as [maxVal s3].
  cbv zeta. rewrite Hnone. unfold deallocateMemory. cbn [m_data].
  rewrite bind_Done.
  set (this1 := allocateMemory _).
  assert (Hg : grid this1 h w).
  { eexists. split; [reflexivity|]. apply shape_replicate. }
  change (m_height this1) with h. change (m_width this1) with w.
  destruct (load_loops_total this1 (get s3) h w Hg)
    as (loaded & s' & Hrun & Hg' & (Hw' & Hh' & Hgr'));
    [apply Hh | apply Hw |].
  rewrite Hrun, bind_Done.
  change (m_width this1) with w in Hw'. change (m_height this1) with h in Hh'.
  change (m_isGrayscale this1) with true in Hgr'.
  exists true, loaded. split; [reflexivity|].
  split; [|split; [discriminate|]].
  - destruct Hg' as (rows & Hd & Hs).
    constructor; [rewrite Hw'; exact Hw | rewrite Hh'; exact Hh |].
    rewrite Hd, Hw', Hh'. exact Hs.
  - intros _. rewrite Hw', Hh'. split; [exact Hg' | exact Hgr'].
Qed.

(** X16. [load] on an image without a buffer (default-constructed or
    released), allocation granted: for any file content the call is defined
    and leaves a well-formed image.  When the result is false the image is
    unchanged; when it is true the image owns a buffer of the dimensions it
    reports. *)
Theorem X16_load_without_buffer file this :
  wf_image this -> m_data this = None ->
  exists b img, load file this = Done (b, img) /\ wf_image img /\
    (b = false -> img = this) /\
    (b = true -> grid img (m_height img) (m_width img) /\
                 m_isGrayscale img = true).
Proof. apply load_bufferless. Qed.

Lemma X16_load_without_buffer_witness :
  exists b img,
    load (Some [80; 53; 32; 50; 32; 50; 32; 50; 53; 53; 10; 1; 2; 3])
      Image_default = Done (b, img) /\ wf_image img /\
    (b = false -> img = Image_default) /\
    (b = true -> grid img (m_height img) (m_width img) /\
                 m_isGrayscale img = true).
Proof.
  apply (X16_load_without_buffer
           (Some [80; 53; 32; 50; 32; 50; 32; 50; 53; 53; 10; 1; 2; 3])
           Image_default Image_default_wf).
  reflexivity.
Defined.

(** X17. [release] on a well-formed image gives the empty image: no buffer,
    width and height 0, [isEmpty] true.  Releasing again changes nothing, and
    a [load] of any file into the released image is defined (allocation
    granted) and leaves a well-formed image. *)
Theorem X17_release_then_load img file :
  wf_image img ->
  exists r, release img = Done r /\ wf_image r /\ isEmpty r = true /\
    m_data r = None /\ m_width r = 0 /\ m_height r = 0 /\
    release r = Done r /\
    exists b img', load file r = Done (b, img') /\ wf_image img'.
Proof.
  intros Hwf. unfold release at 1.
  rewrite (deallocateMemory_wf img Hwf), bind_Done.
  cbn [set_data m_data m_width m_height m_isGrayscale].
  set (r := {| m_data := None; m_width := 0; m_height := 0;
               m_isGrayscale := m_isGrayscale img |}).
  assert (Hr : wf_image r)
    by (constructor; simpl; unfold uint_range, UINT_MAX; lia).
  exists r. split; [reflexivity|]. split; [exact Hr|].
  do 5 (split; [reflexivity|]).
  destruct (load_bufferless file r Hr eq_refl) as (b & img' & E & Hwf' & _).
  exists b, img'. split; assumption.
Qed.

Lemma X17_release_then_load_witness :
  exists r, release sample_2x2 = Done r /\ wf_image r /\ isEmpty r = true /\
    m_data r = None /\ m_width r = 0 /\ m_height r = 0 /\
    release r = Done r /\
    exists b img',
      load (Some [80; 53; 32; 50; 32; 50; 32; 50; 53; 53; 10; 1; 2; 3]) r
        = Done (b, img') /\ wf_image img'.
Proof.
  apply (X17_release_then_load sample_2x2). exact sample_2x2_wf.
Defined.

(** ** Filters with known pixel values *)

(** A filter whose right-hand side is a known pixel value at every pixel. *)
Lemma process_values pow f src dst (g : Z -> Z -> Z) :
  wf_image src -> wf_image dst ->
  (forall y x, 0 <= y < m_height src -> 0 <= x < m_width src ->
     filter_pixel pow f src y x = Done (Px (g y x)) /\ uchar_range (g y x)) ->
  exists d, process pow f src dst = Done d /\
    wf_image d /\ initialized d /\
    m_width d = m_width src /\ m_height d = m_height src /\
    forall y x, 0 <= y < m_height src -> 0 <= x < m_width src ->
      load_cell d y x = Done (Px (g y x)).
Proof.
  intros Hsrc Hdst Hpx. rewrite process_fresh by assumption.
  apply pixel_loop_values; [apply Hsrc | apply Hsrc | exact Hpx].
Qed.

Lemma shift_table :
  all_from 0 256 (fun v => all_from (-255) 511 (fun b =>
    cast_is (PrimFloat.add (PrimFloat.mul (double_of_int v) 1%float)
                           (double_of_int b)) (v + b)))
  = true.
Proof. vm_compute. reflexivity. Qed.

Lemma shift_exact v b :
  uchar_range v -> -255 <= b <= 255 ->
  double_to_int (PrimFloat.add (PrimFloat.mul (double_of_int v) 1%float)
                               (double_of_int b))
  = Done (v + b).
Proof.
  intros Hv Hb. apply cast_is_spec.
  assert (H := all_from_spec 0 256 _ v shift_table). cbv beta in H.
  apply (all_from_spec (-255) 511
           (fun b => cast_is (PrimFloat.add (PrimFloat.mul (double_of_int v) 1%float)
                                            (double_of_int b)) (v + b)) b); [|lia].
  apply H. unfold uchar_range in Hv. lia.
Qed.

(** X18. brightness adjustment with contrast 1.0: every pixel [v] becomes
    [v + beta] clamped to [0, 255]. *)
Theorem X18_brightness_shift src dst beta :
  wf_image src -> initialized src -> wf_image dst -> -255 <= beta <= 255 ->
  exists d, BrightnessContrastAdjustment.process 1%float beta src dst = Done d /\
    wf_image d /\ initialized d /\
    m_width d = m_width src /\ m_height d = m_height src /\
    forall y x, 0 <= y < m_height src -> 0 <= x < m_width src ->
      load_cell d y x
      = Done (Px (Z.min 255 (Z.max 0 (pixel_value src y x + beta)))).
Proof.
  intros Hsrc Hinit Hdst Hb.
  apply (process_values (fun a _ => a) (BrightnessContrast 1%float beta) src dst
           (fun y x => Z.min 255 (Z.max 0 (pixel_value src y x + beta))));
    [exact Hsrc | exact Hdst |].
  intros y x Hy Hx.
  destruct (pixel_value_spec src y x Hsrc Hinit Hy Hx) as (_ & Hp & Hv).
  cbn [filter_pixel]. unfold BrightnessContrastAdjustment.pixel, at_get.
  rewrite Hp, bind_Done, (shift_exact _ beta Hv Hb), bind_Done.
  rewrite to_uchar_id by (unfold uchar_range; lia).
  split; [reflexivity | unfold uchar_range; lia].
Qed.

Lemma X18_brightness_shift_witness :
  exists d,
    BrightnessContrastAdjustment.process 1%float (-20) sample_2x2 black_3x3
      = Done d /\
    wf_image d /\ initialized d /\
    m_width d = m_width sample_2x2 /\ m_height d = m_height sample_2x2.
Proof.
  destruct (X18_brightness_shift sample_2x2 black_3x3 (-20) sample_2x2_wf
              sample_2x2_initialized black_3x3_wf ltac:(lia))
    as (d & H1 & H2 & H3 & H4 & H5 & _).
  exists d. auto.
Defined.

Lemma gamma_table :
  all_from 0 256 (fun v =>
    cast_is (PrimFloat.mul (double_of_int 255)
               (PrimFloat.div (double_of_int v) 255%float)) v)
  = true.
Proof. vm_compute. reflexivity. Qed.

(** X19. gamma correction with exponent 1.0 is the identity, for any [pow]
    with [pow(x, 1.0) = x]. *)
Theorem X19_gamma_one_identity pow src dst :
  (forall x : double, pow x 1%float = x) ->
  wf_image src -> initialized src -> wf_image dst ->
  exists d, GammaCorrection.process pow 1%float src dst = Done d /\
    wf_image d /\ initialized d /\ same_pixels d src.
Proof.
  intros Hpow Hsrc Hinit Hdst.
  destruct (process_values pow (Gamma 1%float) src dst
              (fun y x => pixel_value src y x) Hsrc Hdst)
    as (d & Hrun & Hwf & Hi & Hw & Hh & Hpx).
  { intros y x Hy Hx.
    destruct (pixel_value_spec src y x Hsrc Hinit Hy Hx) as (_ & Hp & Hv).
    cbn [filter_pixel]. unfold GammaCorrection.pixel, at_get.
    rewrite Hp, bind_Done, Hpow.
    rewrite (cast_is_spec _ (pixel_value src y x)).
    2:{ apply (all_from_spec 0 256 _ _ gamma_table).
        unfold uchar_range in Hv. lia. }
    rewrite bind_Done. unfold uchar_range in Hv.
    rewrite Z.min_r by lia.
    rewrite to_uchar_id by exact Hv. split; [reflexivity | exact Hv]. }
  exists d. split; [exact Hrun|]. split; [exact Hwf|]. split; [exact Hi|].
  split; [exact Hw|]. split; [exact Hh|].
  intros y x Hy Hx. rewrite Hw in Hx. rewrite Hh in Hy.
  rewrite (Hpx y x Hy Hx).
  destruct (pixel_value_spec src y x Hsrc Hinit Hy Hx) as (Hc & _ & _).
  symmetry. exact Hc.
Qed.

Lemma X19_gamma_one_identity_witness :
  exists d, GammaCorrection.process (fun x _ => x) 1%float sample_2x2 black_3x3
              = Done d /\
    wf_image d /\ initialized d /\ same_pixels d sample_2x2.
Proof.
  apply (X19_gamma_one_identity (fun x _ => x) sample_2x2 black_3x3);
    [ intros x; reflexivity | exact sample_2x2_wf
    | exact sample_2x2_initialized | exact black_3x3_wf ].
Defined.

(** ** The kernels of the menu on a flat neighbourhood *)

Lemma for_upto_3 {St} (body : Z -> St -> outcome St) s a b c :
  body 0 s = Done a -> body 1 a = Done b -> body 2 b = Done c ->
  for_upto 3 body s = Done c.
Proof.
  intros H0 H1 H2. unfold for_upto.
  change (Z.to_nat 3) with 3%nat. cbn [for_loop].
  rewrite H0, bind_Done. change (0 + 1) with 1. rewrite H1, bind_Done.
  change (1 + 1) with 2. rewrite H2, bind_Done. reflexivity.
Qed.

Section Flat.

Variables (src : Image) (y x v : Z).
Hypothesis Hy : 1 <= y /\ y + 1 < m_height src /\ y + 1 <= INT_MAX.
Hypothesis Hx : 1 <= x /\ x + 1 < m_width src /\ x + 1 <= INT_MAX.
Hypothesis Hflat : forall i j, -1 <= i <= 1 -> -1 <= j <= 1 ->
  load_cell src (y + i) (x + j) = Done (Px v).

Variables k00 k01 k02 k10 k11 k12 k20 k21 k22 : double.
Let kernel := [[k00; k01; k02]; [k10; k11; k12]; [k20; k21; k22]].

Lemma tap_flat ky kx k sum :
  0 <= ky <= 2 -> 0 <= kx <= 2 ->
  Convolution.kernel_at kernel ky kx = Done k ->
  (let srcX := to_int (x + kx - Z.quot 3 2) in
   let srcY := to_int (y + ky - Z.quot 3 2) in
   if (0 <=? srcX) && (srcX <? width src)
      && (0 <=? srcY) && (srcY <? height src)
   then
     srcPixel ← at_get src (to_unsigned srcX) (to_unsigned srcY);
     k ← Convolution.kernel_at kernel ky kx;
     Done (PrimFloat.add sum (PrimFloat.mul (double_of_int srcPixel) k))
   else Done sum)
  = Done (PrimFloat.add sum (PrimFloat.mul (double_of_int v) k)).
Proof.
  intros Hky Hkx Hk. cbv zeta. change (Z.quot 3 2) with 1.
  destruct Hy as (Hy1 & Hy2 & Hy3), Hx as (Hx1 & Hx2 & Hx3).
  unfold INT_MAX in *.
  rewrite !to_int_small by lia.
  rewrite !to_unsigned_small by (unfold uint_range, UINT_MAX; lia).
  unfold width, height.
  destruct (Z.leb_spec 0 (x + kx - 1)); [|lia].
  destruct (Z.ltb_spec (x + kx - 1) (m_width src)); [|lia].
  destruct (Z.leb_spec 0 (y + ky - 1)); [|lia].
  destruct (Z.ltb_spec (y + ky - 1) (m_height src)); [|lia].
  cbn [andb]. unfold at_get, load_px.
  replace (y + ky - 1) with (y + (ky - 1)) by lia.
  replace (x + kx - 1) with (x + (kx - 1)) by lia.
  rewrite Hflat by lia. rewrite !bind_Done, Hk, bind_Done. reflexivity.
Qed.

Lemma weighted_sum_flat :
  Convolution.weighted_sum kernel 3 3 src y x = Done (flat_sum kernel v).
Proof.
  unfold Convolution.weighted_sum. cbv zeta.
  eapply for_upto_3.
  - eapply for_upto_3; apply tap_flat; first [lia | reflexivity].
  - eapply for_upto_3; apply tap_flat; first [lia | reflexivity].
  - eapply for_upto_3; apply tap_flat; first [lia | reflexivity].
Qed.

Lemma pixel_flat :
  Convolution.pixel kernel 3 3 Convolution.identity_scaling src y x
  = stored_pixel (flat_sum kernel v).
Proof.
  unfold Convolution.pixel. rewrite weighted_sum_flat, bind_Done.
  reflexivity.
Qed.

End Flat.

Lemma stores_spec sum lo hi :
  stores sum lo hi = true ->
  exists m, stored_pixel sum = Done (Px m) /\ lo <= m <= hi.
Proof.
  unfold stores. destruct (stored_pixel sum) as [[|m]| |]; try discriminate.
  intros H. apply andb_true_iff in H as [H1 H2]. exists m. split; [reflexivity|lia].
Qed.

Lemma stores_exact sum m :
  stores sum m m = true -> stored_pixel sum = Done (Px m).
Proof.
  intros H. apply stores_spec in H as (m' & E & Hm).
  rewrite E. do 2 f_equal. lia.
Qed.

Lemma menu_flat_table : all_from 0 256 menu_flat_check = true.
Proof. vm_compute. reflexivity. Qed.

(** X20. where the 3 by 3 neighbourhood of an interior pixel is flat at the
    value [v], the identity and the Gaussian kernel of the menu give [v],
    both Sobel kernels give 0, and the mean blur kernel gives [v] or
    [v - 1]. *)
Theorem X20_menu_kernels_flat src y x v :
  1 <= y /\ y + 1 < m_height src /\ y + 1 <= INT_MAX ->
  1 <= x /\ x + 1 < m_width src /\ x + 1 <= INT_MAX ->
  uchar_range v ->
  (forall i j, -1 <= i <= 1 -> -1 <= j <= 1 ->
     load_cell src (y + i) (x + j) = Done (Px v)) ->
  let out k :=
    Convolution.pixel k 3 3 Convolution.identity_scaling src y x in
  (forall k, menu_kernel 1 = Some k -> out k = Done (Px v)) /\
  (forall k, menu_kernel 2 = Some k ->
     exists m, out k = Done (Px m) /\ v - 1 <= m <= v) /\
  (forall k, menu_kernel 3 = Some k -> out k = Done (Px v)) /\
  (forall k, menu_kernel 4 = Some k -> out k = Done (Px 0)) /\
  (forall k, menu_kernel 5 = Some k -> out k = Done (Px 0)).
Proof.
  intros Hy Hx Hv Hflat out.
  assert (Ht := all_from_spec 0 256 _ v menu_flat_table
                  ltac:(unfold uchar_range in Hv; lia)).
  unfold menu_flat_check in Ht.
  destruct (menu_kernel 1) as [k1|] eqn:E1; [|discriminate].
  destruct (menu_kernel 2) as [k2|] eqn:E2; [|discriminate].
  destruct (menu_kernel 3) as [k3|] eqn:E3; [|discriminate].
  destruct (menu_kernel 4) as [k4|] eqn:E4; [|discriminate].
  destruct (menu_kernel 5) as [k5|] eqn:E5; [|discriminate].
  apply andb_true_iff in Ht as [Ht T5]. apply andb_true_iff in Ht as [Ht T4].
  apply andb_true_iff in Ht as [Ht T3]. apply andb_true_iff in Ht as [T1 T2].
  injection E1 as <-. injection E2 as <-. injection E3 as <-.
  injection E4 as <-. injection E5 as <-.
  unfold out.
  split; [|split; [|split; [|split]]]; intros k [= <-];
    rewrite (pixel_flat src y x v Hy Hx Hflat).
  - apply stores_exact, T1.
  - apply stores_spec, T2.
  - apply stores_exact, T3.
  - apply stores_exact, T4.
  - apply stores_exact, T5.
Qed.

Lemma X20_menu_kernels_flat_witness :
  (forall k, menu_kernel 1 = Some k ->
     Convolution.pixel k 3 3 Convolution.identity_scaling black_3x3 1 1
     = Done (Px 0)) /\
  (forall k, menu_kernel 2 = Some k ->
     exists m,
       Convolution.pixel k 3 3 Convolution.identity_scaling black_3x3 1 1
       = Done (Px m) /\ 0 - 1 <= m <= 0) /\
  (forall k, menu_kernel 3 = Some k ->
     Convolution.pixel k 3 3 Convolution.identity_scaling black_3x3 1 1
     = Done (Px 0)) /\
  (forall k, menu_kernel 4 = Some k ->
     Convolution.pixel k 3 3 Convolution.identity_scaling black_3x3 1 1
     = Done (Px 0)) /\
  (forall k, menu_kernel 5 = Some k ->
     Convolution.pixel k 3 3 Convolution.identity_scaling black_3x3 1 1
     = Done (Px 0)).
Proof.
  apply (X20_menu_kernels_flat black_3x3 1 1 0).
  - unfold INT_MAX. simpl. lia.
  - unfold INT_MAX. simpl. lia.
  - unfold uchar_range. lia.
  - intros i j Hi Hj.
    assert (Hi' : i = -1 \/ i = 0 \/ i = 1) by lia.
    assert (Hj' : j = -1 \/ j = 0 \/ j = 1) by lia.
    destruct Hi' as [->|[->| ->]], Hj' as [->|[->| ->]]; reflexivity.
Defined.

(** The mean blur kernel darkens a flat region of value 5 to 4. *)
Example mean_blur_darkens :
  forall k, menu_kernel 2 = Some k ->
    stored_pixel (flat_sum k 5) = Done (Px 4).
Proof. intros k [= <-]. reflexivity. Qed.

(** ** The pixels a line changes *)

(** The guarded plot of [drawLine] on a well-formed image. *)
Lemma guard_effect img value x1 y1 img' :
  wf_image img ->
  (if (0 <=? x1) && (x1 <? width img) && (0 <=? y1) && (y1 <? height img)
   then at_set img (to_unsigned x1) (to_unsigned y1) value
   else Done img) = Done img' ->
  wf_image img' /\ same_header img' img /\
  (inside img x1 y1 -> load_cell img' y1 x1 = Done (Px value)) /\
  (forall y x, (y, x) <> (y1, x1) -> load_cell img' y x = load_cell img y x) /\
  (~ inside img x1 y1 -> img' = img).
Proof.
  intros Hwf. unfold width, height, inside.
  pose proof (wf_width _ Hwf) as Hw. pose proof (wf_height _ Hwf) as Hh.
  destruct (Z.leb_spec 0 x1); cbn [andb].
  2:{ intros [= <-]. split; [exact Hwf|]. split; [repeat split|]. split; [intros; lia|]. split; auto. }
  destruct (Z.ltb_spec x1 (m_width img)); cbn [andb].
  2:{ intros [= <-]. split; [exact Hwf|]. split; [repeat split|]. split; [intros; lia|]. split; auto. }
  destruct (Z.leb_spec 0 y1); cbn [andb].
  2:{ intros [= <-]. split; [exact Hwf|]. split; [repeat split|]. split; [intros; lia|]. split; auto. }
  destruct (Z.ltb_spec y1 (m_height img)); cbn [andb].
  2:{ intros [= <-]. split; [exact Hwf|]. split; [repeat split|]. split; [intros; lia|]. split; auto. }
  unfold at_set. unfold uint_range in *.
  rewrite !to_unsigned_small by (unfold uint_range; lia).
  destruct (wf_store img y1 x1 (Px value) Hwf) as (i2 & Hst & Hwf2 & Hhd & Hhit & Hmiss);
    [lia | lia |].
  rewrite Hst. intros [= <-].
  split; [exact Hwf2|]. split; [exact Hhd|]. split; [auto|].
  split; [exact Hmiss|]. intros Hn. exfalso. apply Hn. lia.
Qed.

(** One iteration of the loop: the image after the guarded plot, and a move
    of at most one step in each direction. *)
Lemma line_body_inv img value x1 y1 x2 y2 dx dy sx sy err img' nxt :
  line_body img value x1 y1 x2 y2 dx dy sx sy err = Done (img', nxt) ->
  (if (0 <=? x1) && (x1 <? width img) && (0 <=? y1) && (y1 <? height img)
   then at_set img (to_unsigned x1) (to_unsigned y1) value
   else Done img) = Done img' /\
  match nxt with
  | None => x1 = x2 /\ y1 = y2
  | Some (x1', y1', _) =>
      (x1' = x1 \/ x1' = x1 + sx) /\ (y1' = y1 \/ y1' = y1 + sy)
  end.
Proof.
  unfold line_body. intros H.
  apply bind_Done_inv in H as (im & Hplot & H).
  destruct ((x1 =? x2) && (y1 =? y2)) eqn:Hbrk.
  { injection H as <- <-. split; [exact Hplot|].
    apply andb_true_iff in Hbrk as [E1 E2]. lia. }
  apply bind_Done_inv in H as (e2 & _ & H).
  apply bind_Done_inv in H as (ndy & _ & H).
  apply bind_Done_inv in H as ([err1 xa] & Hx & H).
  apply bind_Done_inv in H as ([err2 ya] & Hy & H).
  injection H as <- <-. split; [exact Hplot|].
  split.
  - destruct (e2 >? ndy).
    + apply bind_Done_inv in Hx as (? & _ & Hx).
      apply bind_Done_inv in Hx as (? & Hadd & Hx). injection Hx as _ <-.
      apply iadd_Done in Hadd as [-> _]. auto.
    + injection Hx as _ <-. auto.
  - destruct (e2 <? dx).
    + apply bind_Done_inv in Hy as (? & _ & Hy).
      apply bind_Done_inv in Hy as (? & Hadd & Hy). injection Hy as _ <-.
      apply iadd_Done in Hadd as [-> _]. auto.
    + injection Hy as _ <-. auto.
Qed.

Lemma drawn_over_keeps img img' value P y x :
  drawn_over img img' value P ->
  load_cell img y x = Done (Px value) -> load_cell img' y x = Done (Px value).
Proof. intros H E. destruct (H y x) as [H1|[H1 _]]; congruence. Qed.

Lemma inside_header img img' x y :
  same_header img' img -> inside img' x y -> inside img x y.
Proof. intros (Hw & Hh & _). unfold inside. rewrite Hw, Hh. auto. Qed.

Lemma classic_inside img x y : inside img x y \/ ~ inside img x y.
Proof.
  unfold inside.
  destruct (Z_le_gt_dec 0 x), (Z_lt_ge_dec x (m_width img)),
    (Z_le_gt_dec 0 y), (Z_lt_ge_dec y (m_height img));
    first [ left; lia | right; lia ].
Qed.

Section LinePixels.

Variables (value x2 y2 dx dy sx sy : Z).
Hypothesis Hsx : sx = 1 \/ sx = -1.
Hypothesis Hsy : sy = 1 \/ sy = -1.
Hypothesis Hsmall : line_small x2 y2 dx dy sx sy.

(** The points at most [a] steps in x and [b] steps in y before the end
    point. *)
Let box (a b x y : Z) : Prop :=
  exists a' b', 0 <= a' <= a /\ 0 <= b' <= b /\
                x = x2 - sx * a' /\ y = y2 - sy * b'.

Lemma line_loop_pixels fuel : forall img x1 y1 err a b,
  line_inv x2 y2 dx dy sx sy a b x1 y1 err ->
  (Z.to_nat (a + b) < fuel)%nat ->
  wf_image img ->
  exists img',
    line_loop fuel img value x1 y1 x2 y2 dx dy sx sy err = Done img' /\
    wf_image img' /\ same_header img' img /\
    drawn_over img img' value (box a b) /\
    painted img' value x1 y1 /\ painted img' value x2 y2 /\
    (forall a', 0 <= a' <= a -> exists b', 0 <= b' <= b /\
       painted img' value (x2 - sx * a') (y2 - sy * b')) /\
    (forall b', 0 <= b' <= b -> exists a', 0 <= a' <= a /\
       painted img' value (x2 - sx * a') (y2 - sy * b')).
Proof.
  induction fuel as [|fuel IH]; intros img x1 y1 err a b Hinv Hfuel Hwf; [lia|].
  cbn [line_loop].
  pose proof Hinv as (Ha & Hb & Hx1 & Hy1 & _).
  destruct (line_body_spec value x2 y2 dx dy sx sy Hsx Hsy img x1 y1 err a b Hinv)
    as [(Hu & Hn) | [(Ha0 & Hb0 & img1 & Hbody & _)
                    | (img1 & x1' & y1' & err' & a' & b' & Hbody & Hinv' & Hm & _)]].
  - exfalso. apply Hn. split; assumption.
  - (* the end point *)
    rewrite Hbody, bind_Done.
    apply line_body_inv in Hbody as (Hplot & Hx & Hy).
    apply guard_effect in Hplot as (Hwf1 & Hhd & Hhit & Hmiss & Hout);
      [|exact Hwf].
    assert (Hp : painted img1 value x1 y1).
    { intros Hin. apply Hhit. eapply inside_header; eauto. }
    exists img1. split; [reflexivity|]. split; [exact Hwf1|].
    split; [exact Hhd|]. subst a b x2 y2.
    split; [|split; [exact Hp|split; [exact Hp|split]]].
    + intros y x.
      destruct (decide ((y, x) = (y1, x1))) as [[= -> ->]|Hne];
        [|left; apply Hmiss; exact Hne].
      destruct (classic_inside img x1 y1) as [Hin|Hnin].
      * right. split; [apply Hhit; exact Hin|].
        exists 0, 0. repeat split; lia.
      * left. rewrite (Hout Hnin). reflexivity.
    + intros a' Ha'. exists 0. split; [lia|].
      replace a' with 0 by lia. rewrite !Z.mul_0_r, !Z.sub_0_r. exact Hp.
    + intros b' Hb'. exists 0. split; [lia|].
      replace b' with 0 by lia. rewrite !Z.mul_0_r, !Z.sub_0_r. exact Hp.
  - (* one more step *)
    rewrite Hbody, bind_Done.
    apply line_body_inv in Hbody as (Hplot & Hmx & Hmy).
    apply guard_effect in Hplot as (Hwf1 & Hhd & Hhit & Hmiss & Hout);
      [|exact Hwf].
    pose proof Hinv' as (Ha' & Hb' & Hx1' & Hy1' & _).
    assert (Hale : a' = a \/ a' = a - 1) by (destruct Hsx; subst sx; lia).
    assert (Hble : b' = b \/ b' = b - 1) by (destruct Hsy; subst sy; lia).
    destruct (IH img1 x1' y1' err' a' b' Hinv' ltac:(lia) Hwf1)
      as (img' & Hrun & Hwf' & Hhd' & Hover & _ & Hend & Hcols & Hrows).
    assert (Hhd2 : same_header img' img).
    { destruct Hhd as (A1 & A2 & A3), Hhd' as (B1 & B2 & B3).
      repeat split; congruence. }
    assert (Hp : painted img' value x1 y1).
    { intros Hin. eapply drawn_over_keeps; [exact Hover|].
      apply Hhit. eapply inside_header; eauto. }
    exists img'. split; [exact Hrun|]. split; [exact Hwf'|].
    split; [exact Hhd2|].
    split; [|split; [exact Hp|split; [exact Hend|split]]].
    + intros y x. destruct (Hover y x) as [E|[E (a0 & b0 & Ha0 & Hb0 & -> & ->)]].
      * destruct (decide ((y, x) = (y1, x1))) as [[= -> ->]|Hne];
          [|left; rewrite E; apply Hmiss; exact Hne].
        destruct (classic_inside img x1 y1) as [Hin|Hnin].
        -- right. split; [rewrite E; apply Hhit; exact Hin|].
           exists a, b. repeat split; lia.
        -- left. rewrite E, (Hout Hnin). reflexivity.
      * right. split; [exact E|]. exists a0, b0. repeat split; lia.
    + intros a0 Ha0. destruct (Z_le_gt_dec a0 a') as [Hle|Hgt].
      * destruct (Hcols a0 ltac:(lia)) as (b0 & Hb0 & Hp0).
        exists b0. split; [lia | exact Hp0].
      * exists b. split; [lia|]. replace a0 with a by lia.
        rewrite <- Hx1, <- Hy1. exact Hp.
    + intros b0 Hb0. destruct (Z_le_gt_dec b0 b') as [Hle|Hgt].
      * destruct (Hrows b0 ltac:(lia)) as (a0 & Ha0 & Hp0).
        exists a0. split; [lia | exact Hp0].
      * exists a. split; [lia|]. replace b0 with b by lia.
        rewrite <- Hx1, <- Hy1. exact Hp.
Qed.

End LinePixels.

(** What [drawLine] leaves in the image. *)
Lemma drawLine_spec fuel img p1 p2 value :
  wf_image img -> int_point p1 -> int_point p2 ->
  Z.abs (getX p2 - getX p1) <= 715827882 ->
  Z.abs (getY p2 - getY p1) <= 715827882 ->
  (Z.to_nat (Z.abs (getX p2 - getX p1) + Z.abs (getY p2 - getY p1)) < fuel)%nat ->
  exists img', drawLine fuel img p1 p2 value = Done img' /\
    wf_image img' /\ same_header img' img /\
    drawn_over img img' value
      (fun x y => between (getX p1) (getX p2) x /\
                  between (getY p1) (getY p2) y) /\
    painted img' value (getX p1) (getY p1) /\
    painted img' value (getX p2) (getY p2) /\
    (forall x, between (getX p1) (getX p2) x ->
       exists y, between (getY p1) (getY p2) y /\ painted img' value x y) /\
    (forall y, between (getY p1) (getY p2) y ->
       exists x, between (getX p1) (getX p2) x /\ painted img' value x y).
Proof.
  intros Hwf [Hx1 Hy1] [Hx2 Hy2] Hdx Hdy Hfuel. unfold drawLine.
  set (x1 := getX p1) in *. set (y1 := getY p1) in *.
  set (x2 := getX p2) in *. set (y2 := getY p2) in *.
  cbv zeta. unfold isub, iabs.
  unfold int_range, INT_MIN, INT_MAX in *.
  rewrite (int_in_range (x2 - x1)) by (unfold int_range, INT_MIN, INT_MAX; lia).
  rewrite bind_Done.
  rewrite (int_in_range (Z.abs (x2 - x1)))
    by (unfold int_range, INT_MIN, INT_MAX; lia).
  rewrite bind_Done.
  rewrite (int_in_range (y2 - y1)) by (unfold int_range, INT_MIN, INT_MAX; lia).
  rewrite bind_Done.
  rewrite (int_in_range (Z.abs (y2 - y1)))
    by (unfold int_range, INT_MIN, INT_MAX; lia).
  rewrite bind_Done.
  rewrite (int_in_range (Z.abs (x2 - x1) - Z.abs (y2 - y1)))
    by (unfold int_range, INT_MIN, INT_MAX; lia).
  rewrite bind_Done.
  set (dx := Z.abs (x2 - x1)) in *. set (dy := Z.abs (y2 - y1)) in *.
  set (sx := if x1 <? x2 then 1 else -1).
  set (sy := if y1 <? y2 then 1 else -1).
  assert (Hsx : sx = 1 \/ sx = -1) by (unfold sx; destruct (x1 <? x2); auto).
  assert (Hsy : sy = 1 \/ sy = -1) by (unfold sy; destruct (y1 <? y2); auto).
  assert (Hx0 : x1 = x2 - sx * dx).
  { unfold sx, dx. destruct (Z.ltb_spec x1 x2); lia. }
  assert (Hy0 : y1 = y2 - sy * dy).
  { unfold sy, dy. destruct (Z.ltb_spec y1 y2); lia. }
  assert (Hdx0 : 0 <= dx) by (unfold dx; lia).
  assert (Hdy0 : 0 <= dy) by (unfold dy; lia).
  assert (Hinv : line_inv x2 y2 dx dy sx sy dx dy x1 y1 (dx - dy)).
  { unfold line_inv. repeat split; lia. }
  assert (Hsmall : line_small x2 y2 dx dy sx sy).
  { unfold line_small, int_range, INT_MIN, INT_MAX.
    rewrite <- Hx0, <- Hy0. repeat split; lia. }
  destruct (line_loop_pixels value x2 y2 dx dy sx sy Hsx Hsy Hsmall fuel img
              x1 y1 (dx - dy) dx dy Hinv Hfuel Hwf)
    as (img' & Hrun & Hwf' & Hhd & Hover & Hp1 & Hp2 & Hcols & Hrows).
  assert (Hbx : forall a, 0 <= a <= dx -> between x1 x2 (x2 - sx * a)).
  { intros a Ha. unfold between, sx, dx in *.
    destruct (Z.ltb_spec x1 x2); lia. }
  assert (Hby : forall b, 0 <= b <= dy -> between y1 y2 (y2 - sy * b)).
  { intros b Hb. unfold between, sy, dy in *.
    destruct (Z.ltb_spec y1 y2); lia. }
  exists img'. split; [exact Hrun|]. split; [exact Hwf'|]. split; [exact Hhd|].
  split; [|split; [exact Hp1|split; [exact Hp2|split]]].
  - intros y x. destruct (Hover y x) as [E|[E (a & b & Ha & Hb & -> & ->)]];
      [left; exact E|].
    right. split; [exact E|]. split; [apply Hbx | apply Hby]; assumption.
  - intros x Hx.
    assert (Ha : 0 <= sx * (x2 - x) <= dx).
    { unfold between, sx, dx in *. destruct (Z.ltb_spec x1 x2); lia. }
    destruct (Hcols _ Ha) as (b & Hb & Hp).
    exists (y2 - sy * b). split; [apply Hby; exact Hb|].
    replace (x2 - sx * (sx * (x2 - x))) with x in Hp
      by (destruct Hsx as [-> | ->]; lia).
    exact Hp.
  - intros y Hy.
    assert (Hb : 0 <= sy * (y2 - y) <= dy).
    { unfold between, sy, dy in *. destruct (Z.ltb_spec y1 y2); lia. }
    destruct (Hrows _ Hb) as (a & Ha & Hp).
    exists (x2 - sx * a). split; [apply Hbx; exact Ha|].
    replace (y2 - sy * (sy * (y2 - y))) with y in Hp
      by (destruct Hsy as [-> | ->]; lia).
    exact Hp.
Qed.



(** ** Horizontal and vertical lines, and rectangles *)

Lemma between_cases a b z : between a b z \/ ~ between a b z.
Proof. unfold between. lia. Qed.

(** A line along one axis: the segment is painted, nothing else changes. *)
Lemma axis_line fuel img p1 p2 value :
  wf_image img -> int_point p1 -> int_point p2 ->
  Z.abs (getX p2 - getX p1) <= 715827882 ->
  Z.abs (getY p2 - getY p1) <= 715827882 ->
  getX p1 = getX p2 \/ getY p1 = getY p2 ->
  (Z.to_nat (Z.abs (getX p2 - getX p1) + Z.abs (getY p2 - getY p1)) < fuel)%nat ->
  exists img', drawLine fuel img p1 p2 value = Done img' /\
    wf_image img' /\ same_header img' img /\
    forall x y, inside img x y ->
      (between (getX p1) (getX p2) x /\ between (getY p1) (getY p2) y ->
       load_cell img' y x = Done (Px value)) /\
      (~ (between (getX p1) (getX p2) x /\ between (getY p1) (getY p2) y) ->
       load_cell img' y x = load_cell img y x).
Proof.
  intros Hwf Hp1 Hp2 Hdx Hdy Haxis Hfuel.
  destruct (drawLine_spec fuel img p1 p2 value Hwf Hp1 Hp2 Hdx Hdy Hfuel)
    as (img' & Hrun & Hwf' & Hhd & Hover & _ & _ & Hcols & Hrows).
  exists img'. split; [exact Hrun|]. split; [exact Hwf'|]. split; [exact Hhd|].
  intros x y Hin.
  assert (Hin' : inside img' x y).
  { destruct Hhd as (A & B & _). unfold inside in *. rewrite A, B. exact Hin. }
  split.
  - intros [Hbx Hby]. destruct Haxis as [Ex|Ey].
    + destruct (Hrows y Hby) as (x0 & Hx0 & Hp).
      assert (x0 = x) by (unfold between in *; lia). subst x0.
      apply Hp. exact Hin'.
    + destruct (Hcols x Hbx) as (y0 & Hy0 & Hp).
      assert (y0 = y) by (unfold between in *; lia). subst y0.
      apply Hp. exact Hin'.
  - intros Hn. destruct (Hover y x) as [E|[_ Hb]]; [exact E | tauto].
Qed.

(** X22. a horizontal or vertical [drawLine] paints exactly its segment:
    every pixel of the image on the segment between the two points, both
    included, becomes [value], and every other pixel keeps its byte. *)
Theorem X22_drawLine_axis_aligned fuel img p1 p2 value :
  wf_image img -> int_point p1 -> int_point p2 ->
  Z.abs (getX p2 - getX p1) <= 715827882 ->
  Z.abs (getY p2 - getY p1) <= 715827882 ->
  getX p1 = getX p2 \/ getY p1 = getY p2 ->
  (Z.to_nat (Z.abs (getX p2 - getX p1) + Z.abs (getY p2 - getY p1)) < fuel)%nat ->
  exists img', drawLine fuel img p1 p2 value = Done img' /\
    wf_image img' /\ same_header img' img /\
    forall x y, inside img x y ->
      (between (getX p1) (getX p2) x /\ between (getY p1) (getY p2) y ->
       load_cell img' y x = Done (Px value)) /\
      (~ (between (getX p1) (getX p2) x /\ between (getY p1) (getY p2) y) ->
       load_cell img' y x = load_cell img y x).
Proof. apply axis_line. Qed.

Lemma X22_drawLine_axis_aligned_witness :
  exists img', drawLine 3 black_3x3 (mkPoint 2 1) (mkPoint 0 1) 9 = Done img' /\
    wf_image img' /\ same_header img' black_3x3.
Proof.
  destruct (X22_drawLine_axis_aligned 3 black_3x3 (mkPoint 2 1) (mkPoint 0 1) 9
              black_3x3_wf)
    as (img' & H1 & H2 & H3 & _).
  - unfold int_point, int_range, INT_MIN, INT_MAX. simpl. lia.
  - unfold int_point, int_range, INT_MIN, INT_MAX. simpl. lia.
  - simpl. lia.
  - simpl. lia.
  - right. reflexivity.
  - simpl. lia.
  - exists img'. auto.
Defined.

Lemma inside_same img img' x y :
  same_header img' img -> inside img x y -> inside img' x y.
Proof. intros (A & B & _). unfold inside. rewrite A, B. auto. Qed.

Lemma same_header_trans a b c :
  same_header a b -> same_header b c -> same_header a c.
Proof. intros (A1 & A2 & A3) (B1 & B2 & B3). repeat split; congruence. Qed.

(** X23. [drawRectangle] paints exactly the outline of the box spanned by
    the two corner points, both corners included: every pixel of the image on
    the outline becomes [value], every other pixel keeps its byte.  The
    overload that takes a [Rectangle] does the same with its two corners. *)
Theorem X23_drawRectangle_outline fuel img tl br value :
  wf_image img -> int_point tl -> int_point br ->
  Z.abs (getX br - getX tl) <= 715827882 ->
  Z.abs (getY br - getY tl) <= 715827882 ->
  (Z.to_nat (Z.max (Z.abs (getX br - getX tl)) (Z.abs (getY br - getY tl)))
   < fuel)%nat ->
  exists img', drawRectangle fuel img tl br value = Done img' /\
    drawRectangle_rect fuel img (mkRectangle tl br) value = Done img' /\
    wf_image img' /\ same_header img' img /\
    forall x y, inside img x y ->
      (on_outline tl br x y -> load_cell img' y x = Done (Px value)) /\
      (~ on_outline tl br x y -> load_cell img' y x = load_cell img y x).
Proof.
  intros Hwf [Htx Hty] [Hbx Hby] Hdx Hdy Hfuel.
  unfold drawRectangle_rect. cbn [topLeft bottomRight]. unfold drawRectangle.
  cbv zeta.
  set (tr := mkPoint (getX br) (getY tl)). set (bl := mkPoint (getX tl) (getY br)).
  assert (Htl : int_point tl) by (split; assumption).
  assert (Hbr : int_point br) by (split; assumption).
  assert (Htr : int_point tr) by (split; assumption).
  assert (Hbl : int_point bl) by (split; assumption).
  destruct (axis_line fuel img tl tr value Hwf Htl Htr)
    as (i1 & E1 & W1 & H1 & P1); cbn [tr getX getY];
    [lia | lia | right; reflexivity | lia |].
  rewrite E1, bind_Done.
  destruct (axis_line fuel i1 tr br value W1 Htr Hbr)
    as (i2 & E2 & W2 & H2 & P2); cbn [tr getX getY];
    [lia | lia | left; reflexivity | lia |].
  rewrite E2, bind_Done.
  destruct (axis_line fuel i2 br bl value W2 Hbr Hbl)
    as (i3 & E3 & W3 & H3 & P3); cbn [bl getX getY];
    [lia | lia | right; reflexivity | lia |].
  rewrite E3, bind_Done.
  destruct (axis_line fuel i3 bl tl value W3 Hbl Htl)
    as (i4 & E4 & W4 & H4 & P4); cbn [bl getX getY];
    [lia | lia | left; reflexivity | lia |].
  exists i4. split; [exact E4|]. split; [exact E4|]. split; [exact W4|].
  assert (H21 : same_header i2 img) by (eapply same_header_trans; eauto).
  assert (H31 : same_header i3 img) by (eapply same_header_trans; eauto).
  split; [eapply same_header_trans; eauto|].
  intros x y Hin.
  pose proof (inside_same _ _ x y H1 Hin) as Hin1.
  pose proof (inside_same _ _ x y H21 Hin) as Hin2.
  pose proof (inside_same _ _ x y H31 Hin) as Hin3.
  destruct (P1 x y Hin) as [P1a P1b]. destruct (P2 x y Hin1) as [P2a P2b].
  destruct (P3 x y Hin2) as [P3a P3b]. destruct (P4 x y Hin3) as [P4a P4b].
  cbn [tr bl getX getY] in *.
  set (S1 := between (getX tl) (getX br) x /\ between (getY tl) (getY tl) y) in *.
  set (S2 := between (getX br) (getX br) x /\ between (getY tl) (getY br) y) in *.
  set (S3 := between (getX br) (getX tl) x /\ between (getY br) (getY br) y) in *.
  set (S4 := between (getX tl) (getX tl) x /\ between (getY br) (getY tl) y) in *.
  assert (D1 : S1 \/ ~ S1) by (clear; unfold S1, between; lia).
  assert (D2 : S2 \/ ~ S2) by (clear; unfold S2, between; lia).
  assert (D3 : S3 \/ ~ S3) by (clear; unfold S3, between; lia).
  assert (D4 : S4 \/ ~ S4) by (clear; unfold S4, between; lia).
  assert (Hiff : on_outline tl br x y <-> S1 \/ S2 \/ S3 \/ S4).
  { clear. unfold on_outline, S1, S2, S3, S4, between. lia. }
  destruct Hiff as [I1 I2]. clearbody S1 S2 S3 S4.
  clear - P1a P1b P2a P2b P3a P3b P4a P4b D1 D2 D3 D4 I1 I2.
  split.
  - intros Ho. apply I1 in Ho.
    destruct D4 as [D4|D4]; [exact (P4a D4)|]. rewrite (P4b D4).
    destruct D3 as [D3|D3]; [exact (P3a D3)|]. rewrite (P3b D3).
    destruct D2 as [D2|D2]; [exact (P2a D2)|]. rewrite (P2b D2).
    destruct D1 as [D1|D1]; [exact (P1a D1)|].
    exfalso. destruct Ho as [H|[H|[H|H]]]; auto.
  - intros Ho.
    assert (N1 : ~ S1) by (intros H; apply Ho, I2; auto).
    assert (N2 : ~ S2) by (intros H; apply Ho, I2; auto).
    assert (N3 : ~ S3) by (intros H; apply Ho, I2; auto).
    assert (N4 : ~ S4) by (intros H; apply Ho, I2; auto).
    rewrite (P4b N4), (P3b N3), (P2b N2), (P1b N1). reflexivity.
Qed.

Lemma X23_drawRectangle_outline_witness :
  exists img',
    drawRectangle 3 black_3x3 (mkPoint 0 0) (mkPoint 2 2) 9 = Done img' /\
    wf_image img' /\ same_header img' black_3x3.
Proof.
  destruct (X23_drawRectangle_outline 3 black_3x3 (mkPoint 0 0) (mkPoint 2 2) 9
              black_3x3_wf)
    as (img' & H1 & _ & H2 & H3 & _).
  - unfold int_point, int_range, INT_MIN, INT_MAX. simpl. lia.
  - unfold int_point, int_range, INT_MIN, INT_MAX. simpl. lia.
  - simpl. lia.
  - simpl. lia.
  - simpl. lia.
  - exists img'. auto.
Defined.

(** The outline on the 3 by 3 image: the centre pixel alone is untouched. *)
Example drawRectangle_3x3 :
  drawRectangle 3 black_3x3 (mkPoint 0 0) (mkPoint 2 2) 9
  = Done (image_of_rows 3 3
            [[Px 9; Px 9; Px 9]; [Px 9; Px 0; Px 9]; [Px 9; Px 9; Px 9]]).
Proof. reflexivity. Qed.

(** ** Circles on square images *)

Lemma drawn_over_refl img value P : drawn_over img img value P.
Proof. intros y x. left. reflexivity. Qed.

Lemma drawn_over_trans a b c value P :
  drawn_over a b value P -> drawn_over b c value P -> drawn_over a c value P.
Proof.
  intros H1 H2 y x. destruct (H2 y x) as [E|E]; [|right; exact E].
  rewrite E. apply H1.
Qed.

Section Circle.

Variables (value cx cy radius : Z).
Hypothesis Hcx : -1000000000 <= cx <= 1000000000.
Hypothesis Hcy : -1000000000 <= cy <= 1000000000.
Hypothesis Hradius : 0 <= radius <= 100000000.

(** The square of side [2 * radius + 1] around the pixel in column [cy] and
    row [cx]. *)
Let box (x y : Z) : Prop :=
  Z.abs (x - cy) <= radius /\ Z.abs (y - cx) <= radius.

Let step (img img' : Image) : Prop :=
  wf_image img' /\ same_header img' img /\ drawn_over img img' value box.

Lemma step_trans a b c : step a b -> step b c -> step a c.
Proof.
  intros (_ & H1 & D1) (W2 & H2 & D2). split; [exact W2|].
  split; [eapply same_header_trans; eauto | eapply drawn_over_trans; eauto].
Qed.

Lemma step_painted a b x y :
  step a b -> painted a value x y -> painted b value x y.
Proof.
  intros (_ & Hh & Hd) Hp Hin. eapply drawn_over_keeps; [exact Hd|].
  apply Hp. eapply inside_header; eauto.
Qed.

(** One guarded plot on a square image: the row is [a] and the column is
    [b]. *)
Lemma plot_square img a b :
  wf_image img -> m_width img = m_height img ->
  int_range a -> int_range b -> box b a ->
  exists img', plot img (int_ a) (int_ b) value = Done img' /\
    step img img' /\ painted img' value b a.
Proof.
  intros Hwf Hsq Ha Hb Hbox.
  pose proof (wf_width _ Hwf) as Hw. pose proof (wf_height _ Hwf) as Hh.
  unfold plot. rewrite (int_in_range a Ha), bind_Done.
  unfold width, height.
  assert (Hskip : ~ (0 <= a < m_width img /\ 0 <= b < m_height img) ->
    step img img /\ painted img value b a).
  { intros Hn. split.
    - split; [exact Hwf|]. split; [repeat split | apply drawn_over_refl].
    - intros [Hi1 Hi2]. exfalso. apply Hn. lia. }
  destruct (Z.leb_spec 0 a); cbn [andb];
    [|eexists; split; [reflexivity | apply Hskip; lia]].
  destruct (Z.ltb_spec a (m_width img)); cbn [andb];
    [|eexists; split; [reflexivity | apply Hskip; lia]].
  rewrite (int_in_range b Hb), bind_Done.
  destruct (Z.leb_spec 0 b); cbn [andb];
    [|eexists; split; [reflexivity | apply Hskip; lia]].
  destruct (Z.ltb_spec b (m_height img)); cbn [andb];
    [|eexists; split; [reflexivity | apply Hskip; lia]].
  unfold at_set. unfold uint_range in *.
  rewrite !to_unsigned_small by (unfold uint_range; lia).
  destruct (wf_store img a b (Px value) Hwf)
    as (img' & Hst & Hwf' & Hhd & Hhit & Hmiss); [lia | lia |].
  exists img'. split; [exact Hst|]. split.
  - split; [exact Hwf'|]. split; [exact Hhd|].
    intros y x. destruct (decide ((y, x) = (a, b))) as [[= -> ->]|Hne].
    + right. split; [exact Hhit | exact Hbox].
    + left. apply Hmiss. exact Hne.
  - intros _. exact Hhit.
Qed.

Lemma step_square a b :
  step a b -> m_width a = m_height a -> m_width b = m_height b.
Proof. intros (_ & (Hw & Hh & _) & _) Hsq. congruence. Qed.

Lemma step_refl img : wf_image img -> step img img.
Proof.
  intros Hwf. split; [exact Hwf|].
  split; [repeat split | apply drawn_over_refl].
Qed.

(** The loop of [drawCircle] on a square image, from a state with [x] not
    negative, [y] at most [radius] and [d] within linear bounds: it
    completes, and the eight points of the first iteration are painted. *)
Lemma circle_loop_square fuel : forall img x y d,
  wf_image img -> m_width img = m_height img ->
  0 <= x -> y <= radius ->
  - 4 * radius - 3 <= d <= 4 * radius + 6 + 10 * x ->
  (Z.to_nat (y - x + 1) <= fuel)%nat ->
  exists img',
    circle_loop fuel img (mkPoint cx cy) value x y d = Done img' /\
    step img img' /\
    (x <= y ->
     painted img' value (cy + y) (cx + x) /\
     painted img' value (cy + x) (cx + y) /\
     painted img' value (cy + y) (cx - x) /\
     painted img' value (cy + x) (cx - y) /\
     painted img' value (cy - y) (cx + x) /\
     painted img' value (cy - x) (cx + y) /\
     painted img' value (cy - y) (cx - x) /\
     painted img' value (cy - x) (cx - y)).
Proof.
  induction fuel as [|fuel IH]; intros img x y d Hwf Hsq Hx Hy Hd Hfuel.
  - cbn [circle_loop]. destruct (Z.leb_spec x y) as [Hxy|Hxy]; [lia|].
    exists img. split; [reflexivity|]. split; [apply step_refl; exact Hwf | lia].
  - cbn [circle_loop]. destruct (Z.leb_spec x y) as [Hxy|Hxy].
    2:{ exists img. split; [reflexivity|].
        split; [apply step_refl; exact Hwf | lia]. }
    cbv zeta. cbn [getX getY]. unfold iadd, isub, imul.
    assert (Hbox : forall a b, Z.abs a <= radius -> Z.abs b <= radius ->
              box (cy + b) (cx + a)).
    { intros a b Ha Hb. unfold box. split; lia. }
    assert (Hint : forall a c, -1000000000 <= c <= 1000000000 ->
              Z.abs a <= radius -> int_range (c + a)).
    { intros a c Hc Ha. unfold int_range, INT_MIN, INT_MAX. lia. }
    destruct (plot_square img (cx + x) (cy + y) Hwf Hsq)
      as (i1 & E1 & S1 & P1); [apply Hint; lia | apply Hint; lia | apply Hbox; lia |].
    rewrite E1, bind_Done.
    pose proof (step_square _ _ S1 Hsq) as Q1.
    destruct (plot_square i1 (cx + y) (cy + x) (proj1 S1) Q1)
      as (i2 & E2 & S2 & P2); [apply Hint; lia | apply Hint; lia | apply Hbox; lia |].
    rewrite E2, bind_Done.
    pose proof (step_square _ _ S2 Q1) as Q2.
    destruct (plot_square i2 (cx - x) (cy + y) (proj1 S2) Q2)
      as (i3 & E3 & S3 & P3);
      [apply (Hint (- x)); lia | apply Hint; lia | apply (Hbox (- x)); lia |].
    rewrite E3, bind_Done.
    pose proof (step_square _ _ S3 Q2) as Q3.
    destruct (plot_square i3 (cx - y) (cy + x) (proj1 S3) Q3)
      as (i4 & E4 & S4 & P4);
      [apply (Hint (- y)); lia | apply Hint; lia | apply (Hbox (- y)); lia |].
    rewrite E4, bind_Done.
    pose proof (step_square _ _ S4 Q3) as Q4.
    destruct (plot_square i4 (cx + x) (cy - y) (proj1 S4) Q4)
      as (i5 & E5 & S5 & P5);
      [apply Hint; lia | apply (Hint (- y)); lia | apply (Hbox x (- y)); lia |].
    rewrite E5, bind_Done.
    pose proof (step_square _ _ S5 Q4) as Q5.
    destruct (plot_square i5 (cx + y) (cy - x) (proj1 S5) Q5)
      as (i6 & E6 & S6 & P6);
      [apply Hint; lia | apply (Hint (- x)); lia | apply (Hbox y (- x)); lia |].
    rewrite E6, bind_Done.
    pose proof (step_square _ _ S6 Q5) as Q6.
    destruct (plot_square i6 (cx - x) (cy - y) (proj1 S6) Q6)
      as (i7 & E7 & S7 & P7);
      [apply (Hint (- x)); lia | apply (Hint (- y)); lia
      | apply (Hbox (- x) (- y)); lia |].
    rewrite E7, bind_Done.
    pose proof (step_square _ _ S7 Q6) as Q7.
    destruct (plot_square i7 (cx - y) (cy - x) (proj1 S7) Q7)
      as (i8 & E8 & S8 & P8);
      [apply (Hint (- y)); lia | apply (Hint (- x)); lia
      | apply (Hbox (- y) (- x)); lia |].
    rewrite E8, bind_Done.
    pose proof (step_square _ _ S8 Q7) as Q8.
    assert (Hnext : exists d' y',
      (if d <? 0
       then t ← int_ (4 * x); t0 ← int_ (t + 6); d0 ← int_ (d + t0); Done (d0, y)
       else t ← int_ (x - y); t0 ← int_ (4 * t); t1 ← int_ (t0 + 10);
            d0 ← int_ (d + t1); y0 ← int_ (y - 1); Done (d0, y0))
      = Done (d', y') /\
      y' <= y /\ y - 1 <= y' /\
      - 4 * radius - 3 <= d' <= 4 * radius + 6 + 10 * (x + 1)).
    { destruct (Z.ltb_spec d 0).
      - rewrite (int_in_range (4 * x)) by (unfold int_range, INT_MIN, INT_MAX; lia).
        rewrite bind_Done.
        rewrite (int_in_range (4 * x + 6))
          by (unfold int_range, INT_MIN, INT_MAX; lia).
        rewrite bind_Done.
        rewrite (int_in_range (d + (4 * x + 6)))
          by (unfold int_range, INT_MIN, INT_MAX; lia).
        rewrite bind_Done. eexists _, _. split; [reflexivity|]. lia.
      - rewrite (int_in_range (x - y)) by (unfold int_range, INT_MIN, INT_MAX; lia).
        rewrite bind_Done.
        rewrite (int_in_range (4 * (x - y)))
          by (unfold int_range, INT_MIN, INT_MAX; lia).
        rewrite bind_Done.
        rewrite (int_in_range (4 * (x - y) + 10))
          by (unfold int_range, INT_MIN, INT_MAX; lia).
        rewrite bind_Done.
        rewrite (int_in_range (d + (4 * (x - y) + 10)))
          by (unfold int_range, INT_MIN, INT_MAX; lia).
        rewrite bind_Done.
        rewrite (int_in_range (y - 1)) by (unfold int_range, INT_MIN, INT_MAX; lia).
        rewrite bind_Done. eexists _, _. split; [reflexivity|]. lia. }
    destruct Hnext as (d' & y' & En & Hy' & Hy'' & Hd').
    rewrite En, bind_Done.
    rewrite (int_in_range (x + 1)) by (unfold int_range, INT_MIN, INT_MAX; lia).
    rewrite bind_Done.
    destruct (IH i8 (x + 1) y' d' (proj1 S8) Q8 ltac:(lia) ltac:(lia) Hd'
                ltac:(lia))
      as (img' & Erun & T8 & _).
    pose proof (step_trans _ _ _ S8 T8) as T7.
    pose proof (step_trans _ _ _ S7 T7) as T6.
    pose proof (step_trans _ _ _ S6 T6) as T5.
    pose proof (step_trans _ _ _ S5 T5) as T4.
    pose proof (step_trans _ _ _ S4 T4) as T3.
    pose proof (step_trans _ _ _ S3 T3) as T2.
    pose proof (step_trans _ _ _ S2 T2) as T1.
    pose proof (step_trans _ _ _ S1 T1) as T0.
    exists img'. split; [exact Erun|]. split; [exact T0|]. intros _.
    split; [exact (step_painted _ _ _ _ T1 P1)|].
    split; [exact (step_painted _ _ _ _ T2 P2)|].
    split; [exact (step_painted _ _ _ _ T3 P3)|].
    split; [exact (step_painted _ _ _ _ T4 P4)|].
    split; [exact (step_painted _ _ _ _ T5 P5)|].
    split; [exact (step_painted _ _ _ _ T6 P6)|].
    split; [exact (step_painted _ _ _ _ T7 P7)|].
    exact (step_painted _ _ _ _ T8 P8).
Qed.

End Circle.

(** X24. [drawCircle] on a square image, with the centre coordinates within
    10^9 in absolute value and a radius from 0 to 10^8: the call completes on
    a well-formed image of the same dimensions; a byte changes only to
    [value], and only inside the square of half-side [radius] around the
    pixel whose column is [center.getY()] and whose row is [center.getX()];
    and the four outermost points of the circle around that pixel are
    painted.  The circle is drawn around the centre with its coordinates
    exchanged. *)
Theorem X24_drawCircle_square img center radius value :
  wf_image img -> m_width img = m_height img ->
  -1000000000 <= getX center <= 1000000000 ->
  -1000000000 <= getY center <= 1000000000 ->
  0 <= radius <= 100000000 ->
  exists img', drawCircle img center radius value = Done img' /\
    wf_image img' /\ same_header img' img /\
    drawn_over img img' value
      (fun x y => Z.abs (x - getY center) <= radius /\
                  Z.abs (y - getX center) <= radius) /\
    painted img' value (getY center + radius) (getX center) /\
    painted img' value (getY center - radius) (getX center) /\
    painted img' value (getY center) (getX center + radius) /\
    painted img' value (getY center) (getX center - radius).
Proof.
  intros Hwf Hsq Hcx Hcy Hr. destruct center as [cx cy]. cbn [getX getY] in *.
  unfold drawCircle, imul, isub.
  rewrite (int_in_range (2 * radius)) by (unfold int_range, INT_MIN, INT_MAX; lia).
  rewrite bind_Done.
  rewrite (int_in_range (3 - 2 * radius))
    by (unfold int_range, INT_MIN, INT_MAX; lia).
  rewrite bind_Done.
  destruct (circle_loop_square value cx cy radius Hcx Hcy Hr
              (Z.to_nat (radius + 1)) img 0 radius (3 - 2 * radius) Hwf Hsq)
    as (img' & Erun & (Hwf' & Hhd & Hover) & Hp); try lia.
  destruct (Hp ltac:(lia)) as (P1 & P2 & _ & P4 & P5 & _).
  rewrite ?Z.add_0_r, ?Z.sub_0_r in *.
  exists img'. split; [exact Erun|]. split; [exact Hwf'|]. split; [exact Hhd|].
  split; [exact Hover|]. auto.
Qed.

Lemma X24_drawCircle_square_witness :
  exists img', drawCircle black_3x3 (mkPoint 2 0) 1 255 = Done img' /\
    wf_image img' /\ same_header img' black_3x3 /\
    painted img' 255 (0 + 1) 2.
Proof.
  destruct (X24_drawCircle_square black_3x3 (mkPoint 2 0) 1 255 black_3x3_wf)
    as (img' & H1 & H2 & H3 & _ & H4 & _).
  - reflexivity.
  - simpl. lia.
  - simpl. lia.
  - lia.
  - exists img'. auto.
Defined.

(** X25. [drawCircle] always terminates: the loop runs at most [radius + 1]
    times.  With a negative radius (not below -1073741822, so that
    [3 - 2 * radius] is an [int]) the loop is not entered and the image is
    returned unchanged. *)
Theorem X25_drawCircle_terminates img center radius value :
  drawCircle img center radius value <> OutOfFuel /\
  (-1073741822 <= radius < 0 ->
   drawCircle img center radius value = Done img).
Proof.
  split; [apply drawCircle_fuel|].
  intros Hr. unfold drawCircle, imul, isub.
  rewrite (int_in_range (2 * radius)) by (unfold int_range, INT_MIN, INT_MAX; lia).
  rewrite bind_Done.
  rewrite (int_in_range (3 - 2 * radius))
    by (unfold int_range, INT_MIN, INT_MAX; lia).
  rewrite bind_Done.
  replace (Z.to_nat (radius + 1)) with 0%nat by lia.
  cbn [circle_loop]. destruct (Z.leb_spec 0 radius); [lia | reflexivity].
Qed.

Lemma X25_drawCircle_terminates_witness :
  drawCircle black_3x1 (mkPoint 2 0) (-3) 255 <> OutOfFuel /\
  drawCircle black_3x1 (mkPoint 2 0) (-3) 255 = Done black_3x1.
Proof.
  destruct (X25_drawCircle_terminates black_3x1 (mkPoint 2 0) (-3) 255) as [H1 H2].
  split; [exact H1 | apply H2; lia].
Defined.
